(** * place_and_route.py: batch runs, geometric means and parameter sweeps

    A shallow embedding of [scripts/place_and_route.py].  The script drives
    an external placer over a list of circuits and random seeds, collects
    the metrics it prints, and writes tables of geometric means.

    Conventions of the embedding.
    - The script runs under Python 2 and under Python 3.  They differ in
      one place the script reaches: [keys()] of a mapping is a list in
      Python 2 and a view in Python 3, and [build_option_sets] indexes it.
      A mapping object of the model says which of the two it returns.
    - Python objects that are mutated and shared (the command token lists)
      live in a heap of list objects addressed by locations.
    - Everything the script reaches outside itself is a field of a
      [platform]: the external tool, the [re] engine, [float], and the
      generator behind the [random] module.
    - Python floats are read as real numbers; [stats.gmean] is
      [exp (mean (log a))] as in SciPy's source.
    - A method is a function from a state to an [outcome] and a state; the
      state survives a raised exception, as the objects do in Python. *)

From Stdlib Require Import Ascii String Reals Lra.
From stdpp Require Import gmap strings list fin_maps pretty sorting infinite fin_sets.

Local Open Scope string_scope.
Local Open Scope list_scope.

(** ** Exceptions and outcomes *)

Inductive exn :=
  | NameError (name : string)
  | AttributeError (attr : string)
  | KeyError (key : string)
  | IndexError
  | TypeError
  | ValueError (text : string)
  | OSError (errno : Z)
  | SystemExit (code : Z).

Inductive outcome (A : Type) :=
  | Done (a : A)
  | Raised (e : exn).
Arguments Done {A} a.
Arguments Raised {A} e.

(** [errno] constants used by the script and by the calls it makes. *)
Definition ENOENT : Z := 2.
Definition ENOTDIR : Z := 20.
Definition EISDIR : Z := 21.

(** ** The state and exception monad *)

Definition M (S A : Type) : Type := S -> outcome A * S.

Definition ret {S A} (a : A) : M S A := fun s => (Done a, s).

Definition bind {S A B} (m : M S A) (k : A -> M S B) : M S B :=
  fun s => match m s with
           | (Done a, s') => k a s'
           | (Raised e, s') => (Raised e, s')
           end.

Definition raise {S A} (e : exn) : M S A := fun s => (Raised e, s).
Definition get {S} : M S S := fun s => (Done s, s).
Definition modify {S} (f : S -> S) : M S unit := fun s => (Done tt, f s).

(** An outcome that does not touch the state. *)
Definition lift {S A} (o : outcome A) : M S A := fun s => (o, s).

Declare Scope py_scope.
Delimit Scope py_scope with py.
Notation "x <~ m ;; k" := (bind m (fun x => k))
  (at level 100, m at next level, right associativity) : py_scope.
Notation "m ;;; k" := (bind m (fun _ => k))
  (at level 100, right associativity) : py_scope.
Local Open Scope py_scope.

(** [for x in xs: body x] *)
Fixpoint for_each {S A} (xs : list A) (body : A -> M S unit) : M S unit :=
  match xs with
  | [] => ret tt
  | x :: xs' => body x ;;; for_each xs' body
  end.

(** [[f x for x in xs]] where [f] has effects. *)
Fixpoint comprehension {S A B} (xs : list A) (f : A -> M S B) : M S (list B) :=
  match xs with
  | [] => ret []
  | x :: xs' => y <~ f x ;; ys <~ comprehension xs' f ;; ret (y :: ys)
  end.

(** The same loops for code that has no state to thread. *)
Definition obind {A B} (o : outcome A) (k : A -> outcome B) : outcome B :=
  match o with
  | Done a => k a
  | Raised e => Raised e
  end.

Fixpoint omap {A B} (f : A -> outcome B) (xs : list A) : outcome (list B) :=
  match xs with
  | [] => Done []
  | x :: xs' => obind (f x) (fun y => obind (omap f xs') (fun ys => Done (y :: ys)))
  end.

(** ** Strings *)

(** [s.startswith(p)] *)
Fixpoint startswith (p s : string) : bool :=
  match p, s with
  | EmptyString, _ => true
  | String a p', String b s' => if decide (a = b) then startswith p' s' else false
  | String _ _, EmptyString => false
  end.

(** [s.replace(old, new)] for a non-empty [old]: occurrences are replaced
    from the left and do not overlap.  [skip] counts the characters of a
    matched occurrence that are still to be dropped. *)
Fixpoint replace_from (old new s : string) (skip : nat) : string :=
  match s with
  | EmptyString => EmptyString
  | String a s' =>
      match skip with
      | S n => replace_from old new s' n
      | O =>
          if startswith old s
          then new +:+ replace_from old new s' (String.length old - 1)
          else String a (replace_from old new s' 0)
      end
  end.

Definition replace (old new s : string) : string := replace_from old new s 0.

(** [sep.join(parts)] *)
Fixpoint join (sep : string) (parts : list string) : string :=
  match parts with
  | [] => ""
  | [p] => p
  | p :: ps => p +:+ sep +:+ join sep ps
  end.

(** [s.split(sep)] for a one-character separator: every occurrence
    splits, and the empty string gives one empty field. *)
Fixpoint split (sep : ascii) (s : string) : list string :=
  match s with
  | EmptyString => [""]
  | String a s' =>
      if decide (a = sep) then "" :: split sep s'
      else match split sep s' with
           | [] => [String a ""]
           | w :: ws => String a w :: ws
           end
  end.

(** [s.lower()] on ASCII text. *)
Definition lower_ascii (a : ascii) : ascii :=
  let n := nat_of_ascii a in
  if (65 <=? n)%nat && (n <=? 90)%nat then ascii_of_nat (n + 32) else a.

Fixpoint lower (s : string) : string :=
  match s with
  | EmptyString => EmptyString
  | String a s' => String (lower_ascii a) (lower s')
  end.

(** [str(n)] for an integer. *)
Definition str_int (n : Z) : string := pretty n.

(** [str(v)] for the values an option range holds. *)
Inductive pyval :=
  | PInt (n : Z)
  | PStr (s : string).

Definition str (v : pyval) : string :=
  match v with
  | PInt n => str_int n
  | PStr s => s
  end.

(** [os.path.join(a, b)] for a relative [b]. *)
Definition endswith_slash (s : string) : bool :=
  match String.rev s with
  | String c _ => bool_decide (c = "/"%char)
  | EmptyString => false
  end.

Definition path_join (a b : string) : string :=
  if bool_decide (a = "") || endswith_slash a then a +:+ b else a +:+ "/" +:+ b.

(** Does path [p] lie under directory [d]? *)
Definition under (d p : string) : bool := startswith (d +:+ "/") p.

(** ** Mappings *)

(** What [option_ranges.keys()] returns: a list in Python 2, and in
    Python 3 a view, which has a length and can be iterated but cannot be
    indexed. *)
Inductive keys_object :=
  | KeysList (names : list string)
  | KeysView (names : list string).

(** A mapping of option names to ranges, as far as the script uses one:
    through [keys()] and [values()].  Both enumerate the items in the same
    order, the one in which the mapping iterates.  That is the order in
    which the items were declared for a mapping that preserves it (an
    OrderedDict, a Python 3 dict) and the order of the hash table for a
    Python 2 dict. *)
Record mapping := {
  items : list (string * list pyval);
  keys_indexable : bool;
}.

(** [m.keys()] *)
Definition keys (m : mapping) : keys_object :=
  if keys_indexable m then KeysList (items m).*1 else KeysView (items m).*1.

(** [m.values()], as the sequence of pools that [*] unpacks *)
Definition values (m : mapping) : list (list pyval) := (items m).*2.

(** [len(k)] *)
Definition keys_len (k : keys_object) : nat :=
  match k with
  | KeysList names => length names
  | KeysView names => length names
  end.

(** [k[i]] *)
Definition keys_get (k : keys_object) (i : nat) : outcome string :=
  match k with
  | KeysList names =>
      match names !! i with
      | Some name => Done name
      | None => Raised IndexError
      end
  | KeysView _ => Raised TypeError
  end.

(** ** Geometric mean *)

Local Open Scope R_scope.

Definition sum_list (l : list R) : R := foldr Rplus 0 l.

(** [numpy.mean(a)] *)
Definition mean (l : list R) : R := sum_list l / INR (length l).

(** [stats.gmean(a)], which SciPy computes as [exp(mean(log(a)))], over
    the reals.  It stands for SciPy's result on a non-empty sequence of
    positive samples, up to the rounding of floating point; on an empty
    sequence and on samples that are not positive it does not. *)
Definition gmean (l : list R) : R := exp (mean (map ln l)).

Local Close Scope R_scope.

(** ** Tables *)

(** A field of a report row is text or a number. *)
Inductive cell :=
  | CStr (s : string)
  | CNum (x : R).

(** A row handed to [csv.writer.writerows] is any iterable: the script
    uses lists of fields and, once, bare strings. *)
Inductive table_row :=
  | RowList (cells : list cell)
  | RowStr (s : string).

Fixpoint chars (s : string) : list cell :=
  match s with
  | EmptyString => []
  | String a s' => CStr (String a "") :: chars s'
  end.

(** The fields [csv.writer] writes for a row: a string is iterated
    character by character. *)
Definition fields (r : table_row) : list cell :=
  match r with
  | RowList cs => cs
  | RowStr s => chars s
  end.

Definition blank_cell (c : cell) : bool :=
  match c with
  | CStr s => bool_decide (s = "")
  | CNum _ => false
  end.


(** The cell in column [j] of a row is blank when it is the empty string
    or when the row is too short to have it. *)
Definition blank_at (r : table_row) (j : nat) : bool :=
  match fields r !! j with
  | Some c => blank_cell c
  | None => true
  end.

(** ** The platform *)

Definition loc := positive.

Inductive node := File | Dir.

(** Does [path] lead through a name that is a regular file? *)
Definition under_a_file (fs : gmap string node) (path : string) : bool :=
  existsb (fun entry => match entry.2 with
                        | File => under entry.1 path
                        | Dir => false
                        end)
          (map_to_list fs).

(** One execution of the external tool. *)
Record call := {
  argv : list string;
  out_text : string;
  err_text : string;
}.

Record platform := {
  rng_state : Type;
  (** [random.seed(a)] *)
  rng_seed : Z -> rng_state;
  (** [random.randrange(n)] *)
  rng_randrange : Z -> rng_state -> Z * rng_state;
  (** [re.compile(pattern, re.DOTALL).search(text)]: the named groups of
      the match, if there is one *)
  re_search : string -> string -> option (string -> option string);
  (** [float(text)] *)
  py_float : string -> option R;
  (** the process started by [subprocess.Popen(argv)]: decoded stdout and
      stderr, and what it does to the file system; it may depend on the
      executions before it *)
  tool : list call -> list string -> gmap string node ->
         (string * string) * gmap string node;
}.

(** ** The world outside the objects *)

Record world {P : platform} := {
  w_heap : gmap loc (list string);
  w_stdout : list string;
  w_rng : rng_state P;
  w_fs : gmap string node;
  w_calls : list call;
  w_reports : list (string * list table_row);
}.
Arguments world P : clear implicits.

(** The names bound in the module's namespace when a method runs.
    [from scipy import stats] binds [stats]; [geomean] is a name the
    script calls. *)
Record globals := {
  g_geomean : option (list R -> R);
}.

(** The namespace of [place_and_route.py] as written: nothing binds
    [geomean]. *)
Definition module_globals : globals := {| g_geomean := None |}.

(** ** Caller objects *)

Record caller := {
  circuits : list string;
  metrics : list string;
  stats_regex : string;
  architecture : string;
  circuit_path : string;
  results : option (gmap string (gmap string (list R)));
  seeds : option (list Z);
  command : option loc;
}.

(** The class attributes of [PlaceCaller]. *)
Definition PlaceCaller_metrics : list string := ["runtime"; "BB cost"; "max delay"].

Definition PlaceCaller_stats_regex : string :=
  ".*time\s+\|\s+(?P<runtime>[0-9.e+-]+).*BB cost\s+\|\s+(?P<bb_cost>[0-9.e+-]+).*max delay\s+\|\s+(?P<max_delay>[0-9.e+-]+)".

(** [Caller.__init__] followed by [PlaceCaller.__init__] *)
Definition PlaceCaller (arch circuits_folder circuit_names : string) : caller :=
  {| circuits := split " " circuit_names;
     metrics := PlaceCaller_metrics;
     stats_regex := PlaceCaller_stats_regex;
     architecture := arch;
     circuit_path := path_join circuits_folder "{circuit}.blif";
     results := None;
     seeds := None;
     command := None |}.

Definition set_results (r : gmap string (gmap string (list R))) (c : caller) : caller :=
  {| circuits := circuits c; metrics := metrics c; stats_regex := stats_regex c;
     architecture := architecture c; circuit_path := circuit_path c;
     results := Some r; seeds := seeds c; command := command c |}.

Definition set_seeds (l : list Z) (c : caller) : caller :=
  {| circuits := circuits c; metrics := metrics c; stats_regex := stats_regex c;
     architecture := architecture c; circuit_path := circuit_path c;
     results := results c; seeds := Some l; command := command c |}.

Definition set_command (l : loc) (c : caller) : caller :=
  {| circuits := circuits c; metrics := metrics c; stats_regex := stats_regex c;
     architecture := architecture c; circuit_path := circuit_path c;
     results := results c; seeds := seeds c; command := Some l |}.

Section Methods.
Context {P : platform}.

Local Abbreviation world := (world P).

(** *** Primitive effects on the world *)

Definition set_heap (h : gmap loc (list string)) (w : world) : world :=
  {| w_heap := h; w_stdout := w_stdout w; w_rng := w_rng w; w_fs := w_fs w;
     w_calls := w_calls w; w_reports := w_reports w |}.

Definition set_rng (r : rng_state P) (w : world) : world :=
  {| w_heap := w_heap w; w_stdout := w_stdout w; w_rng := r; w_fs := w_fs w;
     w_calls := w_calls w; w_reports := w_reports w |}.

Definition set_fs (fs : gmap string node) (w : world) : world :=
  {| w_heap := w_heap w; w_stdout := w_stdout w; w_rng := w_rng w; w_fs := fs;
     w_calls := w_calls w; w_reports := w_reports w |}.

(** [print(line)] *)
Definition print (line : string) : M world unit :=
  modify (fun w =>
    {| w_heap := w_heap w; w_stdout := w_stdout w ++ [line]; w_rng := w_rng w;
       w_fs := w_fs w; w_calls := w_calls w; w_reports := w_reports w |}).

(** A new list object. *)
Definition new_list (toks : list string) : M world loc :=
  fun w => let l := fresh (dom (w_heap w)) in
           (Done l, set_heap (<[l := toks]> (w_heap w)) w).

(** The tokens of a list object; a location that holds no list cannot be
    reached from the script and is reported as an [AttributeError]. *)
Definition read_list (l : loc) : M world (list string) :=
  fun w => match w_heap w !! l with
           | Some toks => (Done toks, w)
           | None => (Raised (AttributeError "list"), w)
           end.

(** [copy.deepcopy(l)] for a list of strings *)
Definition deepcopy (l : loc) : M world loc :=
  toks <~ read_list l ;; new_list toks.

(** [l[i]] *)
Definition list_get (l : loc) (i : nat) : M world string :=
  toks <~ read_list l ;;
  match toks !! i with
  | Some t => ret t
  | None => raise IndexError
  end.

(** [l[i] = t] *)
Definition list_set (l : loc) (i : nat) (t : string) : M world unit :=
  toks <~ read_list l ;;
  if decide (i < length toks)%nat
  then modify (fun w => set_heap (<[l := <[i := t]> toks]> (w_heap w)) w)
  else raise IndexError.

(** [subprocess.Popen(argv, ...)] and [communicate()], decoded *)
Definition popen (args : list string) : M world (string * string) :=
  fun w => let '((out, err), fs') := tool P (w_calls w) args (w_fs w) in
           (Done (out, err),
            {| w_heap := w_heap w; w_stdout := w_stdout w; w_rng := w_rng w;
               w_fs := fs';
               w_calls := w_calls w ++ [{| argv := args; out_text := out; err_text := err |}];
               w_reports := w_reports w |}).

(** [random.seed(a)] *)
Definition random_seed (a : Z) : M world unit :=
  modify (set_rng (rng_seed P a)).

(** [random.randrange(n)] *)
Definition random_randrange (n : Z) : M world Z :=
  fun w => let '(x, r) := rng_randrange P n (w_rng w) in (Done x, set_rng r w).

(** [os.remove(path)].  The file system of the model holds names and
    what they name, without owners or modes; the errors are those that the
    names decide: a path that leads through a regular file, a directory,
    and a name that is not there. *)
Definition os_remove (path : string) : M world unit :=
  fun w =>
    if under_a_file (w_fs w) path then (Raised (OSError ENOTDIR), w)
    else match w_fs w !! path with
         | Some File => (Done tt, set_fs (delete path (w_fs w)) w)
         | Some Dir => (Raised (OSError EISDIR), w)
         | None => (Raised (OSError ENOENT), w)
         end.

(** [shutil.rmtree(path)] *)
Definition shutil_rmtree (path : string) : M world unit :=
  fun w => match w_fs w !! path with
           | Some Dir =>
               (Done tt,
                set_fs (filter (fun kv => negb (under path kv.1))
                               (delete path (w_fs w))) w)
           | Some File => (Raised (OSError ENOTDIR), w)
           | None => (Raised (OSError ENOENT), w)
           end.

(** [csv.writer(open(filename, 'w')).writerows(rows)] *)
Definition write_rows (filename : string) (rows : list table_row) : M world unit :=
  modify (fun w =>
    {| w_heap := w_heap w; w_stdout := w_stdout w; w_rng := w_rng w;
       w_fs := <[filename := File]> (w_fs w); w_calls := w_calls w;
       w_reports := w_reports w ++ [(filename, rows)] |}).

(** [sys.exit(code)] *)
Definition sys_exit {S A} (code : Z) : M S A := raise (SystemExit code).

(** *** silentremove *)

(** [try: os.remove(filename)] with the handler of [OSError]. *)
Definition silentremove (filename : string) : M world unit :=
  fun w => match os_remove filename w with
           | (Raised (OSError errno), w') =>
               if decide (errno ≠ ENOENT)
               then (Raised (OSError errno), w')
               else (Done tt, w')
           | r => r
           end.

(** *** Caller *)

(** A method of a caller runs on the object and the world. *)
Local Abbreviation CM := (M (caller * world)).

Definition in_world {A} (m : M world A) : CM A :=
  fun '(c, w) => let '(r, w') := m w in (r, (c, w')).

Definition self : CM caller := fun s => (Done s.1, s).

Definition update_self (f : caller -> caller) : CM unit :=
  fun '(c, w) => (Done tt, (f c, w)).

(** [self.results], [self.seeds], [self.command] *)
Definition self_results : CM (gmap string (gmap string (list R))) :=
  c <~ self ;;
  match results c with
  | Some r => ret r
  | None => raise (AttributeError "results")
  end.

Definition self_seeds : CM (list Z) :=
  c <~ self ;;
  match seeds c with
  | Some l => ret l
  | None => raise (AttributeError "seeds")
  end.

Definition self_command : CM loc :=
  c <~ self ;;
  match command c with
  | Some l => ret l
  | None => raise (AttributeError "command")
  end.

(** [d[k]] *)
Definition getitem {V} (d : gmap string V) (k : string) : outcome V :=
  match d !! k with
  | Some v => Done v
  | None => Raised (KeyError k)
  end.

(** [Caller.call_circuit] *)
Definition substitute (circuit : string) (seed : Z) (tok : string) : string :=
  replace "{seed}" (str_int seed) (replace "{circuit}" circuit tok).

(** The body of the loop of [call_circuit]. *)
Definition substitute_at (l : loc) (circuit : string) (seed : Z) (i : nat)
  : M world unit :=
  tok <~ list_get l i ;;
  list_set l i (substitute circuit seed tok).

Definition call_circuit (cmd : loc) (circuit : string) (seed : Z)
  : M world (string * string) :=
  circuit_command <~ deepcopy cmd ;;
  toks <~ read_list circuit_command ;;
  for_each (seq 0 (length toks)) (substitute_at circuit_command circuit seed) ;;;
  args <~ read_list circuit_command ;;
  popen args.

(** The body of [for metric in self.metrics] in
    [call_all_circuits_with_seed]. *)
Definition record_metric (circuit : string) (groups : string -> option string)
    (metric : string) : CM unit :=
  let group_name := replace " " "_" (lower metric) in
  r <~ self_results ;;
  by_metric <~ lift (getitem r circuit) ;;
  samples <~ lift (getitem by_metric metric) ;;
  match groups group_name with
  | None => raise IndexError
  | Some text =>
      match py_float P text with
      | None => raise (ValueError text)
      | Some x =>
          update_self (set_results (<[circuit := <[metric := samples ++ [x]]> by_metric]> r))
      end
  end.

(** ['There was a problem with circuit "{0}"'.format(circuit)] *)
Definition double_quote : string := String (ascii_of_nat 34) "".

Definition problem_message (circuit : string) : string :=
  "There was a problem with circuit " +:+ double_quote +:+ circuit +:+ double_quote.

(** The body of [for circuit in self.circuits] in
    [call_all_circuits_with_seed]. *)
Definition run_circuit (cmd : loc) (seed : Z) (circuit : string) : CM unit :=
  in_world (print ("  " +:+ circuit)) ;;;
  oe <~ in_world (call_circuit cmd circuit seed) ;;
  let '(out, err) := oe in
  (if bool_decide (err ≠ "")
   then in_world (print err) ;;;
        in_world (print (problem_message circuit)) ;;;
        sys_exit 1
   else ret tt) ;;;
  c <~ self ;;
  match re_search P (stats_regex c) out with
  | None =>
      in_world (print out) ;;;
      in_world (print ("Failed to match pattern: " +:+ stats_regex c)) ;;;
      sys_exit 1
  | Some groups =>
      for_each (metrics c) (record_metric circuit groups)
  end.

(** [Caller.call_all_circuits_with_seed] *)
Definition call_all_circuits_with_seed (cmd : loc) (seed : Z) : CM unit :=
  update_self (set_command cmd) ;;;
  c <~ self ;;
  for_each (circuits c) (run_circuit cmd seed).

(** The first loop of [call_all_circuits]. *)
Definition init_metric (circuit metric : string) : CM unit :=
  r <~ self_results ;;
  by_metric <~ lift (getitem r circuit) ;;
  update_self (set_results (<[circuit := <[metric := []]> by_metric]> r)).

Definition init_circuit (circuit : string) : CM unit :=
  r <~ self_results ;;
  update_self (set_results (<[circuit := ∅]> r)) ;;;
  c <~ self ;;
  for_each (metrics c) (init_metric circuit).

(** [[random.randrange(2**31 - 1) for i in range(n)]] *)
Definition draw_seeds (num_random_seeds : Z) : M world (list Z) :=
  comprehension (seq 0 (Z.to_nat num_random_seeds))
                (fun _ => random_randrange (2 ^ 31 - 1)).

(** [Caller.call_all_circuits] up to the assignment of [self.seeds]. *)
Definition prepare_batch (num_random_seeds : Z) : CM unit :=
  update_self (set_results ∅) ;;;
  c <~ self ;;
  for_each (circuits c) init_circuit ;;;
  in_world (random_seed 1) ;;;
  l <~ in_world (draw_seeds num_random_seeds) ;;
  update_self (set_seeds l).

(** [Caller.call_all_circuits] *)
Definition call_all_circuits (cmd : loc) (num_random_seeds : Z) : CM unit :=
  prepare_batch num_random_seeds ;;;
  l <~ self_seeds ;;
  for_each l (call_all_circuits_with_seed cmd).

(** *** Reading a caller *)

(** [Caller.get_command] *)
Definition get_command (c : caller) (w : world) : outcome string :=
  match command c with
  | None => Raised (AttributeError "command")
  | Some l =>
      match w_heap w !! l with
      | Some toks => Done (join " " toks)
      | None => Raised (AttributeError "list")
      end
  end.

(** [Caller.get_metrics] *)
Definition get_metrics (c : caller) : list string := metrics c.

(** [Caller.get_seeds] *)
Definition get_seeds (c : caller) : outcome (list Z) :=
  match seeds c with
  | Some l => Done l
  | None => Raised (AttributeError "seeds")
  end.

Definition get_results_attr (c : caller)
  : outcome (gmap string (gmap string (list R))) :=
  match results c with
  | Some r => Done r
  | None => Raised (AttributeError "results")
  end.

(** [self.results[circuit][metric]] *)
Definition samples_of (c : caller) (circuit metric : string) : outcome (list R) :=
  obind (get_results_attr c) (fun r =>
  obind (getitem r circuit) (fun by_metric =>
  getitem by_metric metric)).

(** The loop of [get_geomean]: [metric_results += ...] per circuit. *)
Fixpoint pool (c : caller) (metric : string) (todo : list string)
    (metric_results : list R) : outcome (list R) :=
  match todo with
  | [] => Done metric_results
  | circuit :: todo' =>
      obind (samples_of c circuit metric) (fun l =>
      pool c metric todo' (metric_results ++ l))
  end.

(** [Caller.get_geomean] *)
Definition get_geomean (c : caller) (metric : string) : outcome R :=
  obind (pool c metric (circuits c) []) (fun metric_results =>
  Done (gmean metric_results)).

(** [Caller.get_geomeans] *)
Definition get_geomeans (c : caller) : outcome (list R) :=
  omap (get_geomean c) (metrics c).

(** [sorted(keys)] on strings *)
Definition str_le (a b : string) : Prop := String.leb a b.

Definition sorted (keys : list string) : list string := merge_sort str_le keys.

(** The global name [geomean], looked up when the call is evaluated. *)
Definition global_geomean (g : globals) : outcome (list R -> R) :=
  match g_geomean g with
  | Some f => Done f
  | None => Raised (NameError "geomean")
  end.

(** The row of one circuit in [get_results]. *)
Definition circuit_row (g : globals) (c : caller) (circuit : string)
  : outcome table_row :=
  obind (omap (fun metric =>
                 obind (global_geomean g) (fun geomean =>
                 obind (samples_of c circuit metric) (fun l =>
                 Done (CNum (geomean l)))))
              (metrics c)) (fun cells =>
  Done (RowList (CStr circuit :: cells))).

(** [Caller.get_results] *)
Definition get_results (g : globals) (c : caller) (w : world)
  : outcome (list table_row) :=
  obind (get_command c w) (fun cmd =>
  let header := RowList ([CStr "benchmark"] ++ map CStr (metrics c) ++ [CStr cmd]) in
  obind (get_results_attr c) (fun r =>
  obind (omap (circuit_row g c) (sorted (map_to_list r).*1)) (fun rows =>
  Done (header :: rows)))).

(** The rows [Caller.save_results] hands to the writer: the table of
    [get_results], an empty row, and the row of pooled geometric means. *)
Definition Caller_rows (g : globals) (c : caller) (w : world)
  : outcome (list table_row) :=
  obind (get_results g c w) (fun rows =>
  let rows := rows ++ [RowList []] in
  obind (get_geomeans c) (fun gms =>
  Done (rows ++ [RowList ([CStr "geomeans"] ++ map CNum gms)]))).

(** [Caller.save_results] *)
Definition Caller_save_results (g : globals) (filename : string) : CM unit :=
  fun '(c, w) =>
    match Caller_rows g c w with
    | Done rows => in_world (write_rows filename rows) (c, w)
    | Raised e => (Raised e, (c, w))
    end.

(** *** PlaceCaller *)

(** [PlaceCaller.build_command] *)
Definition build_command (arch circuit : string) (options : list string)
  : list string :=
  ["java"; "-cp"; "bin"; "interfaces.CLI"; arch; circuit;
   "--output_place_file"; "tmp/{circuit}.place";
   "--random_seed"; "{seed}"] ++ options.

(** [PlaceCaller.place_all] *)
Definition place_all (options : list string) (num_random_seeds : Z) : CM unit :=
  c <~ self ;;
  cmd <~ in_world (new_list (build_command (architecture c) (circuit_path c) options)) ;;
  call_all_circuits cmd num_random_seeds ;;;
  in_world (shutil_rmtree "tmp").

(** *** ParameterSweeper *)

Record sweeper := {
  sw_architecture : string;
  sw_circuits_folder : string;
  sw_circuits : string;
  option_sets : option (list (list string));
  callers : option (list caller);
}.

(** [ParameterSweeper.__init__] *)
Definition ParameterSweeper (arch circuits_folder circuit_names : string) : sweeper :=
  {| sw_architecture := arch; sw_circuits_folder := circuits_folder;
     sw_circuits := circuit_names; option_sets := None; callers := None |}.

Definition set_option_sets (l : list (list string)) (sw : sweeper) : sweeper :=
  {| sw_architecture := sw_architecture sw; sw_circuits_folder := sw_circuits_folder sw;
     sw_circuits := sw_circuits sw; option_sets := Some l; callers := callers sw |}.

Definition set_callers (l : list caller) (sw : sweeper) : sweeper :=
  {| sw_architecture := sw_architecture sw; sw_circuits_folder := sw_circuits_folder sw;
     sw_circuits := sw_circuits sw; option_sets := option_sets sw; callers := Some l |}.

Local Abbreviation SM := (M (sweeper * world)).

Definition this : SM sweeper := fun s => (Done s.1, s).

Definition update_this (f : sweeper -> sweeper) : SM unit :=
  fun '(sw, w) => (Done tt, (f sw, w)).

Definition this_option_sets : SM (list (list string)) :=
  sw <~ this ;;
  match option_sets sw with
  | Some l => ret l
  | None => raise (AttributeError "option_sets")
  end.

Definition this_callers : SM (list caller) :=
  sw <~ this ;;
  match callers sw with
  | Some l => ret l
  | None => raise (AttributeError "callers")
  end.

(** A method call on a caller held in a local variable: the world is
    shared, and the object comes back only when the call returns. *)
Definition on_caller {A} (c : caller) (m : CM A) : SM (A * caller) :=
  fun '(sw, w) =>
    match m (c, w) with
    | (Done a, (c', w')) => (Done (a, c'), (sw, w'))
    | (Raised e, (_, w')) => (Raised e, (sw, w'))
    end.

(** [itertools.product] applied to the pools, after the equivalent code
    in the Python documentation: [result = [x+[y] for x in result for y in pool]] for
    each pool in turn. *)
Definition product_step {A} (result : list (list A)) (pool : list A) : list (list A) :=
  flat_map (fun x => map (fun y => x ++ [y]) pool) result.

Definition product {A} (pools : list (list A)) : list (list A) :=
  fold_left product_step pools [[]].

(** The inner loop of [build_option_sets]:
    [option_set += [option_names[i], str(option_value[i])]]. *)
Definition option_set_step (option_names : keys_object) (option_value : list pyval)
    (acc : outcome (list string)) (i : nat) : outcome (list string) :=
  obind acc (fun option_set =>
  obind (keys_get option_names i) (fun name =>
  match option_value !! i with
  | None => Raised IndexError
  | Some v => Done (option_set ++ [name; str v])
  end)).

Definition make_option_set (option_names : keys_object) (option_value : list pyval)
  : outcome (list string) :=
  fold_left (option_set_step option_names option_value)
            (seq 0 (keys_len option_names)) (Done []).

(** The body of the outer loop of [build_option_sets]. *)
Definition add_option_set (option_names : keys_object) (option_value : list pyval)
  : SM unit :=
  option_set <~ lift (make_option_set option_names option_value) ;;
  l <~ this_option_sets ;;
  update_this (set_option_sets (l ++ [option_set])).

(** [ParameterSweeper.build_option_sets] *)
Definition build_option_sets (option_ranges : mapping) : SM unit :=
  update_this (set_option_sets []) ;;;
  let option_names := keys option_ranges in
  let option_values := product (values option_ranges) in
  update_this (set_option_sets []) ;;;
  for_each option_values (add_option_set option_names).

(** The body of the loop of [sweep]. *)
Definition sweep_one (fixed_options : list string) (num_random_seeds : Z)
    (option_set : list string) : SM unit :=
  let options := fixed_options ++ option_set in
  sw <~ this ;;
  let c := PlaceCaller (sw_architecture sw) (sw_circuits_folder sw) (sw_circuits sw) in
  r <~ on_caller c (place_all options num_random_seeds) ;;
  l <~ this_callers ;;
  update_this (set_callers (l ++ [r.2])).

(** [ParameterSweeper.sweep] *)
Definition sweep (fixed_options : list string)
    (variable_options : mapping) (num_random_seeds : Z) : SM unit :=
  build_option_sets variable_options ;;;
  update_this (set_callers []) ;;;
  l <~ this_option_sets ;;
  for_each l (sweep_one fixed_options num_random_seeds).

(** A data row of [get_pareto_table]. *)
Definition pareto_row (cs : list caller) (metric : string) (i : nat)
  : outcome table_row :=
  match cs !! i with
  | None => Raised IndexError
  | Some c =>
      obind (get_geomean c "runtime") (fun runtime =>
      let row := [CNum runtime] in
      let row := row ++ replicate i (CStr "") in
      obind (get_geomean c metric) (fun quality =>
      Done (RowList (row ++ [CNum quality]))))
  end.

(** The loop of [get_pareto_table], over the indices still to do. *)
Fixpoint pareto_loop (cs : list caller) (metric : string) (todo : list nat)
    (rows : list table_row) : outcome (list table_row) :=
  match todo with
  | [] => Done rows
  | i :: todo' =>
      obind (pareto_row cs metric i) (fun row =>
      pareto_loop cs metric todo' (rows ++ [row]))
  end.

(** [ParameterSweeper.get_pareto_table] *)
Definition get_pareto_table (sw : sweeper) (metric : string)
  : outcome (list table_row) :=
  match option_sets sw with
  | None => Raised (AttributeError "option_sets")
  | Some sets =>
      let rows := [RowList ([CStr metric] ++ map (fun o => CStr (join " " o)) sets)] in
      match callers sw with
      | None => Raised (AttributeError "callers")
      | Some cs => pareto_loop cs metric (seq 0 (length cs)) rows
      end
  end.

(** The loop of [save_results]: [rows += caller.get_results()] and
    [rows.append([])] for each caller. *)
Fixpoint tables_loop (g : globals) (w : world) (todo : list caller)
    (rows : list table_row) : outcome (list table_row) :=
  match todo with
  | [] => Done rows
  | c :: todo' =>
      obind (get_results g c w) (fun t =>
      tables_loop g w todo' ((rows ++ t) ++ [RowList []]))
  end.

(** The rows [ParameterSweeper.save_results] hands to the writer. *)
Definition report_rows (g : globals) (sw : sweeper) (w : world)
  : outcome (list table_row) :=
  match callers sw with
  | None => Raised (AttributeError "callers")
  | Some cs =>
      match cs !! 0%nat with
      | None => Raised IndexError
      | Some c0 =>
          obind (get_seeds c0) (fun l =>
          let seeds_string := join ", " (map str_int l) in
          let rows := [RowList [CStr ("Random seeds: " +:+ seeds_string)]] in
          obind (get_pareto_table sw "BB cost") (fun t1 =>
          let rows := (rows ++ t1) ++ [RowList []] in
          obind (get_pareto_table sw "max delay") (fun t2 =>
          let rows := (rows ++ t2) ++ replicate 2 (RowStr "") in
          tables_loop g w cs rows)))
      end
  end.

(** [ParameterSweeper.save_results] *)
Definition save_results (g : globals) (filename : string) : SM unit :=
  fun '(sw, w) =>
    match report_rows g sw w with
    | Done rows =>
        let '(r, w') := write_rows filename rows w in (r, (sw, w'))
    | Raised e => (Raised e, (sw, w))
    end.

End Methods.

(** ** A small platform to run the methods on

    The tool is scripted: its k-th execution answers with the k-th entry of
    a list of (stdout, stderr) pairs, and creates its scratch directory
    when [makes_tmp] is set.  The pattern engine splits the text at spaces
    and matches when there are exactly three fields, which it binds to the
    three groups of [PlaceCaller_stats_regex].  [float] reads unsigned
    decimal integers.  The generator is a linear congruential one. *)

Fixpoint digits_value (s : string) (acc : Z) : option Z :=
  match s with
  | EmptyString => Some acc
  | String a s' =>
      let n := Z.of_nat (nat_of_ascii a) in
      if (48 <=? n)%Z && (n <=? 57)%Z then digits_value s' (10 * acc + (n - 48))
      else None
  end.

Definition demo_float (s : string) : option R :=
  match s with
  | EmptyString => None
  | _ => IZR <$> digits_value s 0
  end.

Definition demo_search (pattern text : string) : option (string -> option string) :=
  match split " " text with
  | [a; b; c] =>
      Some (fun name =>
              if decide (name = "runtime") then Some a
              else if decide (name = "bb_cost") then Some b
              else if decide (name = "max_delay") then Some c
              else None)
  | _ => None
  end.

Definition demo_tool (makes_tmp : bool) (script : list (string * string))
    (history : list call) (args : list string) (fs : gmap string node)
  : (string * string) * gmap string node :=
  (default ("", "tool ran out of script") (script !! length history),
   if makes_tmp then <["tmp" := Dir]> fs else fs).

Definition demo (makes_tmp : bool) (script : list (string * string)) : platform :=
  {| rng_state := Z;
     rng_seed := fun a => a;
     rng_randrange := fun n st =>
       let st' := ((st * 1103515245 + 12345) mod 2 ^ 31)%Z in ((st' mod n)%Z, st');
     re_search := demo_search;
     py_float := demo_float;
     tool := demo_tool makes_tmp script |}.

(** A fresh process: nothing allocated, printed, or run. *)
Definition world0 (P : platform) (fs : gmap string node) : world P :=
  {| w_heap := ∅; w_stdout := []; w_rng := rng_seed P 0; w_fs := fs;
     w_calls := []; w_reports := [] |}.

(** ** Specification-level definitions and sample inputs *)

(** The values that [n] successive calls of [random.randrange(2**31 - 1)]
    return from generator state [st]. *)
Fixpoint draws (P : platform) (n : nat) (st : rng_state P) : list Z :=
  match n with
  | O => []
  | S n' => let '(x, st') := rng_randrange P (2 ^ 31 - 1) st in x :: draws P n' st'
  end.

(** The generator state after these calls. *)
Fixpoint after_draws (P : platform) (n : nat) (st : rng_state P) : rng_state P :=
  match n with
  | O => st
  | S n' => after_draws P n' (rng_randrange P (2 ^ 31 - 1) st).2
  end.

(** The seed sequence of a batch of [num_random_seeds] seeds: what the
    generator gives after [random.seed(1)].  It depends on nothing else. *)
Definition seed_sequence (P : platform) (num_random_seeds : Z) : list Z :=
  draws P (Z.to_nat num_random_seeds) (rng_seed P 1).

(** The attributes of a caller that its constructor fixes. *)
Definition same_config (c c' : caller) : Prop :=
  circuits c' = circuits c /\ metrics c' = metrics c /\
  stats_regex c' = stats_regex c /\ architecture c' = architecture c /\
  circuit_path c' = circuit_path c.

(** A populated accumulator: a sample list for every circuit and metric. *)
Definition populated (c : caller) : Prop :=
  exists r, results c = Some r /\
    forall circuit metric, circuit ∈ circuits c -> metric ∈ metrics c ->
      exists by_metric l, r !! circuit = Some by_metric /\ by_metric !! metric = Some l.

(** The part of [call_all_circuits] that comes before the invocation for
    [circuit] under [seed]: the preparation, the whole passes for the seeds
    [seeds_before], and in the pass for [seed] the circuits
    [circuits_before]. *)
Definition batch_before {P : platform} (cmd : loc) (num_random_seeds : Z)
    (seeds_before : list Z) (seed : Z) (circuits_before : list string)
  : M (caller * world P) unit :=
  prepare_batch num_random_seeds ;;;
  for_each seeds_before (call_all_circuits_with_seed cmd) ;;;
  update_self (set_command cmd) ;;;
  for_each circuits_before (run_circuit cmd seed).

(** The arithmetic mean of the per-circuit geometric means. *)
Definition mean_of_geomeans (per_circuit : list (list R)) : R :=
  mean (map gmean per_circuit).

(** An invariant of the caller object alone. *)
Definition on_self {P : platform} (J : caller -> Prop) : caller * world P -> Prop :=
  fun s => J s.1.

(** What a run keeps of a caller: its configuration, a given seed list,
    and a sample list for every circuit and metric. *)
Definition batch_inv (c0 : caller) (l : list Z) (c : caller) : Prop :=
  same_config c0 c /\ seeds c = Some l /\ populated c.

(** What a sweep keeps of its sweeper: the constructor's arguments, the
    option sets, and callers that were each run on the seed sequence. *)
Definition sweep_inv (P : platform) (sw0 : sweeper) (sets : list (list string))
    (N : Z) (sw : sweeper) : Prop :=
  sw_architecture sw = sw_architecture sw0 /\
  sw_circuits_folder sw = sw_circuits_folder sw0 /\
  sw_circuits sw = sw_circuits sw0 /\
  option_sets sw = Some sets /\
  exists cs, callers sw = Some cs /\
    Forall (batch_inv (PlaceCaller (sw_architecture sw0) (sw_circuits_folder sw0)
                                   (sw_circuits sw0))
                      (seed_sequence P N)) cs.

(** The world after the invocation for [circuit] under [seed], the
    progress line printed before it, and the lines of a diagnostic. *)
Definition world_after_failure {P : platform} (w1 : world P) (toks : list string)
    (circuit : string) (seed : Z) (out err : string) (fs' : gmap string node)
    (diagnostic : list string) : world P :=
  {| w_heap := <[fresh (dom (w_heap w1)) := map (substitute circuit seed) toks]>
                 (w_heap w1);
     w_stdout := w_stdout w1 ++ ["  " +:+ circuit] ++ diagnostic;
     w_rng := w_rng w1;
     w_fs := fs';
     w_calls := w_calls w1 ++ [{| argv := map (substitute circuit seed) toks;
                                  out_text := out; err_text := err |}];
     w_reports := w_reports w1 |}.




(** What one invocation does to the world. *)
Definition after_call {P : platform} (cmd : loc) (toks : list string) (circuit : string)
    (seed : Z) (w : world P) : (string * string) * world P :=
  let args := map (substitute circuit seed) toks in
  let '((out, err), fs') := tool P (w_calls w) args (w_fs w) in
  ((out, err),
   {| w_heap := <[fresh (dom (w_heap w)) := args]> (w_heap w);
      w_stdout := w_stdout w; w_rng := w_rng w; w_fs := fs';
      w_calls := w_calls w ++ [{| argv := args; out_text := out; err_text := err |}];
      w_reports := w_reports w |}).

(** A computation keeps an invariant of the state, however it ends. *)
Definition Preserves {S A} (I : S -> Prop) (m : M S A) : Prop :=
  forall s r s', I s -> m s = (r, s') -> I s'.

(** Following the specification's words: the cartesian product of the
    ranges, the last-declared option varying fastest, each combination
    written as the flat list name, value, name, value, ... with the names
    in declaration order. *)
Fixpoint spec_option_sets (ranges : list (string * list pyval)) : list (list string) :=
  match ranges with
  | [] => [[]]
  | (name, values) :: rest =>
      flat_map (fun v => map (fun tail => name :: str v :: tail) (spec_option_sets rest))
               values
  end.

(** The product with the first pool varying slowest. *)
Fixpoint cartesian {A} (pools : list (list A)) : list (list A) :=
  match pools with
  | [] => [[]]
  | pool :: rest => flat_map (fun y => map (cons y) (cartesian rest)) pool
  end.

(** One option set: the names paired with the rendered values. *)
Fixpoint pair_up (names : list string) (value : list pyval) : list string :=
  match names, value with
  | n :: names', v :: value' => n :: str v :: pair_up names' value'
  | _, _ => []
  end.

Definition demo_template : list string :=
  ["java"; "{circuit}.blif"; "tmp/{circuit}.{seed}"; "{seed}"].

Definition demo_heap_world : world (demo true []) :=
  set_heap {[ 1%positive := demo_template ]} (world0 (demo true []) ∅).

(** Two circuits and two seeds; the tool reports a BB cost of 1 and 4 for
    [alu] and of 1 and 1 for [fft]. *)
Definition demo_uneven : platform :=
  demo true [("1 1 1", ""); ("1 1 1", ""); ("1 4 1", ""); ("1 1 1", "")].

Definition demo_caller : caller := PlaceCaller "arch" "bench" "alu fft".

(** A world whose only list object is the command of [demo_caller]. *)
Definition demo_command_world (P : platform) : world P :=
  set_heap {[ 1%positive := build_command "arch" "bench/{circuit}.blif" [] ]}
           (world0 P ∅).

Definition demo_batch :=
  call_all_circuits 1%positive 2 (demo_caller, demo_command_world demo_uneven).

(** A tool that always reports the same three metrics. *)
Definition demo_steady : platform :=
  demo true (replicate 8 ("3 5 7", "")).

(** Two batches on that platform: the second has other circuits and a
    generator left in some other state by earlier use. *)
Definition demo_steady_batch :=
  call_all_circuits 1%positive 2 (demo_caller, demo_command_world demo_steady).


(** A sweep over two values of one option, two circuits and two seeds. *)
Definition demo_sweeper : sweeper := ParameterSweeper "arch" "bench" "alu fft".

(** The ranges of that option, in a mapping whose [keys()] is a list. *)
Definition demo_ranges : mapping :=
  {| items := [("--alpha", [PInt 1; PInt 2])]; keys_indexable := true |}.

Definition demo_sweep :=
  sweep ["--effort"; "2"] demo_ranges 2 (demo_sweeper, world0 demo_steady ∅).

(** The second invocation writes to stderr. *)
Definition demo_failing : platform :=
  demo true [("3 5 7", ""); ("", "java.lang.OutOfMemoryError")].

(** The second invocation prints something the pattern does not match. *)
Definition demo_garbled : platform :=
  demo true [("3 5 7", ""); ("placement did not converge", "")].

(** The batch of [demo_caller] up to the invocation for [fft] under the
    first seed. *)
Definition demo_before (P : platform) :=
  batch_before 1%positive 2 [] 1103527590 ["alu"] (demo_caller, demo_command_world P).

(** The ranges [a: [1,2]] and [b: [x,y]] held in two mappings that iterate
    [a] first: one whose [keys()] is a list, and one whose [keys()] is a
    view, as that of a Python 3 dict. *)
Definition demo_ab : list (string * list pyval) :=
  [("a", [PInt 1; PInt 2]); ("b", [PStr "x"; PStr "y"])].

Definition demo_ab_list : mapping := {| items := demo_ab; keys_indexable := true |}.

Definition demo_ab_view : mapping := {| items := demo_ab; keys_indexable := false |}.

(** The same ranges declared the other way round.  A mapping that does
    not keep the order of declaration, as a Python 2 dict, may hold them
    and iterate [a] first: [demo_ab_list] is then that mapping. *)
Definition demo_ba_declared : list (string * list pyval) :=
  [("b", [PStr "x"; PStr "y"]); ("a", [PInt 1; PInt 2])].

(** The namespace the script would have if [geomean] were bound to the
    geometric mean, as in [from scipy.stats import gmean as geomean]. *)
Definition patched_globals : globals := {| g_geomean := Some gmean |}.

(** A batch with no seeds in a directory that has no [tmp]. *)
Definition demo_idle : platform := demo false [].

(** ** Further definitions for the properties of the remaining code *)

(** Does character [a] occur in [s]? *)
Fixpoint has_char (a : ascii) (s : string) : bool :=
  match s with
  | EmptyString => false
  | String b s' => bool_decide (a = b) || has_char a s'
  end.

(** Text without an opening brace: it holds no placeholder and no start of
    one. *)
Definition brace_free (s : string) : Prop := has_char "{"%char s = false.

(** A command token seen as a sequence of literal text and placeholders. *)
Inductive piece :=
  | Text (s : string)
  | CircuitHole
  | SeedHole.

(** The token as written in the template. *)
Fixpoint template_text (ps : list piece) : string :=
  match ps with
  | [] => ""
  | Text s :: ps' => s +:+ template_text ps'
  | CircuitHole :: ps' => "{circuit}" +:+ template_text ps'
  | SeedHole :: ps' => "{seed}" +:+ template_text ps'
  end.

(** The token with every placeholder filled in. *)
Fixpoint filled_text (circuit : string) (seed : Z) (ps : list piece) : string :=
  match ps with
  | [] => ""
  | Text s :: ps' => s +:+ filled_text circuit seed ps'
  | CircuitHole :: ps' => circuit +:+ filled_text circuit seed ps'
  | SeedHole :: ps' => str_int seed +:+ filled_text circuit seed ps'
  end.

Definition text_brace_free (p : piece) : Prop :=
  match p with
  | Text s => brace_free s
  | _ => True
  end.

(** The number of occurrences of character [a] in [s]. *)
Fixpoint count_char (a : ascii) (s : string) : nat :=
  match s with
  | EmptyString => 0
  | String b s' => (if decide (b = a) then 1 else 0) + count_char a s'
  end.

(** The table [call_all_circuits] starts from: an empty sample list for
    every metric, under every circuit; built as the loops build it. *)
Definition empty_lists (ms : list string) : gmap string (list R) :=
  foldl (fun by_metric m => <[m := []]> by_metric) ∅ ms.

Definition empty_table (cs ms : list string) : gmap string (gmap string (list R)) :=
  foldl (fun r circuit => <[circuit := empty_lists ms]> r) ∅ cs.

(** How often a name is listed. *)
Definition occurrences (x : string) (l : list string) : nat :=
  length (filter (fun y => y = x) l).

(** The number of samples held for a circuit and metric. *)
Definition sample_count (c : caller) (circuit metric : string) : nat :=
  match samples_of c circuit metric with
  | Done l => length l
  | Raised _ => 0
  end.

(** The keys of the table are the circuits, and under each circuit the
    metrics. *)
Definition keyed (c : caller) : Prop :=
  exists r, results c = Some r /\
    (forall circuit, is_Some (r !! circuit) <-> circuit ∈ circuits c) /\
    (forall circuit by_metric, r !! circuit = Some by_metric ->
       forall metric, is_Some (by_metric !! metric) <-> metric ∈ metrics c).

(** What a method other than the constructor leaves of a caller when it
    only records samples. *)
Definition same_but_results (c c' : caller) : Prop :=
  same_config c c' /\ seeds c' = seeds c /\ command c' = command c.

(** What the world shows of the invocations [invs], each a seed and a
    circuit, made on the command tokens [toks] between [w] and [w']: every
    list object of [w] is intact, the tool was run once per invocation on
    the substituted tokens and wrote nothing to stderr, one progress line
    was printed per invocation, and the generator and the reports are
    untouched. *)
Definition invoked {P : platform} (toks : list string) (w w' : world P)
    (invs : list (Z * string)) : Prop :=
  (forall l ts, w_heap w !! l = Some ts -> w_heap w' !! l = Some ts) /\
  (exists new, w_calls w' = w_calls w ++ new /\
     map argv new = map (fun inv => map (substitute inv.2 inv.1) toks) invs /\
     Forall (fun k => err_text k = "") new) /\
  w_stdout w' = w_stdout w ++ map (fun inv => "  " +:+ inv.2) invs /\
  w_rng w' = w_rng w /\
  w_reports w' = w_reports w.

(** The invocations of a whole batch: for each seed in turn, every
    circuit in turn. *)
Definition batch_invocations (seed_list : list Z) (cs : list string)
  : list (Z * string) :=
  flat_map (fun seed => map (fun circuit => (seed, circuit)) cs) seed_list.

(** The number of combinations of one value per range. *)
Definition combinations (ranges : list (string * list pyval)) : nat :=
  foldr (fun range n => length range.2 * n) 1 ranges.

(** The part of [sweep] that comes before the configuration of an option
    set: the option sets are built, the caller list is emptied, and the
    configurations of the option sets [sets_before] are run. *)
Definition sweep_before {P : platform} (fixed_options : list string)
    (variable_options : mapping) (num_random_seeds : Z)
    (sets_before : list (list string)) : M (sweeper * world P) unit :=
  build_option_sets variable_options ;;;
  update_this (set_callers []) ;;;
  for_each sets_before (sweep_one fixed_options num_random_seeds).

(** The tool fails on its fifth run: the first configuration of a sweep
    over two circuits and two seeds completes, the second does not. *)
Definition demo_second_fails : platform :=
  demo true (replicate 4 ("3 5 7", "") ++ [("", "Exception in thread main")]).

(** The command tokens of the configuration of an option set. *)
Definition sweep_command (sw : sweeper) (fixed_options option_set : list string)
  : list string :=
  build_command (sw_architecture sw)
                (path_join (sw_circuits_folder sw) "{circuit}.blif")
                (fixed_options ++ option_set).

(** The sweep of [demo_sweep] on the platform whose fifth run fails, up to
    its second configuration, and that configuration's run. *)
Definition demo_failing_sweep_before :=
  sweep_before (P:=demo_second_fails) ["--effort"; "2"]
    demo_ranges 2 [["--alpha"; "1"]]
    (demo_sweeper, world0 demo_second_fails ∅).

Definition demo_failing_configuration :=
  place_all (["--effort"; "2"] ++ ["--alpha"; "2"]) 2
    (PlaceCaller "arch" "bench" "alu fft", demo_failing_sweep_before.2.2).

(** The capture group of a metric: its name in lower case, spaces
    replaced by underscores. *)
Definition group_name (metric : string) : string := replace " " "_" (lower metric).

(** The tool prints a BB cost that is not a number. *)
Definition demo_malformed : platform := demo true [("3 fast 7", "")].

(** * Properties *)

(** ** The model on small inputs *)

Example replace_ex :
  substitute "alu" 7 "tmp/{circuit}.{seed}.{circuit}" = "tmp/alu.7.alu".
Proof. reflexivity. Qed.

Example split_ex : split " " "a bb  c" = ["a"; "bb"; ""; "c"].
Proof. reflexivity. Qed.

Example str_ex :
  str (PInt 120) = "120" /\ str (PInt (-3)) = "-3" /\
  replace " " "_" (lower "BB cost") = "bb_cost".
Proof. vm_compute. auto. Qed.

Example product_ex :
  product [[1; 2]; [3; 4]]%Z = [[1; 3]; [1; 4]; [2; 3]; [2; 4]]%Z.
Proof. reflexivity. Qed.

Example keys_ex :
  keys_get (keys demo_ab_list) 1 = Done "b" /\
  keys_get (keys demo_ab_view) 1 = Raised TypeError /\
  keys_len (keys demo_ab_view) = 2%nat /\
  make_option_set (keys demo_ab_list) [PInt 2; PStr "y"] = Done ["a"; "2"; "b"; "y"] /\
  make_option_set (keys demo_ab_view) [PInt 2; PStr "y"] = Raised TypeError.
Proof. repeat split; reflexivity. Qed.

Example os_remove_ex :
  let fs : gmap string node := {[ "notes" := File; "tmp" := Dir ]} in
  (os_remove "notes" (world0 demo_idle fs)).1 = Done tt /\
  (os_remove "notes/old" (world0 demo_idle fs)).1 = Raised (OSError ENOTDIR) /\
  (os_remove "tmp" (world0 demo_idle fs)).1 = Raised (OSError EISDIR) /\
  (os_remove "tmp/alu.place" (world0 demo_idle fs)).1 = Raised (OSError ENOENT) /\
  (silentremove "notes/old" (world0 demo_idle fs)).1 = Raised (OSError ENOTDIR) /\
  (silentremove "tmp/alu.place" (world0 demo_idle fs)).1 = Done tt.
Proof. repeat split; vm_compute; reflexivity. Qed.

Example PlaceCaller_ex :
  circuits (PlaceCaller "arch" "bench" "alu fft") = ["alu"; "fft"] /\
  circuit_path (PlaceCaller "arch" "bench" "alu fft") = "bench/{circuit}.blif".
Proof. vm_compute. auto. Qed.

Example demo_sweep_ex :
  demo_sweep.1 = Done tt /\
  option_sets demo_sweep.2.1
    = Some [["--alpha"; "1"]; ["--alpha"; "2"]] /\
  length (w_calls demo_sweep.2.2) = 8%nat /\
  argv <$> head (w_calls demo_sweep.2.2)
    = Some ["java"; "-cp"; "bin"; "interfaces.CLI"; "arch"; "bench/alu.blif";
            "--output_place_file"; "tmp/alu.place"; "--random_seed"; "1103527590";
            "--effort"; "2"; "--alpha"; "1"] /\
  w_fs demo_sweep.2.2 !! "tmp" = None.
Proof. repeat split; vm_compute; reflexivity. Qed.

(** ** Loops *)

Lemma for_each_app {S A} (xs ys : list A) (body : A -> M S unit) (s : S) :
  for_each (xs ++ ys) body s =
  match for_each xs body s with
  | (Done _, s') => for_each ys body s'
  | (Raised e, s') => (Raised e, s')
  end.
Proof.
  revert s. induction xs as [|x xs IH]; intros s; simpl; [done|].
  unfold bind. destruct (body x s) as [[[]|e] s1]; [apply IH | done].
Qed.

(** A loop whose body keeps an invariant keeps it, however it ends. *)
Lemma for_each_preserves {S A} (I : S -> Prop) (xs : list A) (body : A -> M S unit) :
  (forall x s r s', I s -> body x s = (r, s') -> I s') ->
  forall s r s', I s -> for_each xs body s = (r, s') -> I s'.
Proof.
  intros Hbody. induction xs as [|x xs IH]; intros s r s' Hs; simpl.
  - unfold ret. intros [= <- <-]. exact Hs.
  - unfold bind. destruct (body x s) as [[[]|e] s1] eqn:E.
    + apply IH. eapply Hbody; eauto.
    + intros [= <- <-]. eapply Hbody; eauto.
Qed.

(** A loop whose body always returns runs to its end. *)
Lemma for_each_total {S A} (I : list A -> S -> Prop) (xs : list A)
    (body : A -> M S unit) (s : S) :
  I [] s ->
  (forall pre x s1, I pre s1 -> exists s2, body x s1 = (Done tt, s2) /\ I (pre ++ [x]) s2) ->
  exists s', for_each xs body s = (Done tt, s') /\ I xs s'.
Proof.
  intros H0 Hbody.
  assert (G : forall pre s1, I pre s1 ->
            exists s', for_each xs body s1 = (Done tt, s') /\ I (pre ++ xs) s').
  { induction xs as [|x xs IH]; intros pre s1 Hpre; simpl.
    - exists s1. rewrite app_nil_r. done.
    - destruct (Hbody pre x s1 Hpre) as (s2 & E & H2).
      unfold bind. rewrite E.
      destruct (IH (pre ++ [x]) s2 H2) as (s' & E' & H').
      exists s'. rewrite <- app_assoc in H'. done. }
  apply (G [] s H0).
Qed.

(** A run written out as its outcome and its final state. *)
Lemma run_eta {A B C} (x : A * (B * C)) (a : A) :
  x.1 = a -> x = (a, (x.2.1, x.2.2)).
Proof. destruct x as [? [? ?]]. simpl. by intros ->. Qed.

Lemma run_parts {A B C} (x : A * (B * C)) : x = (x.1, (x.2.1, x.2.2)).
Proof. by apply run_eta. Qed.

(** ** The command template is not modified (call_circuit) *)

Section Frame.
Context {P : platform}.

(** One pass of the substitution loop rewrites the token at its index. *)
Lemma substitute_at_runs (l : loc) (circuit : string) (seed : Z)
    (done_ rest : list string) (t : string) (w : world P) :
  w_heap w !! l = Some (done_ ++ t :: rest) ->
  substitute_at l circuit seed (length done_) w
  = (Done tt,
     set_heap (<[l := (done_ ++ [substitute circuit seed t]) ++ rest]> (w_heap w)) w).
Proof.
  intros Hl. unfold substitute_at, list_get, list_set, read_list, bind.
  rewrite Hl. rewrite list_lookup_middle by done. unfold ret. rewrite Hl.
  destruct (decide _) as [_|Hn].
  2:{ exfalso. apply Hn. rewrite length_app. simpl. lia. }
  unfold modify. do 3 f_equal.
  rewrite <- app_assoc. simpl.
  rewrite insert_app_r_alt by lia. by rewrite Nat.sub_diag.
Qed.

(** The substitution loop rewrites the copy token by token. *)
Lemma substitute_loop (l : loc) (circuit : string) (seed : Z) (rest : list string) :
  forall (done_ : list string) (w : world P),
    w_heap w !! l = Some (done_ ++ rest) ->
    for_each (seq (length done_) (length rest)) (substitute_at l circuit seed) w
    = (Done tt,
       set_heap (<[l := done_ ++ map (substitute circuit seed) rest]> (w_heap w)) w).
Proof.
  induction rest as [|t rest IH]; intros done_ w Hl.
  - simpl. unfold ret. f_equal. destruct w; unfold set_heap; simpl in *.
    f_equal. symmetry. by apply insert_id.
  - simpl for_each. unfold bind.
    rewrite (substitute_at_runs _ _ _ _ _ _ _ Hl).
    specialize (IH (done_ ++ [substitute circuit seed t])
                   (set_heap (<[l := (done_ ++ [substitute circuit seed t]) ++ rest]>
                                (w_heap w)) w)).
    rewrite length_app in IH. simpl in IH.
    replace (length done_ + 1)%nat with (S (length done_)) in IH by lia.
    rewrite IH by (simpl; apply lookup_insert_eq).
    f_equal. unfold set_heap. simpl. f_equal.
    rewrite insert_insert_eq. by rewrite <- app_assoc.
Qed.

Lemma call_circuit_runs (cmd : loc) (toks : list string) (circuit : string)
    (seed : Z) (w : world P) :
  w_heap w !! cmd = Some toks ->
  call_circuit cmd circuit seed w =
  (Done (after_call cmd toks circuit seed w).1, (after_call cmd toks circuit seed w).2).
Proof.
  intros Hcmd. unfold call_circuit, deepcopy.
  unfold bind at 1. unfold bind at 1. unfold read_list at 1. rewrite Hcmd.
  unfold new_list. set (l := fresh (dom (w_heap w))).
  set (w1 := set_heap (<[l := toks]> (w_heap w)) w).
  assert (H1 : w_heap w1 !! l = Some toks) by (simpl; apply lookup_insert_eq).
  unfold bind at 1. unfold read_list at 1. rewrite H1.
  unfold bind at 1.
  pose proof (substitute_loop l circuit seed toks [] w1 H1) as Hloop.
  simpl length in Hloop. rewrite Hloop. simpl app.
  unfold bind at 1. unfold read_list. simpl w_heap. rewrite lookup_insert_eq.
  unfold popen, after_call. simpl.
  destruct (tool P (w_calls w) (map (substitute circuit seed) toks) (w_fs w))
    as [[out err] fs'].
  simpl. rewrite insert_insert_eq. done.
Qed.

End Frame.

(** C10.  [Caller.call_circuit] substitutes the placeholders in a copy:
    whatever the tokens, circuit and seed, the call returns, the list object
    passed as [command] holds the same tokens afterwards, every other list
    object is untouched too, and the tool was run on the substituted tokens.
    The template can therefore be used again: a second call with another
    circuit and seed runs the tool on that template substituted afresh. *)
Theorem call_circuit_keeps_command (P : platform) (cmd : loc) (toks : list string)
    (circuit : string) (seed : Z) (w : world P) :
  w_heap w !! cmd = Some toks ->
  exists out err w',
    call_circuit cmd circuit seed w = (Done (out, err), w') /\
    w_heap w' !! cmd = Some toks /\
    (forall l, is_Some (w_heap w !! l) -> w_heap w' !! l = w_heap w !! l) /\
    argv <$> last (w_calls w') = Some (map (substitute circuit seed) toks) /\
    forall circuit2 seed2, exists out2 err2 w'',
      call_circuit cmd circuit2 seed2 w' = (Done (out2, err2), w'') /\
      w_heap w'' !! cmd = Some toks /\
      argv <$> last (w_calls w'') = Some (map (substitute circuit2 seed2) toks).
Proof.
  intros Hcmd.
  assert (Step : forall c s (v : world P), w_heap v !! cmd = Some toks ->
            exists out err v',
              call_circuit cmd c s v = (Done (out, err), v') /\
              w_heap v' !! cmd = Some toks /\
              (forall l, is_Some (w_heap v !! l) -> w_heap v' !! l = w_heap v !! l) /\
              argv <$> last (w_calls v') = Some (map (substitute c s) toks)).
  { intros c s v Hv. rewrite (call_circuit_runs cmd toks c s v Hv).
    unfold after_call.
    destruct (tool P (w_calls v) (map (substitute c s) toks) (w_fs v))
      as [[out err] fs'].
    exists out, err. eexists. split; [reflexivity|]. simpl.
    assert (Hfresh : forall l, is_Some (w_heap v !! l) -> fresh (dom (w_heap v)) ≠ l).
    { intros l Hl Heq. apply (is_fresh (dom (w_heap v))).
      rewrite Heq. by apply elem_of_dom. }
    split; [|split].
    - rewrite lookup_insert_ne; [done|]. apply Hfresh. by rewrite Hv.
    - intros l Hl. rewrite lookup_insert_ne; [done|]. by apply Hfresh.
    - by rewrite last_snoc. }
  destruct (Step circuit seed w Hcmd) as (out & err & w' & E & Hk & Hfr & Harg).
  exists out, err, w'. repeat split; try done.
  intros circuit2 seed2.
  destruct (Step circuit2 seed2 w' Hk) as (out2 & err2 & w'' & E2 & Hk2 & _ & Harg2).
  exists out2, err2, w''. done.
Qed.

(** The frame property on a template whose tokens hold both placeholders. *)
Lemma call_circuit_keeps_command_witness :
  exists out err w',
    call_circuit 1%positive "alu" 7 demo_heap_world = (Done (out, err), w') /\
    w_heap w' !! 1%positive = Some demo_template /\
    (forall l, is_Some (w_heap demo_heap_world !! l) ->
               w_heap w' !! l = w_heap demo_heap_world !! l) /\
    argv <$> last (w_calls w') = Some (map (substitute "alu" 7) demo_template) /\
    forall circuit2 seed2, exists out2 err2 w'',
      call_circuit 1%positive circuit2 seed2 w' = (Done (out2, err2), w'') /\
      w_heap w'' !! 1%positive = Some demo_template /\
      argv <$> last (w_calls w'') = Some (map (substitute circuit2 seed2) demo_template).
Proof.
  apply (call_circuit_keeps_command (demo true []) 1%positive demo_template
           "alu" 7 demo_heap_world).
  reflexivity.
Defined.

(** ** Option sets (build_option_sets) *)

Lemma flat_map_map {A B C} (f : B -> list C) (g : A -> B) (l : list A) :
  flat_map f (map g l) = flat_map (fun x => f (g x)) l.
Proof. induction l as [|x l IH]; simpl; [done | by rewrite IH]. Qed.

Lemma map_flat_map {A B C} (f : A -> list B) (g : B -> C) (l : list A) :
  map g (flat_map f l) = flat_map (fun x => map g (f x)) l.
Proof. induction l as [|x l IH]; simpl; [done | by rewrite map_app, IH]. Qed.

Lemma flat_map_flat_map {A B C} (f : A -> list B) (g : B -> list C) (l : list A) :
  flat_map g (flat_map f l) = flat_map (fun x => flat_map g (f x)) l.
Proof. induction l as [|x l IH]; simpl; [done | by rewrite flat_map_app, IH]. Qed.

Lemma product_from {A} (pools : list (list A)) (result : list (list A)) :
  fold_left product_step pools result
  = flat_map (fun x => map (app x) (cartesian pools)) result.
Proof.
  revert result. induction pools as [|pool pools IH]; intros result.
  - simpl. induction result as [|x r IHr]; [done|].
    simpl. rewrite app_nil_r. by rewrite <- IHr.
  - simpl fold_left. rewrite IH. unfold product_step. rewrite flat_map_flat_map.
    apply flat_map_ext. intros x.
    rewrite flat_map_map. simpl cartesian. rewrite map_flat_map.
    apply flat_map_ext. intros y.
    rewrite !map_map. apply map_ext. intros t. by rewrite <- app_assoc.
Qed.

Lemma product_cartesian {A} (pools : list (list A)) : product pools = cartesian pools.
Proof.
  unfold product. rewrite product_from. simpl. rewrite app_nil_r.
  rewrite <- (map_id (cartesian pools)) at 2. apply map_ext. done.
Qed.

Lemma cartesian_length {A} (pools : list (list A)) (t : list A) :
  In t (cartesian pools) -> length t = length pools.
Proof.
  revert t. induction pools as [|pool pools IH]; intros t; simpl.
  - intros [<-|[]]. done.
  - rewrite in_flat_map. intros (y & _ & Hy). apply in_map_iff in Hy.
    destruct Hy as (t' & <- & Ht'). simpl. f_equal. by apply IH.
Qed.

Lemma pair_up_snoc (names : list string) (value : list pyval) n v :
  length names = length value ->
  pair_up (names ++ [n]) (value ++ [v]) = pair_up names value ++ [n; str v].
Proof.
  revert value. induction names as [|a names IH]; intros [|b value] Hlen;
    simpl in *; try done.
  rewrite IH by lia. done.
Qed.

Lemma make_option_set_loop (names : list string) (value : list pyval)
    (todo_n : list string) (todo_v : list pyval) :
  forall done_n done_v,
    names = done_n ++ todo_n -> value = done_v ++ todo_v ->
    length done_n = length done_v -> length todo_n = length todo_v ->
    fold_left (option_set_step (KeysList names) value)
              (seq (length done_n) (length todo_n))
              (Done (pair_up done_n done_v))
    = Done (pair_up names value).
Proof.
  revert todo_v. induction todo_n as [|n todo_n IH]; intros [|v todo_v];
    intros done_n done_v Hn Hv Hd Ht; simpl in *; try done.
  - rewrite app_nil_r in Hn, Hv. by subst.
  - assert (E1 : names !! length done_n = Some n)
      by (rewrite Hn; by apply list_lookup_middle).
    assert (E2 : value !! length done_n = Some v)
      by (rewrite Hv; by apply list_lookup_middle).
    rewrite E1. simpl. rewrite E2. rewrite <- pair_up_snoc by done.
    specialize (IH todo_v (done_n ++ [n]) (done_v ++ [v])).
    rewrite length_app in IH. simpl in IH.
    replace (length done_n + 1)%nat with (S (length done_n)) in IH by lia.
    apply IH; try (rewrite <- app_assoc; done); try lia.
    rewrite !length_app. simpl. lia.
Qed.

(** Where [keys()] is a list, the inner loop pairs the names with the
    rendered values. *)
Lemma make_option_set_runs (names : list string) (value : list pyval) :
  length names = length value ->
  make_option_set (KeysList names) value = Done (pair_up names value).
Proof.
  intros Hlen. unfold make_option_set.
  apply (make_option_set_loop names value names value [] []); done.
Qed.

Lemma option_set_loop_raised (k : keys_object) (value : list pyval) (e : exn)
    (todo : list nat) :
  fold_left (option_set_step k value) todo (Raised e) = Raised e.
Proof. induction todo as [|i todo IH]; simpl; [done | apply IH]. Qed.

(** Where [keys()] is a view, the first pass of the inner loop raises. *)
Lemma make_option_set_view (names : list string) (value : list pyval) :
  names ≠ [] -> make_option_set (KeysView names) value = Raised TypeError.
Proof.
  destruct names as [|n names]; [done|]. intros _.
  unfold make_option_set. simpl. apply option_set_loop_raised.
Qed.

Lemma spec_option_sets_cartesian (ranges : list (string * list pyval)) :
  spec_option_sets ranges = map (pair_up ranges.*1) (cartesian ranges.*2).
Proof.
  induction ranges as [|[name values] ranges IH]; simpl; [done|].
  rewrite map_flat_map. apply flat_map_ext. intros v.
  rewrite IH, !map_map. done.
Qed.

Lemma flat_map_singleton {A B} (f : A -> B) (l : list A) :
  flat_map (fun x => [f x]) l = map f l.
Proof. induction l as [|x l IH]; simpl; [done | by rewrite IH]. Qed.

(** The last-declared option varies fastest: the option sets of the ranges
    with one more option at the end are, for each option set of the ranges
    before it in turn, that set followed by each value of the new option. *)
Lemma spec_option_sets_last_fastest (ranges : list (string * list pyval))
    (name : string) (values : list pyval) :
  spec_option_sets (ranges ++ [(name, values)])
  = flat_map (fun before => map (fun v => before ++ [name; str v]) values)
             (spec_option_sets ranges).
Proof.
  induction ranges as [|[m ws] ranges IH]; simpl.
  - rewrite app_nil_r. apply flat_map_singleton.
  - rewrite IH, flat_map_flat_map. apply flat_map_ext. intros w.
    rewrite map_flat_map, flat_map_map.
    apply flat_map_ext. intros before. by rewrite map_map.
Qed.

Section OptionSets.
Context {P : platform}.

Lemma option_sets_loop (names : list string) (values : list (list pyval)) :
  Forall (fun value => length names = length value) values ->
  forall (acc : list (list string)) (sw : sweeper) (w : world P),
    for_each values (add_option_set (KeysList names)) (set_option_sets acc sw, w)
    = (Done tt, (set_option_sets (acc ++ map (pair_up names) values) sw, w)).
Proof.
  induction 1 as [|value values Hlen _ IH]; intros acc sw w; simpl.
  - by rewrite app_nil_r.
  - unfold bind at 1. unfold add_option_set at 1. unfold bind, lift.
    rewrite make_option_set_runs by done.
    unfold this_option_sets, this, bind. simpl.
    change (set_option_sets (acc ++ [pair_up names value]) (set_option_sets acc sw))
      with (set_option_sets (acc ++ [pair_up names value]) sw).
    rewrite IH. by rewrite <- app_assoc.
Qed.

(** A mapping whose [keys()] is a list: the call returns with the product
    in the order in which the mapping iterates. *)
Lemma build_option_sets_runs (ranges : mapping) (sw : sweeper) (w : world P) :
  keys_indexable ranges = true ->
  build_option_sets ranges (sw, w)
  = (Done tt, (set_option_sets (spec_option_sets (items ranges)) sw, w)).
Proof.
  intros Hk.
  unfold build_option_sets. unfold bind at 1. unfold bind at 1. simpl.
  change (set_option_sets [] (set_option_sets [] sw)) with (set_option_sets [] sw).
  unfold keys, values. rewrite Hk.
  rewrite product_cartesian.
  rewrite option_sets_loop.
  - simpl. by rewrite spec_option_sets_cartesian.
  - apply List.Forall_forall. intros t Ht.
    rewrite (cartesian_length _ _ Ht). by rewrite !length_fmap.
Qed.

(** A mapping whose [keys()] is a view: with a name to look up and a
    combination to look it up for, the call raises on the first
    [option_names[i]], when [option_sets] is still empty. *)
Lemma build_option_sets_view (ranges : mapping) (sw : sweeper) (w : world P) :
  keys_indexable ranges = false ->
  items ranges ≠ [] -> spec_option_sets (items ranges) ≠ [] ->
  build_option_sets ranges (sw, w) = (Raised TypeError, (set_option_sets [] sw, w)).
Proof.
  intros Hk Hi Hs.
  unfold build_option_sets. unfold bind at 1. unfold bind at 1. simpl.
  change (set_option_sets [] (set_option_sets [] sw)) with (set_option_sets [] sw).
  unfold keys, values. rewrite Hk.
  rewrite product_cartesian.
  rewrite spec_option_sets_cartesian in Hs.
  destruct (cartesian (items ranges).*2) as [|value rest]; [done|].
  simpl. unfold bind at 1. unfold add_option_set at 1. unfold bind, lift.
  rewrite make_option_set_view; [done|].
  intros E. apply Hi. by apply fmap_nil_inv in E.
Qed.

(** Without a name, or without a combination, [keys()] is never indexed. *)
Lemma build_option_sets_unindexed (ranges : mapping) (sw : sweeper) (w : world P) :
  items ranges = [] \/ spec_option_sets (items ranges) = [] ->
  build_option_sets ranges (sw, w)
  = (Done tt, (set_option_sets (spec_option_sets (items ranges)) sw, w)).
Proof.
  intros H. destruct (keys_indexable ranges) eqn:Hk;
    [by apply build_option_sets_runs|].
  unfold build_option_sets. unfold bind at 1. unfold bind at 1. simpl.
  change (set_option_sets [] (set_option_sets [] sw)) with (set_option_sets [] sw).
  unfold keys, values. rewrite Hk. rewrite product_cartesian.
  destruct H as [Hi|Hs].
  - rewrite Hi. reflexivity.
  - rewrite Hs. rewrite spec_option_sets_cartesian in Hs.
    apply fmap_nil_inv in Hs. rewrite Hs. reflexivity.
Qed.

(** Whatever the mapping, a call that returns has stored the product. *)
Lemma build_option_sets_returned (ranges : mapping) (sw : sweeper) (w : world P)
    (s : sweeper * world P) :
  build_option_sets ranges (sw, w) = (Done tt, s) ->
  s = (set_option_sets (spec_option_sets (items ranges)) sw, w).
Proof.
  intros H.
  destruct (keys_indexable ranges) eqn:Hk.
  - rewrite build_option_sets_runs in H by done. by injection H as <-.
  - destruct (items ranges) as [|it its] eqn:Hi.
    + rewrite build_option_sets_unindexed in H by (by left).
      rewrite Hi in H. by injection H as <-.
    + destruct (spec_option_sets (items ranges)) as [|o os] eqn:Hs.
      * rewrite build_option_sets_unindexed in H by (by right).
        rewrite Hs in H. rewrite <- Hi, Hs. by injection H as <-.
      * rewrite build_option_sets_view in H; [discriminate|done|..].
        -- by rewrite Hi.
        -- by rewrite Hs.
Qed.

Lemma build_option_sets_done (ranges : mapping) (sw : sweeper) (w : world P) :
  (build_option_sets ranges (sw, w)).1 = Done tt ->
  build_option_sets ranges (sw, w)
  = (Done tt, (set_option_sets (spec_option_sets (items ranges)) sw, w)).
Proof.
  destruct (build_option_sets ranges (sw, w)) as [r s] eqn:E. simpl.
  intros ->. by rewrite (build_option_sets_returned _ _ _ _ E).
Qed.

(** C3.  For a mapping whose [keys()] is a list, [build_option_sets]
    returns and stores the cartesian product of the ranges as flat name,
    value, name, value, ... token lists, the ranges taken in the order in
    which the mapping iterates: the names are in that order, and the last
    range varies fastest.  A mapping that iterates [a: [1,2]] and then
    [b: [x,y]] gives [a,1,b,x], [a,1,b,y], [a,2,b,x], [a,2,b,y]. *)
Theorem build_option_sets_product (option_ranges : mapping)
    (sw : sweeper) (w : world P) :
  keys_indexable option_ranges = true ->
  build_option_sets option_ranges (sw, w)
    = (Done tt, (set_option_sets (spec_option_sets (items option_ranges)) sw, w)) /\
  (forall ranges name range,
     items option_ranges = ranges ++ [(name, range)] ->
     spec_option_sets (items option_ranges)
     = flat_map (fun before => map (fun v => before ++ [name; str v]) range)
                (spec_option_sets ranges)) /\
  (items option_ranges = [("a", [PInt 1; PInt 2]); ("b", [PStr "x"; PStr "y"])] ->
   build_option_sets option_ranges (sw, w)
   = (Done tt,
      (set_option_sets [["a"; "1"; "b"; "x"]; ["a"; "1"; "b"; "y"];
                        ["a"; "2"; "b"; "x"]; ["a"; "2"; "b"; "y"]] sw, w))).
Proof.
  intros Hk.
  split; [by apply build_option_sets_runs|].
  split; [intros ranges name range ->; apply spec_option_sets_last_fastest|].
  intros Hi. rewrite build_option_sets_runs by done. rewrite Hi. reflexivity.
Qed.

End OptionSets.

(** The ranges of the example in a mapping whose [keys()] is a list. *)
Lemma build_option_sets_product_witness :
  build_option_sets demo_ab_list (demo_sweeper, world0 demo_idle ∅)
  = (Done tt,
     (set_option_sets [["a"; "1"; "b"; "x"]; ["a"; "1"; "b"; "y"];
                       ["a"; "2"; "b"; "x"]; ["a"; "2"; "b"; "y"]] demo_sweeper,
      world0 demo_idle ∅)).
Proof.
  destruct (build_option_sets_product (P:=demo_idle) demo_ab_list demo_sweeper
              (world0 demo_idle ∅) eq_refl) as (_ & _ & H).
  apply H. reflexivity.
Defined.

(** C3 (as stated) fails.  The ranges of the example, in a mapping that
    iterates them as declared but whose [keys()] is a view, do not give
    the four option sets: [build_option_sets] raises [TypeError] and
    leaves [option_sets] empty.  And where [keys()] is a list, the option
    sets follow the order in which the mapping iterates, not the order of
    declaration: a mapping that holds the ranges declared as [b], [a] and
    iterates [a] first gives the sets that start with [a], which are not
    the product in declaration order. *)
Lemma build_option_sets_not_for_every_mapping :
  let s := (demo_sweeper, world0 demo_idle ∅) in
  let a_first := [["a"; "1"; "b"; "x"]; ["a"; "1"; "b"; "y"];
                  ["a"; "2"; "b"; "x"]; ["a"; "2"; "b"; "y"]] in
  spec_option_sets (items demo_ab_view) = a_first /\
  (build_option_sets demo_ab_view s).1 = Raised TypeError /\
  option_sets (build_option_sets demo_ab_view s).2.1 = Some [] /\
  items demo_ab_list ≡ₚ demo_ba_declared /\
  (build_option_sets demo_ab_list s).1 = Done tt /\
  option_sets (build_option_sets demo_ab_list s).2.1 = Some a_first /\
  spec_option_sets demo_ba_declared ≠ a_first.
Proof.
  intros s a_first.
  split; [reflexivity|].
  split; [vm_compute; reflexivity|].
  split; [vm_compute; reflexivity|].
  split; [apply Permutation_swap|].
  split; [vm_compute; reflexivity|].
  split; [vm_compute; reflexivity|].
  vm_compute. discriminate.
Qed.

(** ** Invariants of computations *)

Lemma preserves_bind {S A B} (I : S -> Prop) (m : M S A) (k : A -> M S B) :
  Preserves I m -> (forall a, Preserves I (k a)) -> Preserves I (bind m k).
Proof.
  intros Hm Hk s r s' Hs. unfold bind.
  destruct (m s) as [[a|e] s1] eqn:E.
  - intros Hr. eapply Hk; [|exact Hr]. eapply Hm; eauto.
  - intros [= <- <-]. eapply Hm; eauto.
Qed.

Lemma preserves_ret {S A} (I : S -> Prop) (a : A) : Preserves I (ret a).
Proof. intros s r s' Hs [= <- <-]. exact Hs. Qed.

Lemma preserves_raise {S A} (I : S -> Prop) (e : exn) : Preserves I (@raise S A e).
Proof. intros s r s' Hs [= <- <-]. exact Hs. Qed.

Lemma preserves_lift {S A} (I : S -> Prop) (o : outcome A) : Preserves I (@lift S A o).
Proof. intros s r s' Hs [= <- <-]. exact Hs. Qed.

Lemma preserves_for_each {S A} (I : S -> Prop) (xs : list A) (body : A -> M S unit) :
  (forall x, Preserves I (body x)) -> Preserves I (for_each xs body).
Proof.
  intros Hbody s r s' Hs E.
  eapply (for_each_preserves I xs body); eauto.
Qed.

Section Runs.
Context {P : platform}.

Lemma preserves_in_world {A} (J : caller -> Prop) (m : M (world P) A) :
  Preserves (on_self (P:=P) J) (in_world m).
Proof.
  intros [c w] r [c' w'] Hs. unfold in_world.
  destruct (m w) as [r1 w1]. intros [= <- <- <-]. exact Hs.
Qed.

Lemma preserves_self (I : caller * world P -> Prop) : Preserves I self.
Proof. intros s r s' Hs [= <- <-]. exact Hs. Qed.

Lemma preserves_update_self (J : caller -> Prop) (f : caller -> caller) :
  (forall c, J c -> J (f c)) -> Preserves (on_self (P:=P) J) (update_self (P:=P) f).
Proof. intros Hf [c w] r [c' w'] Hs [= <- <- <-]. by apply Hf. Qed.

Lemma preserves_sys_exit {A} (I : caller * world P -> Prop) (code : Z) :
  Preserves I (@sys_exit (caller * world P) A code).
Proof. apply preserves_raise. Qed.

Lemma populated_insert (c : caller) r circuit by_metric metric (l : list R) :
  results c = Some r -> r !! circuit = Some by_metric ->
  populated c ->
  populated (set_results (<[circuit := <[metric := l]> by_metric]> r) c).
Proof.
  intros Hr Hc (r' & Hr' & Hall). rewrite Hr in Hr'. injection Hr' as <-.
  eexists. split; [reflexivity|]. simpl.
  intros circuit' metric' Hc' Hm'.
  destruct (Hall circuit' metric' Hc' Hm') as (bm & l' & Hbm & Hl').
  destruct (decide (circuit = circuit')) as [<-|Hne].
  - rewrite lookup_insert_eq. rewrite Hc in Hbm. injection Hbm as <-.
    destruct (decide (metric = metric')) as [<-|Hnm].
    + eexists _, _. split; [done|]. apply lookup_insert_eq.
    + eexists _, _. split; [done|]. rewrite lookup_insert_ne by done. exact Hl'.
  - rewrite lookup_insert_ne by done. eauto.
Qed.

Lemma record_metric_preserves c0 l circuit groups metric :
  Preserves (on_self (P:=P) (batch_inv c0 l)) (record_metric circuit groups metric).
Proof.
  intros [c w] r [c' w'] Hs. unfold on_self in *. simpl in Hs.
  unfold record_metric, self_results, self, bind, lift, getitem. simpl.
  destruct (results c) as [res|] eqn:Hres; [|intros [= <- <- <-]; done].
  unfold ret. destruct (res !! circuit) as [bm|] eqn:Hbm; [|intros [= <- <- <-]; done].
  destruct (bm !! metric) as [smp|] eqn:Hsmp; [|intros [= <- <- <-]; done].
  destruct (groups _) as [text|]; [|intros [= <- <- <-]; done].
  destruct (py_float P text) as [x|]; [|intros [= <- <- <-]; done].
  intros [= <- <- <-]. simpl.
  destruct Hs as (Hcfg & Hseeds & Hpop).
  split; [exact Hcfg|]. split; [exact Hseeds|].
  by apply populated_insert.
Qed.

Lemma run_circuit_preserves c0 l cmd seed circuit :
  Preserves (on_self (P:=P) (batch_inv c0 l)) (run_circuit cmd seed circuit).
Proof.
  unfold run_circuit.
  apply preserves_bind; [apply preserves_in_world|intros _].
  apply preserves_bind; [apply preserves_in_world|intros [out err]].
  apply preserves_bind.
  { destruct (bool_decide (err ≠ "")); [|apply preserves_ret].
    apply preserves_bind; [apply preserves_in_world|intros _].
    apply preserves_bind; [apply preserves_in_world|intros _].
    apply preserves_sys_exit. }
  intros _. apply preserves_bind; [apply preserves_self|intros c].
  destruct (re_search P (stats_regex c) out) as [groups|].
  - apply preserves_for_each. intros metric. apply record_metric_preserves.
  - apply preserves_bind; [apply preserves_in_world|intros _].
    apply preserves_bind; [apply preserves_in_world|intros _].
    apply preserves_sys_exit.
Qed.

Lemma with_seed_preserves c0 l cmd seed :
  Preserves (on_self (P:=P) (batch_inv c0 l)) (call_all_circuits_with_seed cmd seed).
Proof.
  unfold call_all_circuits_with_seed.
  apply preserves_bind.
  { apply preserves_update_self. intros c (Hcfg & Hs & r & Hr & Hall).
    split; [exact Hcfg|]. split; [exact Hs|]. exists r. done. }
  intros _. apply preserves_bind; [apply preserves_self|intros c].
  apply preserves_for_each. intros circuit. apply run_circuit_preserves.
Qed.

End Runs.

Section Prepare.
Context {P : platform}.

Lemma init_metric_runs (c : caller) (w : world P) r circuit by_metric metric :
  results c = Some r -> r !! circuit = Some by_metric ->
  init_metric circuit metric (c, w)
  = (Done tt, (set_results (<[circuit := <[metric := []]> by_metric]> r) c, w)).
Proof.
  intros Hr Hc. unfold init_metric, self_results, self, bind, lift, getitem. simpl.
  rewrite Hr. unfold ret. by rewrite Hc.
Qed.

Lemma init_circuit_runs (c : caller) (w : world P) r circuit :
  results c = Some r ->
  exists filled,
    init_circuit circuit (c, w) = (Done tt, (set_results (<[circuit := filled]> r) c, w)) /\
    forall metric, metric ∈ metrics c -> exists l, filled !! metric = Some l.
Proof.
  intros Hr. unfold init_circuit, self_results, self, bind. simpl. rewrite Hr.
  unfold ret, update_self.
  destruct (for_each_total
    (fun pre (s : caller * world P) =>
       s.2 = w /\ exists bm, s.1 = set_results (<[circuit := bm]> r) c /\
       forall m, m ∈ pre -> exists l : list R, bm !! m = Some l)
    (metrics c) (init_metric circuit) (set_results (<[circuit := ∅]> r) c, w))
    as ([c' w'] & E & Hw & bm & Hc' & Hbm).
  - simpl. split; [done|]. exists ∅. split; [done|]. intros m Hm. by apply elem_of_nil in Hm.
  - intros pre m [c1 w1] (Hw1 & bm & Hc1 & Hbm). simpl in Hw1, Hc1. subst w1 c1.
    eexists. split.
    + apply init_metric_runs; [reflexivity|]. simpl. apply lookup_insert_eq.
    + simpl. split; [done|]. exists (<[m := []]> bm). split.
      * unfold set_results. simpl. by rewrite insert_insert_eq.
      * intros m' Hm'. apply elem_of_app in Hm'. destruct Hm' as [Hm'|Hm'].
        -- destruct (decide (m = m')) as [<-|Hne].
           ++ eexists. apply lookup_insert_eq.
           ++ rewrite lookup_insert_ne by done. by apply Hbm.
        -- apply list_elem_of_singleton in Hm'. subst m'.
           eexists. apply lookup_insert_eq.
  - simpl in Hw, Hc'. subst w' c'. exists bm. simpl. simpl in E. rewrite E. done.
Qed.

Lemma draw_seeds_runs (n : nat) (w : world P) :
  comprehension (seq 0 n) (fun _ => random_randrange (2 ^ 31 - 1)) w
  = (Done (draws P n (w_rng w)), set_rng (after_draws P n (w_rng w)) w).
Proof.
  generalize 0%nat as k. revert w. induction n as [|n IH]; intros w k; simpl.
  - unfold ret. f_equal. by destruct w.
  - unfold bind at 1. unfold random_randrange at 1.
    destruct (rng_randrange P (2 ^ 31 - 1) (w_rng w)) as [x st'] eqn:E.
    unfold bind at 1. rewrite IH. simpl. unfold ret. done.
Qed.

(** The preparation always returns; it leaves a caller with the
    configuration it had, the seed sequence, and an empty sample list for
    every circuit and metric, and touches nothing of the world but the
    generator. *)
Lemma prepare_batch_runs (N : Z) (c : caller) (w : world P) :
  exists c1,
    prepare_batch N (c, w)
    = (Done tt, (c1, set_rng (after_draws P (Z.to_nat N) (rng_seed P 1)) w)) /\
    batch_inv c (seed_sequence P N) c1 /\ command c1 = command c.
Proof.
  unfold prepare_batch. unfold bind at 1. unfold update_self at 1.
  unfold bind at 1. unfold self at 1. simpl circuits.
  unfold bind at 1.
  destruct (for_each_total
    (fun pre (s : caller * world P) =>
       s.2 = w /\ same_config c s.1 /\ command s.1 = command c /\
       exists r, results s.1 = Some r /\
         forall circuit metric, circuit ∈ pre -> metric ∈ metrics c ->
           exists bm (l : list R), r !! circuit = Some bm /\ bm !! metric = Some l)
    (circuits c) init_circuit (set_results ∅ c, w))
    as ([c' w'] & E & Hw & Hcfg & Hcmd & r & Hr & Hall).
  - simpl. split; [done|]. split; [done|]. split; [done|]. exists ∅. split; [done|].
    intros circuit metric Hc. by apply elem_of_nil in Hc.
  - intros pre x [c1 w1] (Hw1 & Hcfg & Hcmd & r & Hr & Hall). simpl in *. subst w1.
    destruct (init_circuit_runs c1 w r x Hr) as (filled & E & Hfilled).
    eexists. split; [exact E|]. simpl. split; [done|]. split; [exact Hcfg|].
    split; [exact Hcmd|]. eexists. split; [reflexivity|].
    intros circuit metric Hc Hm.
    destruct (decide (x = circuit)) as [<-|Hne].
    + rewrite lookup_insert_eq. destruct (Hfilled metric) as (l & Hl).
      { destruct Hcfg as (_ & -> & _). exact Hm. }
      eauto.
    + rewrite lookup_insert_ne by done. apply Hall; [|done].
      apply elem_of_app in Hc. destruct Hc as [Hc|Hc]; [done|].
      apply list_elem_of_singleton in Hc. congruence.
  - simpl in Hw, Hcfg, Hcmd, Hr. subst w'. simpl in E. rewrite E.
    unfold bind at 1. unfold in_world at 1, random_seed, modify.
    unfold bind at 1. unfold in_world at 1, draw_seeds.
    rewrite draw_seeds_runs. simpl.
    eexists. split; [reflexivity|]. split; [|exact Hcmd].
    split; [exact Hcfg|]. split; [reflexivity|].
    exists r. split; [exact Hr|]. simpl.
    destruct Hcfg as (Hc1 & Hm1 & _). rewrite Hc1, Hm1. exact Hall.
Qed.

End Prepare.

Lemma for_each_done {S A} (I : list A -> S -> Prop) (xs : list A)
    (body : A -> M S unit) (s s' : S) :
  I [] s ->
  (forall pre x s1 s2, I pre s1 -> body x s1 = (Done tt, s2) -> I (pre ++ [x]) s2) ->
  for_each xs body s = (Done tt, s') -> I xs s'.
Proof.
  intros H0 Hbody.
  assert (G : forall pre s1, I pre s1 ->
            for_each xs body s1 = (Done tt, s') -> I (pre ++ xs) s').
  { induction xs as [|x xs IH]; intros pre s1 Hpre; simpl.
    - unfold ret. intros [= <-]. by rewrite app_nil_r.
    - unfold bind. destruct (body x s1) as [[[]|e] s2] eqn:E; [|done].
      intros Hrest.
      replace (pre ++ x :: xs) with ((pre ++ [x]) ++ xs) by (by rewrite <- app_assoc).
      eapply IH; [|exact Hrest]. eapply Hbody; eauto. }
  apply (G [] s H0).
Qed.

Section Batches.
Context {P : platform}.

(** However a batch ends, the caller has its configuration, the seed
    sequence, and a sample list for every circuit and metric. *)
Lemma call_all_circuits_inv (cmd : loc) (N : Z) (c : caller) (w : world P) r c' w' :
  call_all_circuits cmd N (c, w) = (r, (c', w')) ->
  batch_inv c (seed_sequence P N) c'.
Proof.
  unfold call_all_circuits. unfold bind at 1.
  destruct (prepare_batch_runs N c w) as (c1 & -> & Hinv & _).
  unfold bind at 1. unfold self_seeds, self, bind at 1. simpl.
  destruct Hinv as (Hcfg & Hseeds & Hpop). rewrite Hseeds. unfold ret.
  intros E.
  assert (H1 : on_self (P:=P) (batch_inv c (seed_sequence P N))
                 (c1, set_rng (after_draws P (Z.to_nat N) (rng_seed P 1)) w))
    by (unfold on_self, batch_inv; done).
  apply (preserves_for_each (on_self (P:=P) (batch_inv c (seed_sequence P N)))
           (seed_sequence P N) (call_all_circuits_with_seed cmd)
           (fun seed => with_seed_preserves c _ cmd seed) _ _ _ H1 E).
Qed.

Lemma batch_inv_config (c0 c1 c : caller) l :
  same_config c0 c1 -> batch_inv c1 l c -> batch_inv c0 l c.
Proof.
  intros (A1 & A2 & A3 & A4 & A5) ((B1 & B2 & B3 & B4 & B5) & Hs & Hp).
  split; [|done]. repeat split; congruence.
Qed.

Lemma place_all_inv (options : list string) (N : Z) (c : caller) (w : world P) r c' w' :
  place_all options N (c, w) = (r, (c', w')) ->
  batch_inv c (seed_sequence P N) c'.
Proof.
  unfold place_all. unfold bind at 1. unfold self at 1. simpl.
  unfold bind at 1. unfold in_world at 1, new_list.
  unfold bind at 1.
  destruct (call_all_circuits _ N _) as [[[]|e] [c1 w1]] eqn:E.
  - apply call_all_circuits_inv in E.
    unfold in_world. destruct (shutil_rmtree "tmp" w1) as [r2 w2].
    intros [= <- <- <-]. exact E.
  - intros [= <- <- <-]. by apply call_all_circuits_inv in E.
Qed.

Lemma sweep_one_inv (sw0 : sweeper) sets fixed N option_set (sw : sweeper) (w : world P)
    r sw' w' :
  sweep_inv P sw0 sets N sw ->
  sweep_one fixed N option_set (sw, w) = (r, (sw', w')) ->
  sweep_inv P sw0 sets N sw' /\
  (r = Done tt -> exists cs c, callers sw = Some cs /\ callers sw' = Some (cs ++ [c])).
Proof.
  intros (A1 & A2 & A3 & Hsets & cs & Hcs & Hall).
  unfold sweep_one. unfold bind at 1. unfold this at 1. simpl.
  unfold bind at 1. unfold on_caller.
  destruct (place_all _ N _) as [[[]|e] [c1 w1]] eqn:E.
  - apply place_all_inv in E.
    unfold this_callers, this, bind. simpl. rewrite Hcs. unfold ret, update_this.
    intros [= <- <- <-]. split.
    + repeat split; try done. exists (cs ++ [c1]). split; [done|].
      apply Forall_app. split; [exact Hall|]. constructor; [|constructor].
      rewrite A1, A2, A3 in E. exact E.
    + intros _. exists cs, c1. done.
  - intros [= <- <- <-]. split; [|done].
    repeat split; try done. exists cs. done.
Qed.

(** However a sweep ends once its option sets are built, these are the
    product of the ranges and each caller it holds was run on the seed
    sequence. *)
Lemma sweep_inv_holds fixed variable N (sw : sweeper) (w : world P) r sw' w' :
  (build_option_sets variable (sw, w)).1 = Done tt ->
  sweep fixed variable N (sw, w) = (r, (sw', w')) ->
  sweep_inv P sw (spec_option_sets (items variable)) N sw'.
Proof.
  intros Hb. unfold sweep. unfold bind at 1.
  rewrite (build_option_sets_done variable sw w Hb).
  unfold bind at 1. unfold update_this at 1.
  unfold bind at 1. unfold this_option_sets, this, bind at 1. simpl. unfold ret.
  intros E.
  eapply (for_each_preserves
            (fun s : sweeper * world P =>
               sweep_inv P sw (spec_option_sets (items variable)) N s.1)
            _ _ _ _ _ _ _ E).
  Unshelve.
  - intros x [sw1 w1] r1 [sw2 w2] H1 E1. simpl in *.
    by destruct (sweep_one_inv _ _ _ _ _ _ _ _ _ _ H1 E1).
  - simpl. repeat split; try done. exists []. split; [done|]. constructor.
Qed.

(** A sweep that returns holds one caller per option set. *)
Lemma sweep_done_length fixed variable N (sw : sweeper) (w : world P) sw' w' :
  sweep fixed variable N (sw, w) = (Done tt, (sw', w')) ->
  exists cs, callers sw' = Some cs /\
    length cs = length (spec_option_sets (items variable)).
Proof.
  unfold sweep. unfold bind at 1.
  destruct (build_option_sets variable (sw, w)) as [[[]|e] s0] eqn:E0; [|discriminate].
  apply build_option_sets_returned in E0. subst s0.
  unfold bind at 1. unfold update_this at 1.
  unfold bind at 1. unfold this_option_sets, this, bind at 1. simpl. unfold ret.
  intros E.
  apply (for_each_done
           (fun pre (s : sweeper * world P) =>
              sweep_inv P sw (spec_option_sets (items variable)) N s.1 /\
              exists cs, callers s.1 = Some cs /\ length cs = length pre)
           _ _ _ _) in E.
  - destruct E as (_ & cs & Hcs & Hlen). eauto.
  - simpl. split; [|exists []; done].
    repeat split; try done. exists []. split; [done|]. constructor.
  - intros pre x [sw1 w1] [sw2 w2] (H1 & cs & Hcs & Hlen) E1. simpl in *.
    destruct (sweep_one_inv _ _ _ _ _ _ _ _ _ _ H1 E1) as (H2 & Hd).
    split; [exact H2|]. destruct (Hd eq_refl) as (cs' & c & Hcs' & Hcs2).
    rewrite Hcs in Hcs'. injection Hcs' as <-.
    exists (cs ++ [c]). split; [done|]. rewrite !length_app. simpl. lia.
Qed.

(** A sweep that returns has built its option sets. *)
Lemma sweep_done_built fixed variable N (sw : sweeper) (w : world P) sw' w' :
  sweep fixed variable N (sw, w) = (Done tt, (sw', w')) ->
  (build_option_sets variable (sw, w)).1 = Done tt.
Proof.
  unfold sweep. unfold bind at 1.
  destruct (build_option_sets variable (sw, w)) as [[[]|e] s0]; [done|discriminate].
Qed.

End Batches.

(** ** The seed sequence (call_all_circuits, sweep) *)

Lemma draws_length (P : platform) (n : nat) (st : rng_state P) :
  length (draws P n st) = n.
Proof.
  revert st. induction n as [|n IH]; intros st; simpl; [done|].
  destruct (rng_randrange P (2 ^ 31 - 1) st) as [x st']. simpl. by rewrite IH.
Qed.


(** ** The all-circuits geometric mean (get_geomean) *)

Lemma pool_concat (c : caller) (metric : string) :
  populated c -> metric ∈ metrics c ->
  forall todo acc, (forall circuit, circuit ∈ todo -> circuit ∈ circuits c) ->
    exists lists,
      Forall2 (fun circuit l => samples_of c circuit metric = Done l) todo lists /\
      pool c metric todo acc = Done (acc ++ concat lists).
Proof.
  intros (r & Hr & Hall) Hm. induction todo as [|circuit todo IH]; intros acc Hsub.
  - exists []. split; [constructor|]. simpl. by rewrite app_nil_r.
  - destruct (Hall circuit metric) as (bm & l & Hbm & Hl);
      [apply Hsub; left | exact Hm |].
    assert (Hs : samples_of c circuit metric = Done l).
    { unfold samples_of, get_results_attr, getitem. rewrite Hr. simpl.
      rewrite Hbm. simpl. by rewrite Hl. }
    destruct (IH (acc ++ l)) as (lists & HF & Hp).
    { intros x Hx. apply Hsub. by right. }
    exists (l :: lists). split; [by constructor|].
    simpl. rewrite Hs. simpl. rewrite Hp. by rewrite <- app_assoc.
Qed.

Lemma samples_lists_unique (c : caller) (metric : string) (names : list string)
    (ls ls' : list (list R)) :
  Forall2 (fun circuit l => samples_of c circuit metric = Done l) names ls ->
  Forall2 (fun circuit l => samples_of c circuit metric = Done l) names ls' ->
  ls = ls'.
Proof.
  intros F. revert ls'. induction F as [|x l xs ls H1 _ IH]; intros ls' F';
    inversion F' as [|? l' ? ls2 H2 F2]; subst; [done|].
  f_equal; [congruence|]. by apply IH.
Qed.

Lemma get_geomean_populated (c : caller) (metric : string) :
  populated c -> metric ∈ metrics c ->
  exists lists,
    Forall2 (fun circuit l => samples_of c circuit metric = Done l) (circuits c) lists /\
    get_geomean c metric = Done (gmean (concat lists)).
Proof.
  intros Hp Hm.
  destruct (pool_concat c metric Hp Hm (circuits c) []) as (lists & HF & E); [done|].
  exists lists. split; [exact HF|]. unfold get_geomean. rewrite E. done.
Qed.

Local Open Scope R_scope.

Lemma gmean_1_1 : gmean [1; 1] = 1.
Proof.
  unfold gmean, mean, sum_list. simpl. rewrite ln_1.
  replace ((0 + (0 + 0)) / (1 + 1)) with 0 by lra. apply exp_0.
Qed.

Lemma ln_4 : ln 4 = ln 2 + ln 2.
Proof. replace 4 with (2 * 2) by lra. apply ln_mult; lra. Qed.

Lemma gmean_1_4 : gmean [1; 4] = 2.
Proof.
  unfold gmean, mean, sum_list. simpl. rewrite ln_1, ln_4.
  replace ((0 + (ln 2 + ln 2 + 0)) / (1 + 1)) with (ln 2) by lra.
  apply exp_ln. lra.
Qed.

Lemma gmean_1_4_1_1_squared : gmean [1; 4; 1; 1] * gmean [1; 4; 1; 1] = 2.
Proof.
  unfold gmean, mean, sum_list. simpl. rewrite ln_1, ln_4.
  rewrite <- exp_plus.
  replace (_ + _) with (ln 2) by lra.
  apply exp_ln. lra.
Qed.

(** Pooling the samples is not averaging the per-circuit means. *)
Lemma pooled_differs :
  gmean (concat [[1; 4]; [1; 1]]) <> mean_of_geomeans [[1; 4]; [1; 1]].
Proof.
  unfold mean_of_geomeans. simpl concat. simpl map.
  rewrite gmean_1_1, gmean_1_4. unfold mean, sum_list. simpl.
  intros E. pose proof gmean_1_4_1_1_squared as Hsq. rewrite E in Hsq. lra.
Qed.

Local Close Scope R_scope.

(** C1.  After a batch, [get_geomean] of a metric is the geometric mean of
    one sequence: the sample lists of the circuits for that metric, in the
    order of [self.circuits], concatenated.  That value is in general not
    the arithmetic mean of the per-circuit geometric means: a batch of two
    circuits and two seeds in which one circuit's samples vary (1 and 4)
    and the other's do not (1 and 1) gives different values. *)
Theorem get_geomean_pools (P : platform) (cmd : loc) (N : Z) (c : caller)
    (w : world P) r c' w' (metric : string) :
  call_all_circuits cmd N (c, w) = (r, (c', w')) ->
  metric ∈ metrics c ->
  (exists lists,
     Forall2 (fun circuit l => samples_of c' circuit metric = Done l)
             (circuits c') lists /\
     get_geomean c' metric = Done (gmean (concat lists))) /\
  (exists c2 w2 lists pooled,
     demo_batch = (Done tt, (c2, w2)) /\
     Forall2 (fun circuit l => samples_of c2 circuit "BB cost" = Done l)
             (circuits c2) lists /\
     get_geomean c2 "BB cost" = Done pooled /\
     pooled <> mean_of_geomeans lists).
Proof.
  intros E Hm. split.
  - apply call_all_circuits_inv in E. destruct E as ((_ & Hms & _) & _ & Hp).
    apply get_geomean_populated; [exact Hp|]. by rewrite Hms.
  - exists demo_batch.2.1, demo_batch.2.2, [[1; 4]; [1; 1]]%R.
    exists (gmean (concat [[1; 4]; [1; 1]]%R)).
    assert (F : Forall2 (fun circuit l => samples_of demo_batch.2.1 circuit "BB cost" = Done l)
                        (circuits demo_batch.2.1) [[1; 4]; [1; 1]]%R).
    { change (circuits demo_batch.2.1) with ["alu"; "fft"].
      repeat constructor; vm_compute; reflexivity. }
    split; [apply run_eta; vm_compute; reflexivity|]. split; [exact F|].
    split; [|exact pooled_differs].
    pose proof (run_parts demo_batch) as Hrun.
    apply call_all_circuits_inv in Hrun. destruct Hrun as ((_ & Hms & _) & _ & Hp).
    destruct (get_geomean_populated demo_batch.2.1 "BB cost" Hp) as (lists & F' & G).
    { rewrite Hms. vm_compute. apply list_elem_of_In. simpl. tauto. }
    by rewrite (samples_lists_unique _ _ _ _ _ F F').
Qed.


(** The pooled geometric mean of the runtime samples of [demo_batch]. *)
Lemma get_geomean_pools_witness :
  (exists lists,
     Forall2 (fun circuit l => samples_of demo_batch.2.1 circuit "runtime" = Done l)
             (circuits demo_batch.2.1) lists /\
     get_geomean demo_batch.2.1 "runtime" = Done (gmean (concat lists))) /\
  (exists c2 w2 lists pooled,
     demo_batch = (Done tt, (c2, w2)) /\
     Forall2 (fun circuit l => samples_of c2 circuit "BB cost" = Done l)
             (circuits c2) lists /\
     get_geomean c2 "BB cost" = Done pooled /\
     pooled <> mean_of_geomeans lists).
Proof.
  apply (get_geomean_pools demo_uneven 1%positive 2 demo_caller
           (demo_command_world demo_uneven)
           demo_batch.1 demo_batch.2.1 demo_batch.2.2 "runtime").
  - exact (run_parts demo_batch).
  - vm_compute. apply list_elem_of_here.
Defined.

(** ** The pareto table (get_pareto_table) *)

(** The data row of configuration [i] as the specification describes it:
    the runtime geomean, [i] blank cells, the metric's geomean. *)
Lemma pareto_loop_rows (cs : list caller) (metric : string) (row : nat -> table_row)
    (todo : list nat) :
  (forall i, i ∈ todo -> pareto_row cs metric i = Done (row i)) ->
  forall rows, pareto_loop cs metric todo rows = Done (rows ++ map row todo).
Proof.
  induction todo as [|i todo IH]; intros Hrow rows; simpl.
  - by rewrite app_nil_r.
  - rewrite Hrow by left. simpl. rewrite IH.
    + by rewrite <- app_assoc.
    + intros j Hj. apply Hrow. by right.
Qed.

Lemma blank_at_staircase (x y : R) (i j : nat) :
  (1 <= j)%nat ->
  blank_at (RowList ([CNum x] ++ replicate i (CStr "") ++ [CNum y])) j = false
  <-> j = (i + 1)%nat.
Proof.
  intros Hj. unfold blank_at. simpl fields.
  destruct j as [|j]; [lia|]. simpl.
  destruct (decide (j < i)%nat) as [Hlt|Hge].
  - rewrite lookup_app_l by (rewrite length_replicate; lia).
    rewrite lookup_replicate_2 by done. simpl. split; [done|lia].
  - rewrite lookup_app_r by (rewrite length_replicate; lia).
    rewrite length_replicate.
    destruct (j - i)%nat as [|k] eqn:E; simpl.
    + split; [lia|done].
    + split; [done|lia].
Qed.

Section Pareto.
Context {P : platform}.

(** After a sweep that returned, every caller yields the geometric means
    the pareto table needs, and the table is the header row followed by
    the rows the loop builds from them. *)
Lemma pareto_table_rows (fixed : list string) (variable : mapping) (N : Z)
    (sw : sweeper) (w : world P) sw' w' (metric : string) :
  sweep fixed variable N (sw, w) = (Done tt, (sw', w')) ->
  metric ∈ PlaceCaller_metrics ->
  exists cs (runtime quality : nat -> R),
    option_sets sw' = Some (spec_option_sets (items variable)) /\
    callers sw' = Some cs /\
    length cs = length (spec_option_sets (items variable)) /\
    (forall i c, cs !! i = Some c ->
       get_geomean c "runtime" = Done (runtime i) /\
       get_geomean c metric = Done (quality i)) /\
    get_pareto_table sw' metric
    = Done (RowList (CStr metric
                     :: map (fun o => CStr (join " " o))
                            (spec_option_sets (items variable)))
            :: map (fun i => RowList ([CNum (runtime i)] ++ replicate i (CStr "")
                                      ++ [CNum (quality i)]))
                   (seq 0 (length cs))).
Proof.
  intros E Hm.
  destruct (sweep_done_length _ _ _ _ _ _ _ E) as (cs & Hcs & Hlen).
  pose proof (sweep_done_built _ _ _ _ _ _ _ E) as Hb.
  apply (sweep_inv_holds _ _ _ _ _ _ _ _ Hb) in E.
  destruct E as (_ & _ & _ & Hsets & cs' & Hcs' & Hall).
  rewrite Hcs in Hcs'. injection Hcs' as <-.
  assert (Hg : forall i c, cs !! i = Some c -> forall m, m ∈ PlaceCaller_metrics ->
            exists x, get_geomean c m = Done x).
  { intros i c Hi m Hmm.
    pose proof (proj1 (Forall_lookup _ cs) Hall i c Hi) as ((_ & Hms & _) & _ & Hp).
    destruct (get_geomean_populated c m Hp) as (lists & _ & G).
    - rewrite Hms. exact Hmm.
    - eauto. }
  set (geo := fun (m : string) (i : nat) =>
         match cs !! i with
         | Some c => match get_geomean c m with Done x => x | Raised _ => 0%R end
         | None => 0%R
         end).
  assert (Hgeo : forall i c, cs !! i = Some c ->
            get_geomean c "runtime" = Done (geo "runtime" i) /\
            get_geomean c metric = Done (geo metric i)).
  { intros i c Hc. unfold geo. rewrite Hc.
    destruct (Hg i c Hc "runtime") as (x & ->); [apply list_elem_of_here|].
    destruct (Hg i c Hc metric Hm) as (y & ->). done. }
  exists cs, (geo "runtime"), (geo metric).
  split; [exact Hsets|]. split; [exact Hcs|]. split; [exact Hlen|].
  split; [exact Hgeo|].
  unfold get_pareto_table. rewrite Hsets, Hcs.
  rewrite (pareto_loop_rows cs metric
             (fun i => RowList ([CNum (geo "runtime" i)] ++ replicate i (CStr "")
                                ++ [CNum (geo metric i)]))); [done|].
  intros i Hi. apply elem_of_seq in Hi.
  destruct (lookup_lt_is_Some_2 cs i) as [c Hc]; [lia|].
  unfold pareto_row. rewrite Hc.
  destruct (Hgeo i c Hc) as (-> & ->). done.
Qed.

(** C4.  After a sweep that returned, with [k] option sets, the pareto
    table of a metric has the header row [M, rendering of option set 1,
    ..., rendering of option set k] and one data row per configuration;
    data row [i] (from 0) has [i + 2] cells: the runtime geomean of
    configuration [i] in column 0, blanks in columns 1 to [i], and the
    geomean of [M] in column [i + 1], which is the only non-blank cell in
    columns 1 to [k]. *)
Theorem pareto_table_staircase (fixed : list string) (variable : mapping) (N : Z)
    (sw : sweeper) (w : world P) sw' w' (metric : string) :
  sweep fixed variable N (sw, w) = (Done tt, (sw', w')) ->
  metric ∈ PlaceCaller_metrics ->
  exists sets cs rows,
    option_sets sw' = Some sets /\ callers sw' = Some cs /\
    length cs = length sets /\
    get_pareto_table sw' metric
      = Done (RowList (CStr metric :: map (fun o => CStr (join " " o)) sets) :: rows) /\
    length rows = length sets /\
    forall i c, cs !! i = Some c ->
      exists runtime quality row,
        get_geomean c "runtime" = Done runtime /\
        get_geomean c metric = Done quality /\
        rows !! i = Some row /\
        length (fields row) = (i + 2)%nat /\
        fields row !! 0%nat = Some (CNum runtime) /\
        fields row !! (i + 1)%nat = Some (CNum quality) /\
        (forall j, (1 <= j <= i)%nat -> fields row !! j = Some (CStr "")) /\
        (forall j, (1 <= j <= length sets)%nat ->
                   (blank_at row j = false <-> j = (i + 1)%nat)).
Proof.
  intros E Hm.
  destruct (pareto_table_rows _ _ _ _ _ _ _ metric E Hm)
    as (cs & runtime & quality & Hsets & Hcs & Hlen & Hgeo & Htable).
  eexists _, cs, _.
  split; [exact Hsets|]. split; [exact Hcs|]. split; [exact Hlen|].
  split; [exact Htable|].
  split; [by rewrite length_map, length_seq|].
  intros i c Hc.
  assert (Hi : (i < length cs)%nat) by (by eapply lookup_lt_Some).
  destruct (Hgeo i c Hc) as (Hx & Hy).
  eexists _, _, _.
  split; [exact Hx|]. split; [exact Hy|].
  split.
  { rewrite list_lookup_fmap, lookup_seq_lt by done. done. }
  simpl fields.
  split; [simpl; rewrite length_app, length_replicate; simpl; lia|].
  split; [done|].
  split.
  { replace (i + 1)%nat with (S i) by lia. simpl.
    rewrite lookup_app_r by (rewrite length_replicate; lia).
    rewrite length_replicate, Nat.sub_diag. done. }
  split.
  { intros j Hj. destruct j as [|j]; [lia|]. simpl.
    rewrite lookup_app_l by (rewrite length_replicate; lia).
    apply lookup_replicate_2. lia. }
  intros j Hj. apply blank_at_staircase. lia.
Qed.

End Pareto.

(** ** Fatal errors of a batch (call_all_circuits_with_seed) *)

Lemma bind_done {S A B} (m : M S A) (k : A -> M S B) (s s' : S) (b : B) :
  bind m k s = (Done b, s') ->
  exists a s1, m s = (Done a, s1) /\ k a s1 = (Done b, s').
Proof.
  unfold bind. destruct (m s) as [[a|e] s1]; [|done]. eauto.
Qed.

Section Abort.
Context {P : platform}.

Lemma run_circuit_stderr (cmd : loc) (toks : list string) (seed : Z)
    (circuit : string) (c1 : caller) (w1 : world P) out err fs' :
  w_heap w1 !! cmd = Some toks ->
  tool P (w_calls w1) (map (substitute circuit seed) toks) (w_fs w1) = ((out, err), fs') ->
  err ≠ "" ->
  run_circuit cmd seed circuit (c1, w1)
  = (Raised (SystemExit 1),
     (c1, world_after_failure w1 toks circuit seed out err fs'
            [err; problem_message circuit])).
Proof.
  intros Hcmd Htool Herr. unfold run_circuit.
  unfold bind at 1. unfold in_world at 1, print at 1, modify.
  unfold bind at 1. unfold in_world at 1.
  rewrite (call_circuit_runs cmd toks) by exact Hcmd.
  unfold after_call. simpl. rewrite !Htool. simpl.
  unfold bind at 1. rewrite bool_decide_true by done.
  unfold bind, in_world, print, modify, sys_exit, raise. simpl.
  unfold world_after_failure. do 3 f_equal. by rewrite <- !app_assoc.
Qed.

Lemma run_circuit_no_match (cmd : loc) (toks : list string) (seed : Z)
    (circuit : string) (c1 : caller) (w1 : world P) out fs' :
  w_heap w1 !! cmd = Some toks ->
  tool P (w_calls w1) (map (substitute circuit seed) toks) (w_fs w1) = ((out, ""), fs') ->
  re_search P (stats_regex c1) out = None ->
  run_circuit cmd seed circuit (c1, w1)
  = (Raised (SystemExit 1),
     (c1, world_after_failure w1 toks circuit seed out "" fs'
            [out; "Failed to match pattern: " +:+ stats_regex c1])).
Proof.
  intros Hcmd Htool Hre. unfold run_circuit.
  unfold bind at 1. unfold in_world at 1, print at 1, modify.
  unfold bind at 1. unfold in_world at 1.
  rewrite (call_circuit_runs cmd toks) by exact Hcmd.
  unfold after_call. simpl. rewrite !Htool. simpl.
  unfold bind at 1. unfold ret at 1. unfold bind at 1. unfold self at 1. simpl.
  rewrite Hre.
  unfold bind, in_world, print, modify, sys_exit, raise. simpl.
  unfold world_after_failure. do 3 f_equal. by rewrite <- !app_assoc.
Qed.

(** A batch ends at the first invocation that raises: the passes for the
    later circuits and seeds are not run. *)
Lemma batch_stops (cmd : loc) (N : Z) (c : caller) (w : world P)
    (spre spost : list Z) (seed : Z) (pre post : list string) (circuit : string)
    (c1 : caller) (w1 : world P) (e : exn) (s2 : caller * world P) :
  seed_sequence P N = spre ++ seed :: spost ->
  circuits c = pre ++ circuit :: post ->
  batch_before cmd N spre seed pre (c, w) = (Done tt, (c1, w1)) ->
  run_circuit cmd seed circuit (c1, w1) = (Raised e, s2) ->
  call_all_circuits cmd N (c, w) = (Raised e, s2).
Proof.
  intros Hseeds Hcircuits Hbefore Hfail.
  unfold batch_before in Hbefore.
  apply bind_done in Hbefore. destruct Hbefore as ([] & s0 & Eprep & Hbefore).
  apply bind_done in Hbefore. destruct Hbefore as ([] & [ca wa] & Epasses & Hbefore).
  apply bind_done in Hbefore. destruct Hbefore as ([] & sb & Eset & Epre).
  injection Eset as <-.
  destruct (prepare_batch_runs N c w) as (c0 & Eprep' & Hinv & _).
  rewrite Eprep in Eprep'. injection Eprep' as ->.
  assert (Ha : on_self (P:=P) (batch_inv c (seed_sequence P N)) (ca, wa)).
  { eapply (preserves_for_each _ spre (call_all_circuits_with_seed cmd));
      [intros x; apply with_seed_preserves| |exact Epasses]. exact Hinv. }
  unfold call_all_circuits. unfold bind at 1. rewrite Eprep.
  unfold bind at 1. unfold self_seeds, self, bind at 1. simpl.
  destruct Hinv as (_ & -> & _). unfold ret.
  rewrite Hseeds, for_each_app, Epasses. simpl for_each.
  unfold bind at 1. unfold call_all_circuits_with_seed.
  unfold bind at 1. unfold update_self at 1.
  unfold bind at 1. unfold self at 1. simpl circuits.
  destruct Ha as ((Hc & _) & _). simpl in Hc. rewrite Hc, Hcircuits.
  rewrite for_each_app, Epre. simpl for_each.
  unfold bind at 1. rewrite Hfail. done.
Qed.

End Abort.

(** C7.  When, in a batch, the invocation for some circuit and seed writes
    to stderr, [call_all_circuits] raises [SystemExit(1)].  The last lines
    printed are the progress line of that circuit, the stderr text and the
    message naming the circuit; that invocation is the last one executed,
    so no later circuit or seed is processed; and the caller is left as it
    was before the invocation, so it holds no sample from the failing
    invocation or a later one.  The batch never returns normally. *)
Theorem stderr_aborts_batch (P : platform) (cmd : loc) (toks : list string) (N : Z)
    (c : caller) (w : world P)
    (spre spost : list Z) (seed : Z) (pre post : list string) (circuit : string)
    (c1 : caller) (w1 : world P) (out err : string) (fs' : gmap string node) :
  seed_sequence P N = spre ++ seed :: spost ->
  circuits c = pre ++ circuit :: post ->
  batch_before cmd N spre seed pre (c, w) = (Done tt, (c1, w1)) ->
  w_heap w1 !! cmd = Some toks ->
  tool P (w_calls w1) (map (substitute circuit seed) toks) (w_fs w1) = ((out, err), fs') ->
  err ≠ "" ->
  exists w2,
    call_all_circuits cmd N (c, w) = (Raised (SystemExit 1), (c1, w2)) /\
    w_stdout w2 = w_stdout w1 ++
      ["  " +:+ circuit; err;
       problem_message circuit] /\
    w_calls w2 = w_calls w1 ++
      [{| argv := map (substitute circuit seed) toks;
          out_text := out; err_text := err |}] /\
    w_reports w2 = w_reports w1.
Proof.
  intros Hseeds Hcircuits Hbefore Hcmd Htool Herr.
  eexists. split.
  - eapply batch_stops; [exact Hseeds|exact Hcircuits|exact Hbefore|].
    by apply (run_circuit_stderr cmd toks seed circuit c1 w1 out err fs').
  - done.
Qed.

(** C8.  When, in a batch, the stdout of the invocation for some circuit
    and seed does not match the pattern (and stderr is empty),
    [call_all_circuits] raises [SystemExit(1)].  The last lines printed
    are the progress line of that circuit, the whole stdout and the
    message giving the pattern; the caller is left as it was before the
    invocation, so no value, default or other, is recorded for any metric
    of that circuit from it. *)
Theorem no_match_aborts_batch (P : platform) (cmd : loc) (toks : list string) (N : Z)
    (c : caller) (w : world P)
    (spre spost : list Z) (seed : Z) (pre post : list string) (circuit : string)
    (c1 : caller) (w1 : world P) (out : string) (fs' : gmap string node) :
  seed_sequence P N = spre ++ seed :: spost ->
  circuits c = pre ++ circuit :: post ->
  batch_before cmd N spre seed pre (c, w) = (Done tt, (c1, w1)) ->
  w_heap w1 !! cmd = Some toks ->
  tool P (w_calls w1) (map (substitute circuit seed) toks) (w_fs w1) = ((out, ""), fs') ->
  re_search P (stats_regex c) out = None ->
  exists w2,
    call_all_circuits cmd N (c, w) = (Raised (SystemExit 1), (c1, w2)) /\
    w_stdout w2 = w_stdout w1 ++
      ["  " +:+ circuit; out; "Failed to match pattern: " +:+ stats_regex c] /\
    w_calls w2 = w_calls w1 ++
      [{| argv := map (substitute circuit seed) toks;
          out_text := out; err_text := "" |}] /\
    w_reports w2 = w_reports w1.
Proof.
  intros Hseeds Hcircuits Hbefore Hcmd Htool Hre.
  assert (Hregex : stats_regex c1 = stats_regex c).
  { unfold batch_before in Hbefore.
    apply bind_done in Hbefore. destruct Hbefore as ([] & s0 & Eprep & Hbefore).
    apply bind_done in Hbefore. destruct Hbefore as ([] & [ca wa] & Epasses & Hbefore).
    apply bind_done in Hbefore. destruct Hbefore as ([] & sb & Eset & Epre).
    injection Eset as <-.
    destruct (prepare_batch_runs N c w) as (c0 & Eprep' & Hinv & _).
    rewrite Eprep in Eprep'. injection Eprep' as ->.
    assert (Ha : on_self (P:=P) (batch_inv c (seed_sequence P N)) (ca, wa)).
    { eapply (preserves_for_each _ spre (call_all_circuits_with_seed cmd));
        [intros x; apply with_seed_preserves| |exact Epasses]. exact Hinv. }
    assert (Hb : on_self (P:=P) (batch_inv c (seed_sequence P N)) (c1, w1)).
    { eapply (preserves_for_each _ pre (run_circuit cmd seed));
        [intros x; apply run_circuit_preserves| |exact Epre].
      destruct Ha as (Hc & Hs & r & Hr & Hall).
      split; [exact Hc|]. split; [exact Hs|]. exists r. done. }
    destruct Hb as ((_ & _ & Hre' & _) & _). exact Hre'. }
  eexists. split.
  - eapply batch_stops; [exact Hseeds|exact Hcircuits|exact Hbefore|].
    apply (run_circuit_no_match cmd toks seed circuit c1 w1 out fs');
      [exact Hcmd|exact Htool|by rewrite Hregex].
  - simpl. rewrite Hregex. done.
Qed.

(** The batch of [demo_caller] when the invocation for [fft] writes to stderr. *)
Lemma stderr_aborts_batch_witness :
  exists w2,
    call_all_circuits 1%positive 2 (demo_caller, demo_command_world demo_failing)
      = (Raised (SystemExit 1), ((demo_before demo_failing).2.1, w2)) /\
    w_stdout w2 = w_stdout (demo_before demo_failing).2.2 ++
      ["  " +:+ "fft"; "java.lang.OutOfMemoryError";
       problem_message "fft"] /\
    w_calls w2 = w_calls (demo_before demo_failing).2.2 ++
      [{| argv := map (substitute "fft" 1103527590)
                      (build_command "arch" "bench/{circuit}.blif" []);
          out_text := ""; err_text := "java.lang.OutOfMemoryError" |}] /\
    w_reports w2 = w_reports (demo_before demo_failing).2.2.
Proof.
  apply (stderr_aborts_batch demo_failing 1%positive
           (build_command "arch" "bench/{circuit}.blif" []) 2
           demo_caller (demo_command_world demo_failing)
           [] [377401575%Z] 1103527590 ["alu"] [] "fft"
           (demo_before demo_failing).2.1 (demo_before demo_failing).2.2
           "" "java.lang.OutOfMemoryError"
           (<["tmp" := Dir]> (w_fs (demo_before demo_failing).2.2))).
  - vm_compute. reflexivity.
  - vm_compute. reflexivity.
  - apply (run_eta (demo_before demo_failing)). vm_compute. reflexivity.
  - vm_compute. reflexivity.
  - vm_compute. reflexivity.
  - discriminate.
Defined.

(** The batch of [demo_caller] when the output for [fft] does not match. *)
Lemma no_match_aborts_batch_witness :
  exists w2,
    call_all_circuits 1%positive 2 (demo_caller, demo_command_world demo_garbled)
      = (Raised (SystemExit 1), ((demo_before demo_garbled).2.1, w2)) /\
    w_stdout w2 = w_stdout (demo_before demo_garbled).2.2 ++
      ["  " +:+ "fft"; "placement did not converge";
       "Failed to match pattern: " +:+ stats_regex demo_caller] /\
    w_calls w2 = w_calls (demo_before demo_garbled).2.2 ++
      [{| argv := map (substitute "fft" 1103527590)
                      (build_command "arch" "bench/{circuit}.blif" []);
          out_text := "placement did not converge"; err_text := "" |}] /\
    w_reports w2 = w_reports (demo_before demo_garbled).2.2.
Proof.
  apply (no_match_aborts_batch demo_garbled 1%positive
           (build_command "arch" "bench/{circuit}.blif" []) 2
           demo_caller (demo_command_world demo_garbled)
           [] [377401575%Z] 1103527590 ["alu"] [] "fft"
           (demo_before demo_garbled).2.1 (demo_before demo_garbled).2.2
           "placement did not converge"
           (<["tmp" := Dir]> (w_fs (demo_before demo_garbled).2.2))).
  - vm_compute. reflexivity.
  - vm_compute. reflexivity.
  - apply (run_eta (demo_before demo_garbled)). vm_compute. reflexivity.
  - vm_compute. reflexivity.
  - vm_compute. reflexivity.
  - vm_compute. reflexivity.
Defined.

(** The pareto table for BB cost after [demo_sweep]. *)
Lemma pareto_table_staircase_witness :
  exists sets cs rows,
    option_sets demo_sweep.2.1 = Some sets /\ callers demo_sweep.2.1 = Some cs /\
    length cs = length sets /\
    get_pareto_table demo_sweep.2.1 "BB cost"
      = Done (RowList (CStr "BB cost" :: map (fun o => CStr (join " " o)) sets) :: rows) /\
    length rows = length sets /\
    forall i c, cs !! i = Some c ->
      exists runtime quality row,
        get_geomean c "runtime" = Done runtime /\
        get_geomean c "BB cost" = Done quality /\
        rows !! i = Some row /\
        length (fields row) = (i + 2)%nat /\
        fields row !! 0%nat = Some (CNum runtime) /\
        fields row !! (i + 1)%nat = Some (CNum quality) /\
        (forall j, (1 <= j <= i)%nat -> fields row !! j = Some (CStr "")) /\
        (forall j, (1 <= j <= length sets)%nat ->
                   (blank_at row j = false <-> j = (i + 1)%nat)).
Proof.
  apply (pareto_table_staircase (P:=demo_steady) ["--effort"; "2"]
           demo_ranges 2
           demo_sweeper (world0 demo_steady ∅) demo_sweep.2.1 demo_sweep.2.2 "BB cost").
  - apply (run_eta demo_sweep). vm_compute. reflexivity.
  - vm_compute. apply list_elem_of_further, list_elem_of_here.
Defined.

(** ** The per-circuit table (get_results) *)

#[local] Instance str_le_total : Total str_le.
Proof.
  intros a b. unfold str_le. destruct (String.leb_total a b) as [H|H]; rewrite H; auto.
Qed.

Lemma sorted_is_sorted (keys : list string) :
  Sorted str_le (sorted keys) /\ sorted keys ≡ₚ keys.
Proof.
  split; [apply Sorted_merge_sort; apply _ | apply merge_sort_Permutation].
Qed.

Section Tables.
Context {P : platform}.

(** With [geomean] unbound, the first cell [get_results] computes raises
    [NameError]. *)
Lemma get_results_unbound (c : caller) (w : world P) cmd toks r :
  command c = Some cmd -> w_heap w !! cmd = Some toks ->
  results c = Some r -> r ≠ ∅ -> metrics c ≠ [] ->
  get_results module_globals c w = Raised (NameError "geomean").
Proof.
  intros Hcmd Hheap Hr Hne Hms.
  unfold get_results, get_command, get_results_attr. rewrite Hcmd, Hheap, Hr. simpl.
  destruct (sorted (map_to_list r).*1) as [|circuit rest] eqn:E.
  - exfalso. apply Hne. apply map_to_list_empty_iff.
    destruct (sorted_is_sorted (map_to_list r).*1) as (_ & Hperm).
    rewrite E in Hperm. apply Permutation_nil_l in Hperm. symmetry in Hperm.
    by apply fmap_nil_inv in Hperm.
  - simpl. unfold circuit_row at 1.
    destruct (metrics c) as [|m ms]; [done|]. simpl. done.
Qed.

(** With [geomean] bound, a populated caller gives the header row and one
    row per circuit, in ascending order of the names. *)
Lemma get_results_when_bound (g : globals) (f : list R -> R) (c : caller) (w : world P)
    cmd toks r :
  g_geomean g = Some f ->
  command c = Some cmd -> w_heap w !! cmd = Some toks ->
  results c = Some r ->
  (forall circuit by_metric metric, r !! circuit = Some by_metric ->
     metric ∈ metrics c -> is_Some (by_metric !! metric)) ->
  exists names rows,
    get_results g c w
    = Done (RowList ([CStr "benchmark"] ++ map CStr (metrics c) ++ [CStr (join " " toks)])
            :: rows) /\
    Sorted str_le names /\ names ≡ₚ (map_to_list r).*1 /\
    Forall2 (fun name row =>
               exists cells, row = RowList (CStr name :: cells) /\
                 Forall2 (fun metric cell =>
                            exists l, samples_of c name metric = Done l /\
                                      cell = CNum (f l))
                         (metrics c) cells)
            names rows.
Proof.
  intros Hg Hcmd Hheap Hr Hall.
  unfold get_results, get_command, get_results_attr. rewrite Hcmd, Hheap, Hr. simpl.
  destruct (sorted_is_sorted (map_to_list r).*1) as (Hsorted & Hperm).
  set (names := sorted (map_to_list r).*1) in *.
  assert (Hkeys : forall name, name ∈ names -> is_Some (r !! name)).
  { intros name Hn. rewrite Hperm in Hn. apply list_elem_of_fmap in Hn.
    destruct Hn as ([k v] & -> & Hkv). apply elem_of_map_to_list in Hkv.
    simpl. eauto. }
  assert (Hrows : forall ns, (forall name, name ∈ ns -> is_Some (r !! name)) ->
            exists rows,
            omap (circuit_row g c) ns = Done rows /\
            Forall2 (fun name row =>
               exists cells, row = RowList (CStr name :: cells) /\
                 Forall2 (fun metric cell =>
                            exists l, samples_of c name metric = Done l /\
                                      cell = CNum (f l))
                         (metrics c) cells) ns rows).
  { clear Hkeys Hsorted Hperm names.
    induction ns as [|name ns IH]; intros Hkeys.
    - exists []. split; [done|constructor].
    - destruct IH as (rows & Erows & Frows).
      { intros x Hx. apply Hkeys. by right. }
      destruct (Hkeys name) as [bm Hbm]; [by left|].
      assert (Hcells : forall ms, (forall m, m ∈ ms -> m ∈ metrics c) ->
                exists cells,
                  omap (fun metric =>
                          obind (global_geomean g) (fun geomean =>
                          obind (samples_of c name metric) (fun l =>
                          Done (CNum (geomean l))))) ms = Done cells /\
                  Forall2 (fun metric cell =>
                             exists l, samples_of c name metric = Done l /\
                                       cell = CNum (f l)) ms cells).
      { induction ms as [|m ms IHm]; intros Hsub.
        - exists []. split; [done|constructor].
        - destruct IHm as (cells & Ecells & Fcells).
          { intros x Hx. apply Hsub. by right. }
          destruct (Hall name bm m Hbm) as [l Hl]; [apply Hsub; by left|].
          assert (Hs : samples_of c name m = Done l).
          { unfold samples_of, get_results_attr, getitem. rewrite Hr. simpl.
            rewrite Hbm. simpl. by rewrite Hl. }
          exists (CNum (f l) :: cells). split.
          + simpl. unfold global_geomean at 1. rewrite Hg. simpl. rewrite Hs. simpl.
            rewrite Ecells. done.
          + constructor; [eauto|exact Fcells]. }
      destruct (Hcells (metrics c)) as (cells & Ecells & Fcells); [done|].
      exists (RowList (CStr name :: cells) :: rows). split.
      + simpl. unfold circuit_row at 1. rewrite Ecells. simpl. rewrite Erows. done.
      + constructor; [eauto|exact Frows]. }
  destruct (Hrows names Hkeys) as (rows & Erows & Frows).
  exists names, rows. rewrite Erows. simpl. done.
Qed.

End Tables.

(** C5.  [get_results] does not return a table: its body calls the name
    [geomean], which nothing in the module binds, so on a caller populated
    by a batch it raises [NameError].  (The sibling [get_geomean] uses
    [stats.gmean], which is imported.) *)
Theorem get_results_raises_name_error :
  demo_batch.1 = Done tt /\
  get_results module_globals demo_batch.2.1 demo_batch.2.2
  = Raised (NameError "geomean").
Proof. split; vm_compute; reflexivity. Qed.

(** ** Scratch cleanup (silentremove, place_all) *)

Section Cleanup.
Context {P : platform}.



(** [silentremove] ignores a missing path ... *)
Lemma silentremove_absent (filename : string) (w : world P) :
  under_a_file (w_fs w) filename = false ->
  w_fs w !! filename = None -> silentremove filename w = (Done tt, w).
Proof.
  intros Hu H. unfold silentremove, os_remove. rewrite Hu, H.
  destruct (decide (ENOENT ≠ ENOENT)); [done|done].
Qed.




(** [place_all] removes [tmp] with [shutil.rmtree], which raises when
    there is no such directory: a batch without seeds, which runs no tool,
    fails in a directory without [tmp]. *)
Lemma place_all_without_scratch (options : list string) (c : caller) (w : world P) :
  w_fs w !! "tmp" = None ->
  (place_all options 0 (c, w)).1 = Raised (OSError ENOENT).
Proof.
  intros Hfs. unfold place_all. unfold bind at 1. unfold self at 1. simpl.
  unfold bind at 1. unfold in_world at 1, new_list.
  unfold bind at 1. unfold call_all_circuits. unfold bind at 1.
  match goal with
  | |- context [prepare_batch 0 (?c1, ?w1)] =>
      destruct (prepare_batch_runs 0 c1 w1) as (c2 & -> & (_ & Hs & _) & _)
  end.
  unfold bind at 1. unfold self_seeds, self, bind at 1. simpl.
  rewrite Hs. unfold ret. simpl.
  unfold in_world, shutil_rmtree. simpl. rewrite Hfs. done.
Qed.

End Cleanup.

(** C9.  The cleanup of [place_all] is not idempotent: with no [tmp] in
    the working directory and nothing that creates one, [place_all] raises
    [OSError(ENOENT)] from [shutil.rmtree], while the same call with [tmp]
    present returns.  [silentremove], which ignores [ENOENT], is not
    called. *)
Theorem place_all_scratch_absent_raises :
  (place_all [] 0 (demo_caller, world0 demo_idle ∅)).1 = Raised (OSError ENOENT) /\
  (place_all [] 0 (demo_caller, world0 demo_idle {[ "tmp" := Dir ]})).1 = Done tt /\
  silentremove "tmp" (world0 demo_idle ∅) = (Done tt, world0 demo_idle ∅).
Proof.
  split; [vm_compute; reflexivity|]. split; [vm_compute; reflexivity|].
  apply silentremove_absent; reflexivity.
Qed.

(** ** The sweep report (ParameterSweeper.save_results) *)

Section Report.
Context {P : platform}.




End Report.



(** * Properties of the remaining code *)

(** ** silentremove *)



(** ** Placeholder substitution (call_circuit) *)

Lemma startswith_first (a : ascii) (p s : string) :
  has_char a s = false -> startswith (String a p) s = false.
Proof.
  destruct s as [|b s]; simpl; [done|].
  intros H. apply orb_false_iff in H. destruct H as [H _].
  apply bool_decide_eq_false in H. by destruct (decide (a = b)).
Qed.

(** Text in which the first character of [old] does not occur is left as
    it is. *)
Lemma replace_free (a : ascii) (p new s : string) :
  has_char a s = false -> replace (String a p) new s = s.
Proof.
  unfold replace. induction s as [|b s IH]; intros H; [done|].
  cbn [replace_from]. rewrite (startswith_first a p (String b s) H).
  simpl in H. apply orb_false_iff in H. destruct H as [_ H].
  by rewrite IH.
Qed.

Lemma replace_app_free (a : ascii) (p new t s : string) :
  has_char a t = false ->
  replace (String a p) new (t +:+ s) = t +:+ replace (String a p) new s.
Proof.
  unfold replace. induction t as [|b t IH]; intros H; [done|].
  change (String b t +:+ s) with (String b (t +:+ s)).
  cbn [replace_from].
  assert (Hs : startswith (String a p) (String b (t +:+ s)) = false).
  { simpl. simpl in H. apply orb_false_iff in H. destruct H as [H _].
    apply bool_decide_eq_false in H. by destruct (decide (a = b)). }
  rewrite Hs. simpl in H. apply orb_false_iff in H. destruct H as [_ H].
  rewrite IH by done. done.
Qed.

Lemma has_char_app (a : ascii) (s t : string) :
  has_char a (s +:+ t) = has_char a s || has_char a t.
Proof.
  induction s as [|b s IH]; simpl; [done|]. by rewrite IH, orb_assoc.
Qed.

Lemma replace_circuit_hole (new rest : string) :
  replace "{circuit}" new ("{circuit}" +:+ rest) = new +:+ replace "{circuit}" new rest.
Proof. reflexivity. Qed.

Lemma replace_circuit_over_seed (new rest : string) :
  replace "{circuit}" new ("{seed}" +:+ rest) = "{seed}" +:+ replace "{circuit}" new rest.
Proof. reflexivity. Qed.

Lemma replace_seed_hole (new rest : string) :
  replace "{seed}" new ("{seed}" +:+ rest) = new +:+ replace "{seed}" new rest.
Proof. reflexivity. Qed.

(** The text after the first pass, which fills in the circuit. *)
Lemma replace_circuit_template (circuit : string) (ps : list piece) :
  Forall text_brace_free ps ->
  replace "{circuit}" circuit (template_text ps)
  = template_text (map (fun p => match p with
                                 | CircuitHole => Text circuit
                                 | _ => p
                                 end) ps).
Proof.
  induction 1 as [|p ps Hp _ IH]; [done|].
  destruct p as [s| |]; cbn [template_text map].
  - rewrite replace_app_free by exact Hp. by rewrite IH.
  - rewrite replace_circuit_hole. by rewrite IH.
  - rewrite replace_circuit_over_seed. by rewrite IH.
Qed.

Lemma replace_seed_template (seed : Z) (circuit : string) (ps : list piece) :
  Forall text_brace_free ps -> brace_free circuit ->
  replace "{seed}" (str_int seed)
    (template_text (map (fun p => match p with
                                  | CircuitHole => Text circuit
                                  | _ => p
                                  end) ps))
  = filled_text circuit seed ps.
Proof.
  intros Hps Hc. induction Hps as [|p ps Hp _ IH]; [done|].
  destruct p as [s| |]; cbn [template_text filled_text map].
  - rewrite replace_app_free by exact Hp. by rewrite IH.
  - rewrite replace_app_free by exact Hc. by rewrite IH.
  - rewrite replace_seed_hole. by rewrite IH.
Qed.

(** X2.  For a token made of literal text and any number of [{circuit}]
    and [{seed}] placeholders in any order, where neither the text nor the
    circuit name holds an opening brace, the substitution of [call_circuit]
    fills in every placeholder and leaves the text as it is; a token
    without an opening brace is passed on unchanged. *)
Theorem substitute_template (circuit : string) (seed : Z) (ps : list piece)
    (tok : string) :
  Forall text_brace_free ps -> brace_free circuit -> brace_free tok ->
  substitute circuit seed (template_text ps) = filled_text circuit seed ps /\
  substitute circuit seed tok = tok.
Proof.
  intros Hps Hc Htok. unfold substitute. split.
  - rewrite replace_circuit_template by exact Hps.
    by apply replace_seed_template.
  - rewrite (replace_free "{" "circuit}" circuit tok Htok).
    by apply (replace_free "{" "seed}").
Qed.

(** The placeholders in one token and in separate tokens. *)
Lemma substitute_template_witness :
  substitute "alu" 7
    (template_text [Text "tmp/"; CircuitHole; Text "."; SeedHole; Text ".place"])
  = filled_text "alu" 7 [Text "tmp/"; CircuitHole; Text "."; SeedHole; Text ".place"] /\
  substitute "alu" 7 "--random_seed" = "--random_seed".
Proof.
  apply (substitute_template "alu" 7
           [Text "tmp/"; CircuitHole; Text "."; SeedHole; Text ".place"]
           "--random_seed").
  - repeat constructor.
  - reflexivity.
  - reflexivity.
Defined.

(** ** The circuit list (Caller.__init__) *)

Lemma split_nonempty (sep : ascii) (s : string) : split sep s ≠ [].
Proof.
  destruct s as [|a s]; simpl; [done|].
  destruct (decide (a = sep)); [done|]. by destruct (split sep s).
Qed.

Lemma join_cons (sep p : string) (ps : list string) :
  ps ≠ [] -> join sep (p :: ps) = p +:+ sep +:+ join sep ps.
Proof. destruct ps; [done|]. done. Qed.

(** [sep.join(s.split(sep)) == s] *)
Lemma join_split (sep : ascii) (s : string) :
  join (String sep "") (split sep s) = s.
Proof.
  induction s as [|a s IH]; [done|]. simpl split.
  destruct (decide (a = sep)) as [->|Hne].
  - rewrite join_cons by apply split_nonempty. rewrite IH. done.
  - pose proof (split_nonempty sep s) as Hs.
    destruct (split sep s) as [|w ws]; [done|].
    destruct ws as [|w' ws].
    + simpl in *. by rewrite IH.
    + rewrite join_cons by done. rewrite join_cons in IH by done.
      rewrite <- IH. reflexivity.
Qed.

Lemma split_pieces_free (sep : ascii) (s : string) :
  Forall (fun p => has_char sep p = false) (split sep s).
Proof.
  induction s as [|a s IH]; simpl.
  - by constructor.
  - destruct (decide (a = sep)) as [->|Hne]; [by constructor|].
    destruct (split sep s) as [|w ws]; [repeat constructor|].
    + simpl. rewrite orb_false_r. apply bool_decide_eq_false. congruence.
    + inversion IH as [|? ? Hw Hws]; subst. constructor; [|exact Hws].
      simpl. rewrite Hw, orb_false_r. apply bool_decide_eq_false. congruence.
Qed.

Lemma split_length (sep : ascii) (s : string) :
  length (split sep s) = S (count_char sep s).
Proof.
  induction s as [|a s IH]; [done|]. simpl.
  destruct (decide (a = sep)); simpl; [by rewrite IH|].
  destruct (split sep s) as [|w ws]; simpl in *; [done|exact IH].
Qed.

(** X3.  The circuit list of a caller is the [circuits] string cut at
    every space: it has one name more than the string has spaces (an empty
    string gives one circuit with the empty name, two adjacent spaces an
    empty name between them), no name holds a space, and the names joined
    by spaces give the string back. *)
Theorem caller_circuits_split (arch circuits_folder names : string) :
  let c := PlaceCaller arch circuits_folder names in
  length (circuits c) = S (count_char " " names) /\
  Forall (fun name => has_char " "%char name = false) (circuits c) /\
  join " " (circuits c) = names.
Proof.
  simpl. split; [apply split_length|].
  split; [apply split_pieces_free|apply (join_split " ")].
Qed.

(** ** The sample table (call_all_circuits) *)

Lemma foldl_insert_lookup {V} (v : V) (ks : list string) :
  forall (acc : gmap string V) (k : string),
    foldl (fun m x => <[x := v]> m) acc ks !! k
    = if decide (k ∈ ks) then Some v else acc !! k.
Proof.
  induction ks as [|x ks IH]; intros acc k; simpl.
  - destruct (decide (k ∈ [])) as [H|_]; [by apply elem_of_nil in H|done].
  - rewrite IH. destruct (decide (k ∈ ks)) as [Hin|Hnin].
    + rewrite decide_True by (by right). done.
    + destruct (decide (x = k)) as [->|Hne].
      * rewrite lookup_insert_eq. rewrite decide_True by left. done.
      * rewrite lookup_insert_ne by done.
        rewrite decide_False; [done|].
        intros H. apply elem_of_cons in H. destruct H; congruence.
Qed.

Lemma empty_lists_lookup (ms : list string) (m : string) :
  empty_lists ms !! m = if decide (m ∈ ms) then Some [] else None.
Proof. unfold empty_lists. by rewrite foldl_insert_lookup, lookup_empty. Qed.

Lemma empty_table_lookup (cs ms : list string) (circuit : string) :
  empty_table cs ms !! circuit
  = if decide (circuit ∈ cs) then Some (empty_lists ms) else None.
Proof. unfold empty_table. by rewrite foldl_insert_lookup, lookup_empty. Qed.

Section Table.
Context {P : platform}.

Lemma init_metrics_loop (c : caller) (w : world P) r0 circuit (ms : list string) :
  forall by_metric,
    for_each ms (init_metric circuit) (set_results (<[circuit := by_metric]> r0) c, w)
    = (Done tt,
       (set_results (<[circuit := foldl (fun b m => <[m := []]> b) by_metric ms]> r0) c,
        w)).
Proof.
  induction ms as [|m ms IH]; intros by_metric; [done|].
  simpl for_each. unfold bind.
  rewrite (init_metric_runs _ w (<[circuit := by_metric]> r0) circuit by_metric m);
    [|done|apply lookup_insert_eq].
  rewrite insert_insert_eq.
  change (set_results ?x (set_results ?y c)) with (set_results x c).
  apply IH.
Qed.

Lemma init_circuit_exact (c : caller) (w : world P) r circuit :
  results c = Some r ->
  init_circuit circuit (c, w)
  = (Done tt, (set_results (<[circuit := empty_lists (metrics c)]> r) c, w)).
Proof.
  intros Hr. unfold init_circuit, self_results, self, bind. simpl. rewrite Hr.
  unfold ret, update_self. simpl.
  apply (init_metrics_loop c w r circuit (metrics c) ∅).
Qed.

Lemma init_circuits_loop (c : caller) (w : world P) (cs : list string) :
  forall r,
    for_each cs init_circuit (set_results r c, w)
    = (Done tt,
       (set_results (foldl (fun r x => <[x := empty_lists (metrics c)]> r) r cs) c, w)).
Proof.
  induction cs as [|x cs IH]; intros r; [done|].
  simpl for_each. unfold bind.
  rewrite (init_circuit_exact (set_results r c) w r x) by done.
  change (set_results ?x (set_results ?y c)) with (set_results x c).
  apply IH.
Qed.

(** The preparation, exactly: whatever the caller held, it now holds the
    empty table and the seed sequence. *)
Lemma prepare_batch_exact (N : Z) (c : caller) (w : world P) :
  prepare_batch N (c, w)
  = (Done tt,
     (set_seeds (seed_sequence P N)
                (set_results (empty_table (circuits c) (metrics c)) c),
      set_rng (after_draws P (Z.to_nat N) (rng_seed P 1)) w)).
Proof.
  unfold prepare_batch. unfold bind at 1. unfold update_self at 1.
  unfold bind at 1. unfold self at 1. simpl circuits.
  unfold bind at 1. rewrite init_circuits_loop.
  unfold bind at 1. unfold in_world at 1, random_seed, modify.
  unfold bind at 1. unfold in_world at 1, draw_seeds.
  rewrite draw_seeds_runs. simpl. done.
Qed.

(** Recording a sample changes nothing but the table, and there only the
    list of its circuit and metric, which gets one more element. *)
Lemma record_metric_effect circuit groups metric (c : caller) (w : world P) r c' w' :
  record_metric circuit groups metric (c, w) = (r, (c', w')) ->
  w' = w /\ same_but_results c c' /\
  (keyed c -> keyed c') /\
  (r = Done tt ->
   forall ci m, sample_count c' ci m
                = (sample_count c ci m
                   + if decide (ci = circuit /\ m = metric) then 1 else 0)%nat).
Proof.
  unfold record_metric, self_results, self, bind, lift, getitem. simpl.
  destruct (results c) as [res|] eqn:Hres;
    [|intros [= <- <- <-]; repeat split; done].
  unfold ret. destruct (res !! circuit) as [bm|] eqn:Hbm;
    [|intros [= <- <- <-]; repeat split; done].
  destruct (bm !! metric) as [smp|] eqn:Hsmp;
    [|intros [= <- <- <-]; repeat split; done].
  destruct (groups _) as [text|]; [|intros [= <- <- <-]; repeat split; done].
  destruct (py_float P text) as [x|]; [|intros [= <- <- <-]; repeat split; done].
  intros [= <- <- <-]. split; [done|]. split; [repeat split; done|]. split.
  - intros (r & Hr & Hc & Hm). rewrite Hres in Hr. injection Hr as <-.
    eexists. split; [reflexivity|]. simpl. split.
    + intros ci. rewrite <- Hc. destruct (decide (circuit = ci)) as [<-|Hne].
      * rewrite lookup_insert_eq, Hbm. split; eauto.
      * by rewrite lookup_insert_ne.
    + intros ci bm' Hbm' m. destruct (decide (circuit = ci)) as [<-|Hne].
      * rewrite lookup_insert_eq in Hbm'. injection Hbm' as <-.
        rewrite <- (Hm circuit bm Hbm m).
        destruct (decide (metric = m)) as [<-|Hnm].
        -- rewrite lookup_insert_eq, Hsmp. split; eauto.
        -- by rewrite lookup_insert_ne.
      * rewrite lookup_insert_ne in Hbm' by done. by apply (Hm ci).
  - intros _ ci m. unfold sample_count, samples_of, get_results_attr, getitem.
    simpl. rewrite Hres. simpl.
    destruct (decide (circuit = ci)) as [<-|Hne].
    + rewrite lookup_insert_eq, Hbm. simpl.
      destruct (decide (metric = m)) as [<-|Hnm].
      * rewrite lookup_insert_eq, Hsmp. rewrite decide_True by done.
        rewrite length_app. simpl. done.
      * rewrite lookup_insert_ne by done.
        rewrite decide_False by (intros [_ ?]; congruence).
        by rewrite Nat.add_0_r.
    + rewrite lookup_insert_ne by done.
      rewrite decide_False by (intros [? _]; congruence).
      by rewrite Nat.add_0_r.
Qed.

End Table.

Lemma occurrences_cons (x y : string) (l : list string) :
  occurrences x (y :: l) = ((if decide (y = x) then 1 else 0) + occurrences x l)%nat.
Proof.
  unfold occurrences. rewrite filter_cons.
  destruct (decide (y = x)); simpl; done.
Qed.

Lemma same_but_results_refl (c : caller) : same_but_results c c.
Proof. repeat split; done. Qed.

Lemma same_but_results_trans (c1 c2 c3 : caller) :
  same_but_results c1 c2 -> same_but_results c2 c3 -> same_but_results c1 c3.
Proof.
  intros ((A1 & A2 & A3 & A4 & A5) & A6 & A7) ((B1 & B2 & B3 & B4 & B5) & B6 & B7).
  repeat split; congruence.
Qed.

Section Effects.
Context {P : platform}.

Lemma invoked_refl (toks : list string) (w : world P) : invoked toks w w [].
Proof.
  split; [done|]. split; [exists []; by rewrite app_nil_r|].
  split; [by rewrite app_nil_r|done].
Qed.

Lemma invoked_trans (toks : list string) (w0 w1 w2 : world P) i1 i2 :
  invoked toks w0 w1 i1 -> invoked toks w1 w2 i2 -> invoked toks w0 w2 (i1 ++ i2).
Proof.
  intros (H1 & (n1 & C1 & A1 & E1) & S1 & R1 & T1)
         (H2 & (n2 & C2 & A2 & E2) & S2 & R2 & T2).
  split; [intros l ts Hl; by apply H2, H1|].
  split.
  { exists (n1 ++ n2). rewrite C2, C1, <- app_assoc. split; [done|].
    split; [by rewrite !map_app, A1, A2 | by apply Forall_app]. }
  split; [by rewrite S2, S1, map_app, <- app_assoc|].
  split; congruence.
Qed.

Lemma record_loop_effect circuit groups (ms : list string) :
  forall (c : caller) (w : world P) r c' w',
    for_each ms (record_metric circuit groups) (c, w) = (r, (c', w')) ->
    w' = w /\ same_but_results c c' /\
    (keyed c -> keyed c') /\
    (r = Done tt ->
     forall ci m, sample_count c' ci m
                  = (sample_count c ci m
                     + if decide (ci = circuit) then occurrences m ms else 0)%nat).
Proof.
  induction ms as [|x ms IH]; intros c w r c' w'; simpl.
  - unfold ret. intros [= <- <- <-]. split; [done|].
    split; [apply same_but_results_refl|]. split; [done|].
    intros _ ci m. unfold occurrences. simpl. destruct (decide _); lia.
  - unfold bind.
    destruct (record_metric circuit groups x (c, w)) as [[[]|e] [c1 w1]] eqn:E1.
    + destruct (record_metric_effect _ _ _ _ _ _ _ _ E1) as (-> & S1 & K1 & N1).
      intros E2. destruct (IH _ _ _ _ _ E2) as (-> & S2 & K2 & N2).
      split; [done|]. split; [by eapply same_but_results_trans|].
      split; [by auto|].
      intros Hr ci m. rewrite (N2 Hr), (N1 eq_refl), occurrences_cons.
      destruct (decide (ci = circuit)) as [->|Hne].
      * destruct (decide (x = m)) as [->|Hxm].
        -- rewrite decide_True by done. lia.
        -- rewrite decide_False by (intros [_ ?]; congruence). lia.
      * rewrite decide_False by (intros [? _]; congruence). lia.
    + intros [= <- <- <-].
      destruct (record_metric_effect _ _ _ _ _ _ _ _ E1) as (-> & S1 & K1 & _).
      repeat split; try done; apply S1.
Qed.

(** One pass of the circuit loop, seen from the caller. *)
Lemma run_circuit_caller cmd seed circuit (c : caller) (w : world P) r c' w' :
  run_circuit cmd seed circuit (c, w) = (r, (c', w')) ->
  same_but_results c c' /\
  (keyed c -> keyed c') /\
  (r = Done tt ->
   forall ci m, sample_count c' ci m
                = (sample_count c ci m
                   + if decide (ci = circuit) then occurrences m (metrics c) else 0)%nat).
Proof.
  unfold run_circuit. unfold bind at 1. unfold in_world at 1, print at 1, modify.
  unfold bind at 1. unfold in_world at 1.
  destruct (call_circuit cmd circuit seed _) as [[[out err]|e] w1]; simpl.
  2:{ intros [= <- <- <-]. split; [apply same_but_results_refl|done]. }
  unfold bind at 1.
  destruct (bool_decide (err ≠ "")).
  { unfold bind, in_world, print, modify, sys_exit, raise. simpl.
    intros [= <- <- <-]. split; [apply same_but_results_refl|done]. }
  unfold ret at 1. unfold bind at 1. unfold self at 1. simpl.
  destruct (re_search P (stats_regex c) out) as [groups|].
  - intros E. destruct (record_loop_effect _ _ _ _ _ _ _ _ E) as (_ & S & K & N).
    done.
  - unfold bind, in_world, print, modify, sys_exit, raise. simpl.
    intros [= <- <- <-]. split; [apply same_but_results_refl|done].
Qed.

(** One pass of the circuit loop that returns, seen from the world. *)
Lemma run_circuit_invoked cmd toks seed circuit (c : caller) (w : world P) c' w' :
  w_heap w !! cmd = Some toks ->
  run_circuit cmd seed circuit (c, w) = (Done tt, (c', w')) ->
  invoked toks w w' [(seed, circuit)].
Proof.
  intros Hcmd. unfold run_circuit.
  unfold bind at 1. unfold in_world at 1, print at 1, modify.
  unfold bind at 1. unfold in_world at 1.
  rewrite (call_circuit_runs cmd toks) by exact Hcmd.
  unfold after_call. simpl.
  destruct (tool P (w_calls w) (map (substitute circuit seed) toks) (w_fs w))
    as [[out err] fs'] eqn:Htool. simpl.
  unfold bind at 1.
  destruct (bool_decide (err ≠ "")) eqn:Herr.
  { unfold bind, in_world, print, modify, sys_exit, raise. simpl. done. }
  apply bool_decide_eq_false in Herr.
  assert (Herr' : err = "") by (destruct (decide (err = "")); [done|by destruct Herr]).
  unfold ret at 1. unfold bind at 1. unfold self at 1. simpl.
  destruct (re_search P (stats_regex c) out) as [groups|].
  2:{ unfold bind, in_world, print, modify, sys_exit, raise. simpl. done. }
  intros E. destruct (record_loop_effect _ _ _ _ _ _ _ _ E) as (-> & _).
  split.
  { simpl. intros l ts Hl. rewrite lookup_insert_ne; [done|].
    intros Heq. apply (is_fresh (dom (w_heap w))). rewrite Heq.
    apply elem_of_dom. eauto. }
  split.
  { simpl. eexists. split; [reflexivity|]. split; [done|].
    constructor; [exact Herr'|constructor]. }
  done.
Qed.

End Effects.

Section BatchEffects.
Context {P : platform}.

(** The circuit loop of one seed. *)
Lemma circuits_loop_effect cmd seed (cs : list string) :
  forall (c : caller) (w : world P) r c' w',
    for_each cs (run_circuit cmd seed) (c, w) = (r, (c', w')) ->
    same_but_results c c' /\
    (keyed c -> keyed c') /\
    (r = Done tt ->
     (forall ci m, sample_count c' ci m
                   = (sample_count c ci m
                      + occurrences ci cs * occurrences m (metrics c))%nat) /\
     (forall toks, w_heap w !! cmd = Some toks ->
                   invoked toks w w' (map (fun circuit => (seed, circuit)) cs))).
Proof.
  induction cs as [|x cs IH]; intros c w r c' w'; simpl.
  - unfold ret. intros [= <- <- <-].
    split; [apply same_but_results_refl|]. split; [done|].
    intros _. split; [intros ci m; unfold occurrences; simpl; lia|].
    intros toks _. apply invoked_refl.
  - unfold bind.
    destruct (run_circuit cmd seed x (c, w)) as [[[]|e] [c1 w1]] eqn:E1.
    + destruct (run_circuit_caller _ _ _ _ _ _ _ _ E1) as (S1 & K1 & N1).
      intros E2. destruct (IH _ _ _ _ _ E2) as (S2 & K2 & N2).
      split; [by eapply same_but_results_trans|]. split; [by auto|].
      intros Hr. destruct (N2 Hr) as (N2a & N2b). split.
      * intros ci m. rewrite N2a, (N1 eq_refl), occurrences_cons.
        destruct S1 as ((_ & -> & _) & _).
        destruct (decide (ci = x)) as [->|Hne].
        -- rewrite decide_True by done. lia.
        -- rewrite decide_False by congruence. lia.
      * intros toks Hcmd.
        pose proof (run_circuit_invoked _ _ _ _ _ _ _ _ Hcmd E1) as I1.
        apply (invoked_trans toks w w1 w' [(seed, x)] _ I1).
        apply N2b. destruct I1 as (Hh & _). by apply Hh.
    + intros [= <- <- <-].
      destruct (run_circuit_caller _ _ _ _ _ _ _ _ E1) as (S1 & K1 & _).
      done.
Qed.

(** [call_all_circuits_with_seed] *)
Lemma with_seed_effect cmd seed (c : caller) (w : world P) r c' w' :
  call_all_circuits_with_seed cmd seed (c, w) = (r, (c', w')) ->
  same_config c c' /\ seeds c' = seeds c /\ command c' = Some cmd /\
  (keyed c -> keyed c') /\
  (r = Done tt ->
   (forall ci m, sample_count c' ci m
                 = (sample_count c ci m
                    + occurrences ci (circuits c) * occurrences m (metrics c))%nat) /\
   (forall toks, w_heap w !! cmd = Some toks ->
                 invoked toks w w' (map (fun circuit => (seed, circuit)) (circuits c)))).
Proof.
  unfold call_all_circuits_with_seed. unfold bind at 1. unfold update_self at 1.
  unfold bind at 1. unfold self at 1. simpl.
  intros E. destruct (circuits_loop_effect _ _ _ _ _ _ _ _ E) as (S & K & N).
  destruct S as (Hcfg & Hs & Hcmd). simpl in *.
  split; [exact Hcfg|]. split; [exact Hs|]. split; [exact Hcmd|].
  split.
  { intros (r0 & Hr0 & Hk). apply K. exists r0. done. }
  exact N.
Qed.

(** The seed loop of [call_all_circuits]. *)
Lemma seeds_loop_effect cmd (l : list Z) :
  forall (c : caller) (w : world P) r c' w',
    for_each l (call_all_circuits_with_seed cmd) (c, w) = (r, (c', w')) ->
    same_config c c' /\ seeds c' = seeds c /\
    command c' = (if l is [] then command c else Some cmd) /\
    (keyed c -> keyed c') /\
    (r = Done tt ->
     (forall ci m, sample_count c' ci m
                   = (sample_count c ci m
                      + length l * (occurrences ci (circuits c)
                                    * occurrences m (metrics c)))%nat) /\
     (forall toks, w_heap w !! cmd = Some toks ->
                   invoked toks w w' (batch_invocations l (circuits c)))).
Proof.
  induction l as [|seed l IH]; intros c w r c' w'; simpl.
  - unfold ret. intros [= <- <- <-].
    split; [done|]. split; [done|]. split; [done|]. split; [done|].
    intros _. split; [intros ci m; lia|intros toks _; apply invoked_refl].
  - unfold bind.
    destruct (call_all_circuits_with_seed cmd seed (c, w)) as [[[]|e] [c1 w1]] eqn:E1.
    + destruct (with_seed_effect _ _ _ _ _ _ _ E1) as (C1 & S1 & M1 & K1 & N1).
      intros E2. destruct (IH _ _ _ _ _ E2) as (C2 & S2 & M2 & K2 & N2).
      assert (Hcfg : same_config c c').
      { destruct C1 as (A1 & A2 & A3 & A4 & A5), C2 as (B1 & B2 & B3 & B4 & B5).
        repeat split; congruence. }
      split; [exact Hcfg|]. split; [congruence|].
      split; [destruct l; congruence|]. split; [by auto|].
      intros Hr. destruct (N1 eq_refl) as (N1a & N1b).
      destruct (N2 Hr) as (N2a & N2b).
      destruct C1 as (Hc1 & Hm1 & _). split.
      * intros ci m. rewrite N2a, N1a, Hc1, Hm1. lia.
      * intros toks Hcmd. unfold batch_invocations. simpl.
        pose proof (N1b toks Hcmd) as I1.
        apply (invoked_trans toks w w1 w' _ _ I1).
        rewrite <- Hc1. apply N2b. destruct I1 as (Hh & _). by apply Hh.
    + intros [= <- <- <-].
      destruct (with_seed_effect _ _ _ _ _ _ _ E1) as (C1 & S1 & M1 & K1 & _).
      done.
Qed.

Lemma keyed_empty_table (c : caller) l :
  keyed (set_seeds l (set_results (empty_table (circuits c) (metrics c)) c)).
Proof.
  eexists. split; [reflexivity|]. simpl. split.
  - intros circuit. rewrite empty_table_lookup.
    destruct (decide (circuit ∈ circuits c)); split; try done; eauto;
      by intros [? ?].
  - intros circuit bm. rewrite empty_table_lookup.
    destruct (decide (circuit ∈ circuits c)); [|done].
    intros [= <-] metric. rewrite empty_lists_lookup.
    destruct (decide (metric ∈ metrics c)); split; try done; eauto;
      by intros [? ?].
Qed.

Lemma sample_count_empty_table (c : caller) l ci m :
  sample_count (set_seeds l (set_results (empty_table (circuits c) (metrics c)) c)) ci m
  = 0%nat.
Proof.
  unfold sample_count, samples_of, get_results_attr, getitem. simpl.
  rewrite empty_table_lookup. destruct (decide (ci ∈ circuits c)); [|done].
  simpl. rewrite empty_lists_lookup. by destruct (decide (m ∈ metrics c)).
Qed.

(** Everything a batch does, in one statement. *)
Lemma call_all_circuits_effect cmd (N : Z) (c : caller) (w : world P) r c' w' :
  call_all_circuits cmd N (c, w) = (r, (c', w')) ->
  same_config c c' /\ seeds c' = Some (seed_sequence P N) /\
  command c' = (if seed_sequence P N is [] then command c else Some cmd) /\
  keyed c' /\
  (r = Done tt ->
   (forall ci m, sample_count c' ci m
                 = (Z.to_nat N * (occurrences ci (circuits c)
                                  * occurrences m (metrics c)))%nat) /\
   (forall toks, w_heap w !! cmd = Some toks ->
      invoked toks (set_rng (after_draws P (Z.to_nat N) (rng_seed P 1)) w) w'
              (batch_invocations (seed_sequence P N) (circuits c)))).
Proof.
  unfold call_all_circuits. unfold bind at 1. rewrite prepare_batch_exact.
  unfold bind at 1. unfold self_seeds, self, bind at 1. simpl. unfold ret.
  intros E. destruct (seeds_loop_effect _ _ _ _ _ _ _ E) as (C & S & M & K & N1).
  simpl in *.
  split; [exact C|]. split; [exact S|]. split; [exact M|].
  split; [apply K, keyed_empty_table|].
  intros Hr. destruct (N1 Hr) as (Na & Nb). split.
  - intros ci m. rewrite Na, sample_count_empty_table.
    unfold seed_sequence. by rewrite draws_length.
  - intros toks Hcmd. by apply Nb.
Qed.

End BatchEffects.

Lemma occurrences_absent (x : string) (l : list string) :
  x ∉ l -> occurrences x l = 0%nat.
Proof.
  induction l as [|y l IH]; intros Hx; [done|].
  rewrite occurrences_cons. apply not_elem_of_cons in Hx. destruct Hx as [Hne Hx].
  rewrite decide_False by congruence. by rewrite IH.
Qed.

Lemma occurrences_present (x : string) (l : list string) :
  x ∈ l -> (0 < occurrences x l)%nat.
Proof.
  induction l as [|y l IH]; intros Hx; [by apply elem_of_nil in Hx|].
  rewrite occurrences_cons. apply elem_of_cons in Hx.
  destruct (decide (y = x)) as [->|Hne]; [lia|].
  destruct Hx as [->|Hx]; [done|]. specialize (IH Hx). lia.
Qed.

Lemma occurrences_NoDup (x : string) (l : list string) :
  NoDup l -> x ∈ l -> occurrences x l = 1%nat.
Proof.
  induction 1 as [|y l Hy Hl IH]; intros Hx; [by apply elem_of_nil in Hx|].
  rewrite occurrences_cons. apply elem_of_cons in Hx.
  destruct (decide (y = x)) as [->|Hne].
  - by rewrite occurrences_absent.
  - destruct Hx as [->|Hx]; [done|]. by rewrite IH.
Qed.

Lemma keyed_samples (c : caller) (circuit metric : string) :
  keyed c -> circuit ∈ circuits c -> metric ∈ metrics c ->
  exists l, samples_of c circuit metric = Done l.
Proof.
  intros (r & Hr & Hc & Hm) Hci Hme.
  destruct (proj2 (Hc circuit) Hci) as [bm Hbm].
  destruct (proj2 (Hm circuit bm Hbm metric) Hme) as [l Hl].
  exists l. unfold samples_of, get_results_attr, getitem. rewrite Hr. simpl.
  rewrite Hbm. simpl. by rewrite Hl.
Qed.

Lemma batch_sample_counts_general (P : platform) (cmd : loc) (N : Z) (c : caller)
    (w : world P) c' w' (circuit metric : string) :
  call_all_circuits cmd N (c, w) = (Done tt, (c', w')) ->
  circuit ∈ circuits c -> metric ∈ metrics c ->
  exists l,
    samples_of c' circuit metric = Done l /\
    length l = (Z.to_nat N * (occurrences circuit (circuits c)
                              * occurrences metric (metrics c)))%nat.
Proof.
  intros E Hci Hme.
  destruct (call_all_circuits_effect _ _ _ _ _ _ _ E) as (C & _ & _ & K & N1).
  destruct (N1 eq_refl) as (Na & _).
  destruct C as (Hc & Hm & _).
  destruct (keyed_samples c' circuit metric K) as [l Hl]; [congruence|congruence|].
  exists l. split; [exact Hl|].
  rewrite <- Na. unfold sample_count. by rewrite Hl.
Qed.

(** X4.  After a batch that returned, the sample list of every circuit
    and metric holds one sample per seed, per listing of the circuit in the
    circuit list and per listing of the metric in the metric list,
    whatever the caller held before: [N] samples when no name is listed
    twice, and twice as many for a circuit named twice. *)
Theorem batch_sample_counts (P : platform) (cmd : loc) (N : Z) (c : caller)
    (w : world P) c' w' (circuit metric : string) :
  call_all_circuits cmd N (c, w) = (Done tt, (c', w')) ->
  circuit ∈ circuits c -> metric ∈ metrics c ->
  exists l,
    samples_of c' circuit metric = Done l /\
    length l = (Z.to_nat N * (occurrences circuit (circuits c)
                              * occurrences metric (metrics c)))%nat /\
    (NoDup (circuits c) -> NoDup (metrics c) -> length l = Z.to_nat N).
Proof.
  intros E Hci Hme.
  destruct (batch_sample_counts_general P cmd N c w c' w' circuit metric E Hci Hme)
    as (l & Hl & Hlen).
  exists l. split; [exact Hl|]. split; [exact Hlen|].
  intros Hnc Hnm. rewrite Hlen.
  rewrite (occurrences_NoDup _ _ Hnc Hci), (occurrences_NoDup _ _ Hnm Hme). lia.
Qed.

(** The BB cost samples of [alu] after the steady batch. *)
Lemma batch_sample_counts_witness :
  exists l,
    samples_of demo_steady_batch.2.1 "alu" "BB cost" = Done l /\
    length l = (Z.to_nat 2 * (occurrences "alu" (circuits demo_caller)
                              * occurrences "BB cost" (metrics demo_caller)))%nat /\
    (NoDup (circuits demo_caller) -> NoDup (metrics demo_caller) ->
     length l = Z.to_nat 2).
Proof.
  apply (batch_sample_counts demo_steady 1%positive 2 demo_caller
           (demo_command_world demo_steady)
           demo_steady_batch.2.1 demo_steady_batch.2.2 "alu" "BB cost").
  - apply (run_eta demo_steady_batch). vm_compute. reflexivity.
  - vm_compute. apply list_elem_of_here.
  - vm_compute. apply list_elem_of_further, list_elem_of_here.
Defined.

(** X5.  A batch that returned ran the tool once for every seed and
    circuit, the seeds in the order of the seed sequence and for each seed
    the circuits in the order of the circuit list, each time on the
    command tokens with that circuit and seed substituted; none of these
    runs wrote to stderr; one progress line was printed per run; and the
    command list still holds the template. *)
Theorem batch_invocation_order (P : platform) (cmd : loc) (toks : list string)
    (N : Z) (c : caller) (w : world P) c' w' :
  call_all_circuits cmd N (c, w) = (Done tt, (c', w')) ->
  w_heap w !! cmd = Some toks ->
  (exists new,
     w_calls w' = w_calls w ++ new /\
     map argv new
     = flat_map (fun seed => map (fun circuit => map (substitute circuit seed) toks)
                                 (circuits c))
                (seed_sequence P N) /\
     Forall (fun k => err_text k = "") new) /\
  w_stdout w'
  = w_stdout w ++ flat_map (fun _ => map (fun circuit => "  " +:+ circuit) (circuits c))
                           (seed_sequence P N) /\
  w_heap w' !! cmd = Some toks /\
  w_reports w' = w_reports w.
Proof.
  intros E Hcmd.
  destruct (call_all_circuits_effect _ _ _ _ _ _ _ E) as (_ & _ & _ & _ & N1).
  destruct (N1 eq_refl) as (_ & Nb).
  destruct (Nb toks Hcmd) as (Hh & (new & Hcalls & Hargv & Herr) & Hout & _ & Hrep).
  simpl in *. split.
  { exists new. split; [exact Hcalls|]. split; [|exact Herr].
    rewrite Hargv. unfold batch_invocations. rewrite map_flat_map.
    apply flat_map_ext. intros seed. by rewrite map_map. }
  split.
  { rewrite Hout. f_equal. unfold batch_invocations. rewrite map_flat_map.
    apply flat_map_ext. intros seed. by rewrite map_map. }
  split; [by apply Hh|exact Hrep].
Qed.

(** The invocations of the steady batch. *)
Lemma batch_invocation_order_witness :
  (exists new,
     w_calls demo_steady_batch.2.2 = w_calls (demo_command_world demo_steady) ++ new /\
     map argv new
     = flat_map (fun seed =>
                   map (fun circuit =>
                          map (substitute circuit seed)
                              (build_command "arch" "bench/{circuit}.blif" []))
                       (circuits demo_caller))
                (seed_sequence demo_steady 2) /\
     Forall (fun k => err_text k = "") new) /\
  w_stdout demo_steady_batch.2.2
  = w_stdout (demo_command_world demo_steady)
    ++ flat_map (fun _ => map (fun circuit => "  " +:+ circuit) (circuits demo_caller))
                (seed_sequence demo_steady 2) /\
  w_heap demo_steady_batch.2.2 !! 1%positive
  = Some (build_command "arch" "bench/{circuit}.blif" []) /\
  w_reports demo_steady_batch.2.2 = w_reports (demo_command_world demo_steady).
Proof.
  apply (batch_invocation_order demo_steady 1%positive
           (build_command "arch" "bench/{circuit}.blif" []) 2 demo_caller
           (demo_command_world demo_steady)
           demo_steady_batch.2.1 demo_steady_batch.2.2).
  - apply (run_eta demo_steady_batch). vm_compute. reflexivity.
  - vm_compute. reflexivity.
Defined.

(** X6.  After a batch with at least one seed that returned,
    [get_command] gives the command tokens joined by spaces, the
    placeholders still unfilled. *)
Theorem get_command_after_batch (P : platform) (cmd : loc) (toks : list string)
    (N : Z) (c : caller) (w : world P) c' w' :
  call_all_circuits cmd N (c, w) = (Done tt, (c', w')) ->
  w_heap w !! cmd = Some toks ->
  (0 < N)%Z ->
  get_command c' w' = Done (join " " toks).
Proof.
  intros E Hcmd HN.
  destruct (call_all_circuits_effect _ _ _ _ _ _ _ E) as (_ & _ & M & _ & N1).
  destruct (N1 eq_refl) as (_ & Nb).
  destruct (Nb toks Hcmd) as (Hh & _).
  assert (Hne : seed_sequence P N ≠ []).
  { intros H0. pose proof (draws_length P (Z.to_nat N) (rng_seed P 1)) as Hl.
    unfold seed_sequence in H0. rewrite H0 in Hl. simpl in Hl. lia. }
  destruct (seed_sequence P N); [done|].
  unfold get_command. rewrite M. by rewrite (Hh cmd toks Hcmd).
Qed.

(** The command of the steady batch. *)
Lemma get_command_after_batch_witness :
  get_command demo_steady_batch.2.1 demo_steady_batch.2.2
  = Done (join " " (build_command "arch" "bench/{circuit}.blif" [])).
Proof.
  apply (get_command_after_batch demo_steady 1%positive
           (build_command "arch" "bench/{circuit}.blif" []) 2 demo_caller
           (demo_command_world demo_steady)
           demo_steady_batch.2.1 demo_steady_batch.2.2).
  - apply (run_eta demo_steady_batch). vm_compute. reflexivity.
  - vm_compute. reflexivity.
  - reflexivity.
Defined.

(** X7.  A batch with no seeds (a count of zero or less) returns at once:
    no tool is run and nothing is printed; the caller gets the empty
    table and an empty seed list, but [self.command] is not assigned,
    because only the pass for a seed assigns it.  On a caller that had no
    command, [get_command] and [get_results] then raise
    [AttributeError]. *)
Theorem zero_seed_batch (P : platform) (cmd : loc) (N : Z) (c : caller) (w : world P) :
  (N <= 0)%Z -> command c = None ->
  let c0 := set_seeds [] (set_results (empty_table (circuits c) (metrics c)) c) in
  let w0 := set_rng (rng_seed P 1) w in
  call_all_circuits cmd N (c, w) = (Done tt, (c0, w0)) /\
  w_calls w0 = w_calls w /\ w_stdout w0 = w_stdout w /\
  get_command c0 w0 = Raised (AttributeError "command") /\
  forall g, get_results g c0 w0 = Raised (AttributeError "command").
Proof.
  intros HN Hcmd c0 w0.
  assert (H0 : Z.to_nat N = 0%nat) by lia.
  split.
  { unfold call_all_circuits. unfold bind at 1. rewrite prepare_batch_exact.
    unfold seed_sequence. rewrite H0. simpl draws. simpl after_draws.
    unfold bind at 1. unfold self_seeds, self, bind at 1. simpl. done. }
  split; [done|]. split; [done|].
  assert (Hg : get_command c0 w0 = Raised (AttributeError "command")).
  { unfold get_command. simpl. by rewrite Hcmd. }
  split; [exact Hg|]. intros g. unfold get_results. by rewrite Hg.
Qed.

(** A new caller run with no seeds. *)
Lemma zero_seed_batch_witness :
  let c0 := set_seeds [] (set_results (empty_table (circuits demo_caller)
                                                   (metrics demo_caller)) demo_caller) in
  let w0 := set_rng (P:=demo_idle) (rng_seed demo_idle 1) (demo_command_world demo_idle) in
  call_all_circuits 1%positive 0 (demo_caller, demo_command_world demo_idle)
    = (Done tt, (c0, w0)) /\
  w_calls w0 = w_calls (demo_command_world demo_idle) /\
  w_stdout w0 = w_stdout (demo_command_world demo_idle) /\
  get_command c0 w0 = Raised (AttributeError "command") /\
  forall g, get_results g c0 w0 = Raised (AttributeError "command").
Proof.
  apply (zero_seed_batch demo_idle 1%positive 0 demo_caller
           (demo_command_world demo_idle)).
  - lia.
  - reflexivity.
Defined.

(** X8.  After a batch, however it ended, the table has a sample list for
    exactly the metrics of the caller under exactly its circuits, so
    [get_geomean] of any other metric name raises [KeyError] with that
    name. *)
Theorem get_geomean_unknown_metric (P : platform) (cmd : loc) (N : Z) (c : caller)
    (w : world P) r c' w' (metric : string) :
  call_all_circuits cmd N (c, w) = (r, (c', w')) ->
  circuits c ≠ [] -> metric ∉ metrics c ->
  keyed c' /\ get_geomean c' metric = Raised (KeyError metric).
Proof.
  intros E Hne Hm.
  destruct (call_all_circuits_effect _ _ _ _ _ _ _ E) as (C & _ & _ & K & _).
  split; [exact K|].
  destruct C as (Hc & Hms & _). destruct K as (res & Hres & Kc & Km).
  unfold get_geomean. rewrite Hc.
  destruct (circuits c) as [|x xs] eqn:Ex; [done|]. simpl.
  destruct (proj2 (Kc x)) as [bm Hbm]; [rewrite Hc; left|].
  unfold samples_of, get_results_attr, getitem. rewrite Hres. simpl.
  rewrite Hbm. simpl.
  destruct (bm !! metric) as [l|] eqn:El; [|done].
  exfalso. apply Hm. rewrite <- Hms. apply (Km x bm Hbm metric). eauto.
Qed.

(** An unknown metric after the steady batch. *)
Lemma get_geomean_unknown_metric_witness :
  keyed demo_steady_batch.2.1 /\
  get_geomean demo_steady_batch.2.1 "wirelength" = Raised (KeyError "wirelength").
Proof.
  apply (get_geomean_unknown_metric demo_steady 1%positive 2 demo_caller
           (demo_command_world demo_steady)
           demo_steady_batch.1 demo_steady_batch.2.1 demo_steady_batch.2.2
           "wirelength").
  - exact (run_parts demo_steady_batch).
  - discriminate.
  - intros H. vm_compute in H. apply list_elem_of_In in H. simpl in H.
    destruct H as [H|[H|[H|[]]]]; discriminate.
Defined.

(** X9.  A caller that has run no batch has none of the attributes the
    accessors read: whatever the circuit string, [get_geomean],
    [get_geomeans], [get_seeds], [get_command] and [get_results] raise
    [AttributeError]. *)
Theorem new_caller_accessors (P : platform) (arch circuits_folder names : string)
    (w : world P) (g : globals) (metric : string) :
  let c := PlaceCaller arch circuits_folder names in
  get_geomean c metric = Raised (AttributeError "results") /\
  get_geomeans c = Raised (AttributeError "results") /\
  get_seeds c = Raised (AttributeError "seeds") /\
  get_command c w = Raised (AttributeError "command") /\
  get_results g c w = Raised (AttributeError "command").
Proof.
  intros c.
  assert (G : forall m, get_geomean c m = Raised (AttributeError "results")).
  { intros m. unfold get_geomean. simpl circuits.
    pose proof (split_nonempty " " names) as Hne.
    destruct (split " " names) as [|x xs]; [done|]. done. }
  split; [apply G|]. split.
  { unfold get_geomeans. simpl metrics. unfold PlaceCaller_metrics. simpl.
    by rewrite G. }
  done.
Qed.

(** ** The tables of one caller (get_results, get_geomeans, save_results) *)

Lemma omap_done {A B} (f : A -> outcome B) (l : list A) :
  (forall x, x ∈ l -> exists y, f x = Done y) ->
  exists ys, omap f l = Done ys /\ Forall2 (fun x y => f x = Done y) l ys.
Proof.
  induction l as [|x l IH]; intros H.
  - exists []. split; [done|constructor].
  - destruct (H x) as [y Hy]; [left|].
    destruct IH as (ys & E & F); [intros z Hz; apply H; by right|].
    exists (y :: ys). split; [simpl; by rewrite Hy, E|by constructor].
Qed.

Section CallerTables.
Context {P : platform}.

(** X10.  After a batch with at least one seed that returned, and with
    the name [geomean] bound to a function [f], [get_results] returns the
    header row [benchmark, metric names, command] followed by one row per
    distinct circuit name, in ascending order of the names, however the
    circuits were listed; each row holds the circuit name and [f] of its
    sample list for each metric. *)
Theorem get_results_after_batch (g : globals) (f : list R -> R) (cmd : loc)
    (toks : list string) (N : Z) (c : caller) (w : world P) c' w' :
  call_all_circuits cmd N (c, w) = (Done tt, (c', w')) ->
  w_heap w !! cmd = Some toks -> (0 < N)%Z ->
  g_geomean g = Some f ->
  exists names rows,
    get_results g c' w'
    = Done (RowList ([CStr "benchmark"] ++ map CStr (metrics c) ++ [CStr (join " " toks)])
            :: rows) /\
    Sorted str_le names /\ NoDup names /\
    (forall name, name ∈ names <-> name ∈ circuits c) /\
    Forall2 (fun name row =>
               exists cells, row = RowList (CStr name :: cells) /\
                 Forall2 (fun metric cell =>
                            exists l, samples_of c' name metric = Done l /\
                                      cell = CNum (f l))
                         (metrics c) cells)
            names rows.
Proof.
  intros E Hcmd HN Hg.
  destruct (call_all_circuits_effect _ _ _ _ _ _ _ E) as (C & _ & M & K & N1).
  destruct (N1 eq_refl) as (_ & Nb).
  destruct (Nb toks Hcmd) as (Hh & _).
  assert (Hne : seed_sequence P N ≠ []).
  { intros H0. pose proof (draws_length P (Z.to_nat N) (rng_seed P 1)) as Hl.
    unfold seed_sequence in H0. rewrite H0 in Hl. simpl in Hl. lia. }
  destruct (seed_sequence P N); [done|].
  destruct C as (Hc & Hms & _). destruct K as (res & Hres & Kc & Km).
  destruct (get_results_when_bound g f c' w' cmd toks res Hg M (Hh cmd toks Hcmd) Hres)
    as (names & rows & Eres & Hsorted & Hperm & Hrows).
  { intros circuit bm metric Hbm Hm. by apply (Km circuit bm Hbm metric). }
  exists names, rows. rewrite <- Hms.
  split; [exact Eres|]. split; [exact Hsorted|].
  split; [rewrite Hperm; apply NoDup_fst_map_to_list|].
  split; [|exact Hrows].
  intros name. rewrite Hperm, <- Hc, <- Kc. rewrite list_elem_of_fmap. split.
  - intros ([k v] & -> & Hkv). apply elem_of_map_to_list in Hkv. simpl. eauto.
  - intros [v Hv]. exists (name, v). split; [done|]. by apply elem_of_map_to_list.
Qed.

(** X11.  After a batch with at least one seed that returned,
    [Caller.save_results] builds the table of [get_results] and, when it
    can be built, writes it followed by an empty row and the row
    [geomeans, pooled geometric mean of each metric]; when it cannot be
    built nothing is written and the exception is raised.  In the module
    as written the table cannot be built: [geomean] is not bound, and for
    a caller with a circuit and a metric [NameError] is raised. *)
Theorem caller_save_results_rows (g : globals) (filename : string) (cmd : loc)
    (toks : list string) (N : Z) (c : caller) (w : world P) c' w' :
  call_all_circuits cmd N (c, w) = (Done tt, (c', w')) ->
  w_heap w !! cmd = Some toks -> (0 < N)%Z ->
  exists gms,
    get_geomeans c' = Done gms /\
    Forall2 (fun metric x => get_geomean c' metric = Done x) (metrics c) gms /\
    Caller_save_results g filename (c', w')
    = match get_results g c' w' with
      | Done table =>
          (Done tt,
           (c', (write_rows filename
                   (table ++ [RowList []; RowList (CStr "geomeans" :: map CNum gms)])
                   w').2))
      | Raised e => (Raised e, (c', w'))
      end /\
    (circuits c ≠ [] -> metrics c ≠ [] ->
     Caller_save_results module_globals filename (c', w')
     = (Raised (NameError "geomean"), (c', w'))).
Proof.
  intros E Hcmd HN.
  pose proof (call_all_circuits_inv _ _ _ _ _ _ _ E) as ((_ & Hms0 & _) & _ & Hpop).
  destruct (omap_done (get_geomean c') (metrics c')) as (gms & Egms & Fgms).
  { intros m Hm. destruct (get_geomean_populated c' m Hpop Hm) as (lists & _ & G).
    eauto. }
  exists gms. split; [exact Egms|]. split; [by rewrite <- Hms0|].
  assert (Hsave : forall g0,
            Caller_save_results g0 filename (c', w')
            = match get_results g0 c' w' with
              | Done table =>
                  (Done tt,
                   (c', (write_rows filename
                           (table ++ [RowList []; RowList (CStr "geomeans" :: map CNum gms)])
                           w').2))
              | Raised e => (Raised e, (c', w'))
              end).
  { intros g0. unfold Caller_save_results, Caller_rows.
    destruct (get_results g0 c' w') as [table|e]; simpl; [|done].
    unfold get_geomeans. rewrite Egms. simpl.
    unfold in_world, write_rows, modify. simpl. by rewrite <- app_assoc. }
  split; [apply Hsave|].
  intros Hc Hm. rewrite Hsave.
  destruct (call_all_circuits_effect _ _ _ _ _ _ _ E) as (C & _ & M & K & N1).
  destruct (N1 eq_refl) as (_ & Nb).
  destruct (Nb toks Hcmd) as (Hh & _).
  assert (Hne : seed_sequence P N ≠ []).
  { intros H0. pose proof (draws_length P (Z.to_nat N) (rng_seed P 1)) as Hl.
    unfold seed_sequence in H0. rewrite H0 in Hl. simpl in Hl. lia. }
  destruct (seed_sequence P N); [done|].
  destruct C as (Hcs & Hms & _). destruct K as (res & Hres & Kc & Km).
  rewrite (get_results_unbound c' w' cmd toks res M (Hh cmd toks Hcmd) Hres); [done| |].
  - intros Hempty. destruct (circuits c) as [|x xs] eqn:Ex; [done|].
    destruct (proj2 (Kc x)) as [bm Hbm]; [rewrite Hcs; left|].
    rewrite Hempty in Hbm. by rewrite lookup_empty in Hbm.
  - by rewrite Hms.
Qed.

End CallerTables.

(** The table of the steady batch, with [geomean] bound. *)
Lemma get_results_after_batch_witness :
  exists names rows,
    get_results patched_globals demo_steady_batch.2.1 demo_steady_batch.2.2
    = Done (RowList ([CStr "benchmark"] ++ map CStr (metrics demo_caller)
                     ++ [CStr (join " " (build_command "arch" "bench/{circuit}.blif" []))])
            :: rows) /\
    Sorted str_le names /\ NoDup names /\
    (forall name, name ∈ names <-> name ∈ circuits demo_caller) /\
    Forall2 (fun name row =>
               exists cells, row = RowList (CStr name :: cells) /\
                 Forall2 (fun metric cell =>
                            exists l, samples_of demo_steady_batch.2.1 name metric = Done l /\
                                      cell = CNum (gmean l))
                         (metrics demo_caller) cells)
            names rows.
Proof.
  apply (get_results_after_batch (P:=demo_steady) patched_globals gmean 1%positive
           (build_command "arch" "bench/{circuit}.blif" []) 2 demo_caller
           (demo_command_world demo_steady)
           demo_steady_batch.2.1 demo_steady_batch.2.2).
  - apply (run_eta demo_steady_batch). vm_compute. reflexivity.
  - vm_compute. reflexivity.
  - reflexivity.
  - reflexivity.
Defined.

(** The rows [Caller.save_results] writes after the steady batch. *)
Lemma caller_save_results_rows_witness :
  exists gms,
    get_geomeans demo_steady_batch.2.1 = Done gms /\
    Forall2 (fun metric x => get_geomean demo_steady_batch.2.1 metric = Done x)
            (metrics demo_caller) gms /\
    Caller_save_results patched_globals "place.csv"
      (demo_steady_batch.2.1, demo_steady_batch.2.2)
    = match get_results patched_globals demo_steady_batch.2.1 demo_steady_batch.2.2 with
      | Done table =>
          (Done tt,
           (demo_steady_batch.2.1,
            (write_rows "place.csv"
               (table ++ [RowList []; RowList (CStr "geomeans" :: map CNum gms)])
               demo_steady_batch.2.2).2))
      | Raised e => (Raised e, (demo_steady_batch.2.1, demo_steady_batch.2.2))
      end /\
    (circuits demo_caller ≠ [] -> metrics demo_caller ≠ [] ->
     Caller_save_results module_globals "place.csv"
       (demo_steady_batch.2.1, demo_steady_batch.2.2)
     = (Raised (NameError "geomean"), (demo_steady_batch.2.1, demo_steady_batch.2.2))).
Proof.
  apply (caller_save_results_rows (P:=demo_steady) patched_globals "place.csv"
           1%positive (build_command "arch" "bench/{circuit}.blif" []) 2 demo_caller
           (demo_command_world demo_steady)
           demo_steady_batch.2.1 demo_steady_batch.2.2).
  - apply (run_eta demo_steady_batch). vm_compute. reflexivity.
  - vm_compute. reflexivity.
  - reflexivity.
Defined.

(** ** Option sets and sweeps (build_option_sets, sweep) *)

Lemma length_flat_map_const {A B} (f : A -> list B) (l : list A) (k : nat) :
  (forall x, length (f x) = k) -> length (flat_map f l) = (length l * k)%nat.
Proof.
  intros H. induction l as [|x l IH]; simpl; [done|].
  by rewrite length_app, H, IH.
Qed.

Lemma spec_option_sets_length (ranges : list (string * list pyval)) :
  length (spec_option_sets ranges) = combinations ranges.
Proof.
  induction ranges as [|[name values] ranges IH]; simpl; [done|].
  rewrite (length_flat_map_const _ _ (combinations ranges)); [done|].
  intros v. by rewrite length_map.
Qed.

Lemma spec_option_sets_tokens (ranges : list (string * list pyval)) :
  Forall (fun s => length s = (2 * length ranges)%nat) (spec_option_sets ranges).
Proof.
  induction ranges as [|[name values] ranges IH]; simpl.
  - by constructor.
  - apply List.Forall_forall. intros s Hs. apply in_flat_map in Hs.
    destruct Hs as (v & _ & Hs). apply in_map_iff in Hs.
    destruct Hs as (tail & <- & Ht).
    rewrite List.Forall_forall in IH. simpl. rewrite (IH tail Ht). lia.
Qed.

Lemma spec_option_sets_empty_range (ranges : list (string * list pyval)) (name : string) :
  (name, []) ∈ ranges -> spec_option_sets ranges = [].
Proof.
  induction ranges as [|[n vs] ranges IH]; intros H; [by apply elem_of_nil in H|].
  apply elem_of_cons in H. destruct H as [[= <- <-]|H]; [done|].
  simpl. rewrite IH by done. simpl.
  induction vs as [|v vs IHv]; [done|]. done.
Qed.

Lemma combinations_zero (ranges : list (string * list pyval)) :
  combinations ranges = 0%nat <-> exists name, (name, []) ∈ ranges.
Proof.
  induction ranges as [|[n vs] ranges IH]; simpl.
  - split; [done|]. intros (name & H). by apply elem_of_nil in H.
  - fold (combinations ranges). split.
    + intros H. apply Nat.eq_mul_0 in H. destruct H as [H|H].
      * exists n. apply length_zero_iff_nil in H. subst vs. apply list_elem_of_here.
      * apply IH in H. destruct H as (name & H). exists name.
        by apply list_elem_of_further.
    + intros (name & H). apply elem_of_cons in H. destruct H as [[= <- <-]|H].
      * done.
      * apply Nat.eq_mul_0. right. apply IH. by exists name.
Qed.

Section Sweeps.
Context {P : platform}.

(** X12.  [build_option_sets] returns when [keys()] of the mapping is a
    list, and also when it has no name or no combination to index
    [keys()] for.  It then stores as many option sets as there are
    combinations of one value per range, the product of the range sizes,
    each of them two tokens per range long: one empty option set when no
    range is given, and none when some range has no value.  In every other
    case, that of a mapping whose [keys()] is a view and which has at least
    one range and no range without values, it raises [TypeError] at the
    first [option_names[i]] and leaves [option_sets] empty. *)
Theorem option_sets_count (ranges : mapping) (sw : sweeper) (w : world P) :
  (keys_indexable ranges = true \/ items ranges = [] \/
   combinations (items ranges) = 0%nat ->
   exists sets,
     build_option_sets ranges (sw, w) = (Done tt, (set_option_sets sets sw, w)) /\
     length sets = combinations (items ranges) /\
     Forall (fun s => length s = (2 * length (items ranges))%nat) sets /\
     (items ranges = [] -> sets = [[]]) /\
     (forall name, (name, []) ∈ items ranges -> sets = [])) /\
  (keys_indexable ranges = false -> items ranges ≠ [] ->
   combinations (items ranges) ≠ 0%nat ->
   build_option_sets ranges (sw, w)
   = (Raised TypeError, (set_option_sets [] sw, w))) /\
  (combinations (items ranges) = 0%nat <-> exists name, (name, []) ∈ items ranges).
Proof.
  split; [|split].
  - intros H. exists (spec_option_sets (items ranges)).
    split.
    { destruct H as [Hk|[Hi|Hc]].
      - by apply build_option_sets_runs.
      - apply build_option_sets_unindexed. by left.
      - apply build_option_sets_unindexed. right.
        apply length_zero_iff_nil. by rewrite spec_option_sets_length. }
    split; [apply spec_option_sets_length|].
    split; [apply spec_option_sets_tokens|].
    split; [by intros ->|apply spec_option_sets_empty_range].
  - intros Hk Hi Hc. apply build_option_sets_view; [done|done|].
    intros E. apply Hc. by rewrite <- spec_option_sets_length, E.
  - apply combinations_zero.
Qed.

(** X13.  A sweep in which some range has no value runs nothing: it
    returns with no option set and no caller, the world untouched, and
    [save_results] then raises [IndexError], on [self.callers[0]], and
    writes no report. *)
Theorem sweep_of_empty_range (fixed : list string)
    (variable : mapping) (N : Z) (name : string)
    (sw : sweeper) (w : world P) (g : globals) (filename : string) :
  (name, []) ∈ items variable ->
  let sw' := set_callers [] (set_option_sets [] sw) in
  sweep fixed variable N (sw, w) = (Done tt, (sw', w)) /\
  save_results g filename (sw', w) = (Raised IndexError, (sw', w)).
Proof.
  intros Hin sw'. split; [|done].
  unfold sweep. unfold bind at 1.
  rewrite build_option_sets_unindexed
    by (right; by apply (spec_option_sets_empty_range _ name)).
  rewrite (spec_option_sets_empty_range (items variable) name Hin).
  unfold bind at 1. unfold update_this at 1.
  unfold bind at 1. unfold this_option_sets, this, bind at 1. simpl. done.
Qed.

End Sweeps.

(** A sweep over a range without values, held in a mapping whose
    [keys()] is a view. *)
Lemma sweep_of_empty_range_witness :
  let sw' := set_callers [] (set_option_sets [] demo_sweeper) in
  sweep ["--effort"; "2"]
        {| items := [("--alpha", [PInt 1]); ("--beta", [])]; keys_indexable := false |} 2
        (demo_sweeper, world0 demo_steady ∅)
    = (Done tt, (sw', world0 demo_steady ∅)) /\
  save_results module_globals "sweep.csv" (sw', world0 demo_steady ∅)
    = (Raised IndexError, (sw', world0 demo_steady ∅)).
Proof.
  apply (sweep_of_empty_range (P:=demo_steady) ["--effort"; "2"]
           {| items := [("--alpha", [PInt 1]); ("--beta", [])];
              keys_indexable := false |} 2 "--beta"
           demo_sweeper (world0 demo_steady ∅) module_globals "sweep.csv").
  apply list_elem_of_further, list_elem_of_here.
Defined.

Section SweepEffects.
Context {P : platform}.

(** Everything a configuration's run does when it returns. *)
Lemma place_all_effect (options : list string) (N : Z) (c : caller) (w : world P)
    c' w' :
  place_all options N (c, w) = (Done tt, (c', w')) ->
  let toks := build_command (architecture c) (circuit_path c) options in
  let cmd := fresh (dom (w_heap w)) in
  same_config c c' /\
  command c' = (if seed_sequence P N is [] then command c else Some cmd) /\
  (forall l ts, w_heap w !! l = Some ts -> w_heap w' !! l = Some ts) /\
  w_heap w' !! cmd = Some toks /\
  (exists new, w_calls w' = w_calls w ++ new /\
     map argv new
     = map (fun inv => map (substitute inv.2 inv.1) toks)
           (batch_invocations (seed_sequence P N) (circuits c))) /\
  w_reports w' = w_reports w /\
  w_fs w' !! "tmp" = None /\
  (forall p, under "tmp" p = true -> w_fs w' !! p = None).
Proof.
  intros E toks cmd. unfold place_all in E.
  apply bind_done in E. destruct E as (c0 & s0 & E0 & E).
  injection E0 as <- <-.
  apply bind_done in E. destruct E as (l & [c1 w1] & E1 & E).
  unfold in_world, new_list in E1. simpl in E1. injection E1 as <- <- <-.
  apply bind_done in E. destruct E as ([] & [c2 w2] & E2 & E3).
  destruct (call_all_circuits_effect _ _ _ _ _ _ _ E2) as (C & _ & M & _ & N1).
  destruct (N1 eq_refl) as (_ & Nb).
  destruct (Nb toks) as (Hh & (new & Hcalls & Hargv & _) & _ & _ & Hrep);
    [simpl; apply lookup_insert_eq|].
  simpl in *.
  unfold in_world, shutil_rmtree in E3.
  destruct (w_fs w2 !! "tmp") as [[|]|] eqn:Etmp; try done.
  injection E3 as <- <-. simpl.
  split; [exact C|]. split; [exact M|].
  split.
  { intros l ts Hl. apply Hh. rewrite lookup_insert_ne; [done|].
    intros Heq. subst l. apply (is_fresh (dom (w_heap w))).
    apply elem_of_dom. eauto. }
  split; [apply Hh, lookup_insert_eq|].
  split; [exists new; done|].
  split; [exact Hrep|].
  split.
  { apply map_lookup_filter_None. left. apply lookup_delete_eq. }
  intros p Hp. apply map_lookup_filter_None. right. intros x _. simpl.
  rewrite Hp. simpl. tauto.
Qed.

(** X14.  When [place_all] returns, the scratch directory [tmp] and every
    path under it are gone, and the tool was run once per seed and
    circuit on the tokens of [build_command] with that circuit and seed
    substituted: the fixed tokens, the architecture, the circuit file, the
    place file under [tmp], the seed, and then the options. *)
Theorem place_all_runs_and_cleans (options : list string) (N : Z) (c : caller)
    (w : world P) c' w' :
  place_all options N (c, w) = (Done tt, (c', w')) ->
  (exists new,
     w_calls w' = w_calls w ++ new /\
     map argv new
     = flat_map (fun seed =>
                   map (fun circuit =>
                          map (substitute circuit seed)
                              (["java"; "-cp"; "bin"; "interfaces.CLI";
                                architecture c; circuit_path c;
                                "--output_place_file"; "tmp/{circuit}.place";
                                "--random_seed"; "{seed}"] ++ options))
                       (circuits c))
                (seed_sequence P N)) /\
  w_fs w' !! "tmp" = None /\
  (forall p, under "tmp" p = true -> w_fs w' !! p = None).
Proof.
  intros E. destruct (place_all_effect _ _ _ _ _ _ E)
    as (_ & _ & _ & _ & (new & Hcalls & Hargv) & _ & Htmp & Hunder).
  split; [|done].
  exists new. split; [exact Hcalls|]. rewrite Hargv.
  unfold batch_invocations. rewrite map_flat_map.
  apply flat_map_ext. intros seed. by rewrite map_map.
Qed.

(** A caller's command stays readable while list objects are only added. *)
Lemma get_command_extends (c : caller) (w w' : world P) (s : string) :
  (forall l ts, w_heap w !! l = Some ts -> w_heap w' !! l = Some ts) ->
  get_command c w = Done s -> get_command c w' = Done s.
Proof.
  intros Hh. unfold get_command. destruct (command c) as [l|]; [|done].
  destruct (w_heap w !! l) as [ts|] eqn:E; [|done].
  by rewrite (Hh l ts E).
Qed.

(** One configuration of a sweep that returns. *)
Lemma sweep_one_effect fixed N option_set (sw : sweeper) (w : world P) sw' w' :
  (0 < N)%Z ->
  sweep_one fixed N option_set (sw, w) = (Done tt, (sw', w')) ->
  exists cs c,
    callers sw = Some cs /\ sw' = set_callers (cs ++ [c]) sw /\
    get_command c w' = Done (join " " (sweep_command sw fixed option_set)) /\
    (forall l ts, w_heap w !! l = Some ts -> w_heap w' !! l = Some ts) /\
    length (w_calls w')
    = (length (w_calls w) + Z.to_nat N * length (split " " (sw_circuits sw)))%nat /\
    w_fs w' !! "tmp" = None.
Proof.
  intros HN E. unfold sweep_one in E.
  apply bind_done in E. destruct E as (sw0 & s0 & E0 & E).
  injection E0 as <- <-.
  apply bind_done in E. destruct E as ([[] c1] & [sw1 w1] & E1 & E).
  unfold on_caller in E1.
  destruct (place_all _ N _) as [[[]|e] [c2 w2]] eqn:Ep; [|done].
  injection E1 as <- <- <-.
  apply bind_done in E. destruct E as (cs & s2 & E2 & E3).
  unfold this_callers, this, bind in E2. simpl in E2.
  destruct (callers sw) as [cs0|] eqn:Ecs; [|done].
  injection E2 as <- <-. unfold update_this in E3. injection E3 as <- <-.
  destruct (place_all_effect _ _ _ _ _ _ Ep)
    as (_ & M & Hh & Hcmd & (new & Hcalls & Hargv) & _ & Htmp & _).
  assert (Hne : seed_sequence P N ≠ []).
  { intros H0. pose proof (draws_length P (Z.to_nat N) (rng_seed P 1)) as Hl.
    unfold seed_sequence in H0. rewrite H0 in Hl. simpl in Hl. lia. }
  exists cs0, c2. split; [done|]. split; [done|].
  split.
  { unfold get_command. destruct (seed_sequence P N); [done|].
    simpl in M. rewrite M. simpl in Hcmd. by rewrite Hcmd. }
  split; [exact Hh|]. split; [|exact Htmp].
  rewrite Hcalls, length_app. f_equal.
  rewrite <- (length_map argv), Hargv, length_map.
  unfold batch_invocations.
  rewrite (length_flat_map_const _ _ (length (split " " (sw_circuits sw)))).
  - unfold seed_sequence. by rewrite draws_length.
  - intros seed. by rewrite length_map.
Qed.

(** The configurations of a list of option sets, all of which return. *)
Lemma sweep_loop_effect fixed N (HN : (0 < N)%Z) (sets : list (list string)) :
  forall (sw : sweeper) (w : world P) sw' w' cs,
    callers sw = Some cs ->
    for_each sets (sweep_one fixed N) (sw, w) = (Done tt, (sw', w')) ->
    exists new,
      sw' = set_callers (cs ++ new) sw /\
      Forall2 (fun c option_set =>
                 get_command c w' = Done (join " " (sweep_command sw fixed option_set)))
              new sets /\
      (forall l ts, w_heap w !! l = Some ts -> w_heap w' !! l = Some ts) /\
      length (w_calls w')
      = (length (w_calls w)
         + length sets * (Z.to_nat N * length (split " " (sw_circuits sw))))%nat /\
      (sets ≠ [] -> w_fs w' !! "tmp" = None).
Proof.
  induction sets as [|os sets IH]; intros sw w sw' w' cs Hcs; simpl.
  - unfold ret. intros [= <- <-]. exists [].
    split; [rewrite app_nil_r; destruct sw; simpl in *; by subst|].
    split; [constructor|]. split; [done|]. split; [lia|done].
  - intros E. apply bind_done in E. destruct E as ([] & [sw1 w1] & E1 & E2).
    destruct (sweep_one_effect _ _ _ _ _ _ _ HN E1)
      as (cs0 & c & Hcs0 & -> & Hc & Hh1 & Hn1 & Htmp1).
    rewrite Hcs in Hcs0. injection Hcs0 as <-.
    destruct (IH (set_callers (cs ++ [c]) sw) w1 sw' w' (cs ++ [c]) eq_refl E2)
      as (new & -> & Hnew & Hh2 & Hn2 & Htmp2).
    exists (c :: new).
    split.
    { unfold set_callers. simpl. f_equal. f_equal.
      rewrite <- app_assoc. done. }
    split.
    { constructor; [|exact Hnew]. by apply (get_command_extends c w1 w'). }
    split; [intros l ts Hl; by apply Hh2, Hh1|].
    split; [rewrite Hn2, Hn1; simpl; lia|].
    intros _. destruct sets as [|os' sets]; [|by apply Htmp2].
    simpl in E2. unfold ret in E2. replace w' with w1 by congruence. exact Htmp1.
Qed.

End SweepEffects.

Section SweepTheorems.
Context {P : platform}.

(** X15.  After a sweep with at least one seed that returned, the callers
    correspond one to one, in order, to the option sets; [get_command] of
    each gives the tokens of [build_command] for the fixed options
    followed by its option set, placeholders unfilled; the tool was run
    once per option set, seed and circuit; and, when there was an option
    set, no [tmp] is left. *)
Theorem sweep_configurations (fixed : list string) (variable : mapping) (N : Z)
    (sw : sweeper) (w : world P) sw' w' :
  sweep fixed variable N (sw, w) = (Done tt, (sw', w')) ->
  (0 < N)%Z ->
  exists cs,
    callers sw' = Some cs /\
    option_sets sw' = Some (spec_option_sets (items variable)) /\
    Forall2 (fun c option_set =>
               get_command c w'
               = Done (join " " (build_command (sw_architecture sw)
                                   (path_join (sw_circuits_folder sw) "{circuit}.blif")
                                   (fixed ++ option_set))))
            cs (spec_option_sets (items variable)) /\
    length (w_calls w')
    = (length (w_calls w)
       + combinations (items variable)
         * (Z.to_nat N * length (split " " (sw_circuits sw))))%nat /\
    (spec_option_sets (items variable) ≠ [] -> w_fs w' !! "tmp" = None).
Proof.
  intros E HN. unfold sweep in E.
  apply bind_done in E. destruct E as ([] & s0 & E0 & E).
  apply build_option_sets_returned in E0. subst s0.
  apply bind_done in E. destruct E as ([] & s1 & E1 & E).
  unfold update_this in E1. injection E1 as <-.
  apply bind_done in E. destruct E as (l & s2 & E2 & E).
  unfold this_option_sets, this, bind in E2. simpl in E2. injection E2 as <- <-.
  destruct (sweep_loop_effect fixed N HN (spec_option_sets (items variable))
              (set_callers [] (set_option_sets (spec_option_sets (items variable)) sw))
              w sw' w' [] eq_refl E)
    as (new & -> & Hnew & _ & Hn & Htmp).
  exists new. simpl. split; [done|]. split; [done|].
  split; [exact Hnew|]. split; [|exact Htmp].
  rewrite Hn. simpl. by rewrite spec_option_sets_length.
Qed.

Lemma sweep_prefix_inv (sw : sweeper) sets fixed N (pre : list (list string)) :
  forall (sw0 : sweeper) (w0 : world P) sw1 w1,
    sweep_inv P sw sets N sw0 ->
    for_each pre (sweep_one fixed N) (sw0, w0) = (Done tt, (sw1, w1)) ->
    sweep_inv P sw sets N sw1 /\
    exists cs0 cs, callers sw0 = Some cs0 /\ callers sw1 = Some (cs0 ++ cs) /\
                   length cs = length pre.
Proof.
  induction pre as [|os pre IH]; intros sw0 w0 sw1 w1 Hinv; simpl.
  - unfold ret. intros [= <- <-]. split; [exact Hinv|].
    destruct Hinv as (_ & _ & _ & _ & cs & Hcs & _).
    exists cs, []. by rewrite app_nil_r.
  - intros E. apply bind_done in E. destruct E as ([] & [sw2 w2] & E1 & E2).
    destruct (sweep_one_inv _ _ _ _ _ _ _ _ _ _ Hinv E1) as (Hinv2 & Hd).
    destruct (Hd eq_refl) as (cs0 & c & Hcs0 & Hcs2).
    destruct (IH _ _ _ _ Hinv2 E2) as (Hinv1 & cs2 & cs & Hcs2' & Hcs1 & Hlen).
    split; [exact Hinv1|].
    rewrite Hcs2 in Hcs2'. injection Hcs2' as <-.
    exists cs0, (c :: cs). split; [exact Hcs0|].
    split; [by rewrite Hcs1, <- app_assoc|]. simpl. by rewrite Hlen.
Qed.

(** X16.  A sweep ends at the first configuration whose run raises: the
    exception is the sweep's, the option sets after it are not run, and
    the caller list holds the callers of the configurations completed
    before it and not the failing one. *)
Theorem sweep_stops_at_failure (fixed : list string) (variable : mapping) (N : Z)
    (sw : sweeper) (w : world P)
    (pre post : list (list string)) (option_set : list string)
    (sw1 : sweeper) (w1 : world P) (e : exn) (c2 : caller) (w2 : world P) :
  spec_option_sets (items variable) = pre ++ option_set :: post ->
  sweep_before fixed variable N pre (sw, w) = (Done tt, (sw1, w1)) ->
  place_all (fixed ++ option_set) N
    (PlaceCaller (sw_architecture sw) (sw_circuits_folder sw) (sw_circuits sw), w1)
    = (Raised e, (c2, w2)) ->
  sweep fixed variable N (sw, w) = (Raised e, (sw1, w2)) /\
  exists cs, callers sw1 = Some cs /\ length cs = length pre.
Proof.
  intros Hsets Hbefore Hfail. unfold sweep_before in Hbefore.
  apply bind_done in Hbefore. destruct Hbefore as ([] & s0 & E0 & Hbefore).
  pose proof (f_equal fst E0) as Hb. simpl in Hb.
  apply build_option_sets_returned in E0. subst s0.
  apply bind_done in Hbefore. destruct Hbefore as ([] & s1 & E1 & Epre).
  unfold update_this in E1. injection E1 as <-.
  assert (Hinv : sweep_inv P sw (spec_option_sets (items variable)) N
                    (set_callers []
                       (set_option_sets (spec_option_sets (items variable)) sw))).
  { repeat split; try done. exists []. split; [done|constructor]. }
  destruct (sweep_prefix_inv sw (spec_option_sets (items variable)) fixed N pre _ _ _ _
              Hinv Epre)
    as ((A1 & A2 & A3 & _) & cs0 & cs & Hcs0 & Hcs1 & Hlen).
  simpl in Hcs0. injection Hcs0 as <-.
  split; [|exists cs; done].
  unfold sweep. unfold bind at 1. rewrite (build_option_sets_done _ _ _ Hb).
  unfold bind at 1. unfold update_this at 1.
  unfold bind at 1. unfold this_option_sets, this, bind at 1. simpl. unfold ret.
  rewrite Hsets at 1. rewrite for_each_app, Epre. simpl for_each.
  unfold bind at 1. unfold sweep_one. unfold bind at 1. unfold this at 1. simpl.
  rewrite A1, A2, A3.
  unfold bind at 1. unfold on_caller. rewrite Hfail. done.
Qed.

End SweepTheorems.

(** The configurations of [demo_sweep]. *)
Lemma sweep_configurations_witness :
  exists cs,
    callers demo_sweep.2.1 = Some cs /\
    option_sets demo_sweep.2.1
    = Some (spec_option_sets (items demo_ranges)) /\
    Forall2 (fun c option_set =>
               get_command c demo_sweep.2.2
               = Done (join " " (build_command (sw_architecture demo_sweeper)
                                   (path_join (sw_circuits_folder demo_sweeper)
                                              "{circuit}.blif")
                                   (["--effort"; "2"] ++ option_set))))
            cs (spec_option_sets (items demo_ranges)) /\
    length (w_calls demo_sweep.2.2)
    = (length (w_calls (world0 demo_steady ∅))
       + combinations (items demo_ranges)
         * (Z.to_nat 2 * length (split " " (sw_circuits demo_sweeper))))%nat /\
    (spec_option_sets (items demo_ranges) ≠ [] ->
     w_fs demo_sweep.2.2 !! "tmp" = None).
Proof.
  apply (sweep_configurations (P:=demo_steady) ["--effort"; "2"]
           demo_ranges 2
           demo_sweeper (world0 demo_steady ∅) demo_sweep.2.1 demo_sweep.2.2).
  - apply (run_eta demo_sweep). vm_compute. reflexivity.
  - reflexivity.
Defined.

(** The sweep whose second configuration fails. *)
Lemma sweep_stops_at_failure_witness :
  sweep ["--effort"; "2"] demo_ranges 2
        (demo_sweeper, world0 demo_second_fails ∅)
    = (Raised (SystemExit 1),
       (demo_failing_sweep_before.2.1, demo_failing_configuration.2.2)) /\
  exists cs, callers demo_failing_sweep_before.2.1 = Some cs /\
             length cs = length [["--alpha"; "1"]].
Proof.
  apply (sweep_stops_at_failure (P:=demo_second_fails) ["--effort"; "2"]
           demo_ranges 2
           demo_sweeper (world0 demo_second_fails ∅)
           [["--alpha"; "1"]] [] ["--alpha"; "2"]
           demo_failing_sweep_before.2.1 demo_failing_sweep_before.2.2
           (SystemExit 1)
           demo_failing_configuration.2.1 demo_failing_configuration.2.2).
  - vm_compute. reflexivity.
  - apply (run_eta demo_failing_sweep_before). vm_compute. reflexivity.
  - apply (run_eta demo_failing_configuration). vm_compute. reflexivity.
Defined.

(** The run of one configuration of [demo_sweep]. *)
Lemma place_all_runs_and_cleans_witness :
  let run := place_all ["--effort"; "2"] 2 (demo_caller, world0 demo_steady ∅) in
  (exists new,
     w_calls run.2.2 = w_calls (world0 demo_steady ∅) ++ new /\
     map argv new
     = flat_map (fun seed =>
                   map (fun circuit =>
                          map (substitute circuit seed)
                              (["java"; "-cp"; "bin"; "interfaces.CLI";
                                architecture demo_caller; circuit_path demo_caller;
                                "--output_place_file"; "tmp/{circuit}.place";
                                "--random_seed"; "{seed}"] ++ ["--effort"; "2"]))
                       (circuits demo_caller))
                (seed_sequence demo_steady 2)) /\
  w_fs run.2.2 !! "tmp" = None /\
  (forall p, under "tmp" p = true -> w_fs run.2.2 !! p = None).
Proof.
  intros run.
  apply (place_all_runs_and_cleans (P:=demo_steady) ["--effort"; "2"] 2 demo_caller
           (world0 demo_steady ∅) run.2.1 run.2.2).
  apply (run_eta run). vm_compute. reflexivity.
Defined.

(** ** A captured text that is not a number (call_all_circuits_with_seed) *)

Section Malformed.
Context {P : platform}.

Lemma record_metric_done circuit groups metric text x (c : caller) (w : world P) :
  keyed c -> circuit ∈ circuits c -> metric ∈ metrics c ->
  groups (group_name metric) = Some text -> py_float P text = Some x ->
  exists c', record_metric circuit groups metric (c, w) = (Done tt, (c', w)).
Proof.
  intros (r & Hr & Kc & Km) Hci Hme Hg Hf.
  destruct (proj2 (Kc circuit) Hci) as [bm Hbm].
  destruct (proj2 (Km circuit bm Hbm metric) Hme) as [l Hl].
  unfold record_metric, self_results, self, bind, lift, getitem. simpl.
  rewrite Hr. unfold ret. rewrite Hbm, Hl.
  change (replace " " "_" (lower metric)) with (group_name metric).
  rewrite Hg, Hf. eexists. reflexivity.
Qed.

Lemma record_metric_malformed circuit groups metric text (c : caller) (w : world P) :
  keyed c -> circuit ∈ circuits c -> metric ∈ metrics c ->
  groups (group_name metric) = Some text -> py_float P text = None ->
  record_metric circuit groups metric (c, w) = (Raised (ValueError text), (c, w)).
Proof.
  intros (r & Hr & Kc & Km) Hci Hme Hg Hf.
  destruct (proj2 (Kc circuit) Hci) as [bm Hbm].
  destruct (proj2 (Km circuit bm Hbm metric) Hme) as [l Hl].
  unfold record_metric, self_results, self, bind, lift, getitem. simpl.
  rewrite Hr. unfold ret. rewrite Hbm, Hl.
  change (replace " " "_" (lower metric)) with (group_name metric).
  by rewrite Hg, Hf.
Qed.

Lemma record_loop_done circuit groups (ms : list string) :
  forall (c : caller) (w : world P),
    keyed c -> circuit ∈ circuits c ->
    (forall m, m ∈ ms -> m ∈ metrics c) ->
    Forall (fun m => exists text x, groups (group_name m) = Some text /\
                                    py_float P text = Some x) ms ->
    exists c', for_each ms (record_metric circuit groups) (c, w) = (Done tt, (c', w)).
Proof.
  induction ms as [|m ms IH]; intros c w K Hci Hsub Hall.
  - exists c. done.
  - inversion Hall as [|? ? (text & x & Hg & Hf) Hrest]; subst.
    destruct (record_metric_done circuit groups m text x c w K Hci) as (c1 & E1);
      [apply Hsub; left|exact Hg|exact Hf|].
    destruct (record_metric_effect _ _ _ _ _ _ _ _ E1) as (_ & S1 & K1 & _).
    destruct S1 as ((Hc & Hm & _) & _).
    destruct (IH c1 w) as (c' & E2); [by apply K1|by rewrite Hc| |exact Hrest|].
    { intros m' Hm'. rewrite Hm. apply Hsub. by right. }
    exists c'. simpl. unfold bind. by rewrite E1.
Qed.

(** X18.  When the pattern matches but the text captured for a metric is
    not a number, the pass for that circuit raises [ValueError] and no
    sample is recorded for that metric or a later one; the samples of the
    metrics before it in the metric list, taken from the same output, have
    already been appended and stay in the table. *)
Theorem malformed_number_raises (cmd : loc) (toks : list string) (seed : Z)
    (circuit : string) (c : caller) (w : world P) (out : string)
    (fs' : gmap string node) (groups : string -> option string)
    (before after : list string) (metric text : string) :
  w_heap w !! cmd = Some toks ->
  tool P (w_calls w) (map (substitute circuit seed) toks) (w_fs w) = ((out, ""), fs') ->
  re_search P (stats_regex c) out = Some groups ->
  keyed c -> circuit ∈ circuits c ->
  metrics c = before ++ metric :: after ->
  Forall (fun m => exists t x, groups (group_name m) = Some t /\ py_float P t = Some x)
         before ->
  groups (group_name metric) = Some text -> py_float P text = None ->
  exists c' w',
    run_circuit cmd seed circuit (c, w) = (Raised (ValueError text), (c', w')) /\
    forall m, sample_count c' circuit m
              = (sample_count c circuit m + occurrences m before)%nat.
Proof.
  intros Hcmd Htool Hre K Hci Hms Hbefore Hg Hf.
  unfold run_circuit.
  unfold bind at 1. unfold in_world at 1, print at 1, modify.
  unfold bind at 1. unfold in_world at 1.
  rewrite (call_circuit_runs cmd toks) by exact Hcmd.
  unfold after_call. simpl. rewrite !Htool. simpl.
  unfold bind at 1. unfold ret at 1. unfold bind at 1. unfold self at 1. simpl.
  rewrite Hre, Hms, for_each_app.
  match goal with
  | |- context [for_each before _ (c, ?w1)] =>
      destruct (record_loop_done circuit groups before c w1 K Hci) as (c1 & E1);
        [intros m Hm; rewrite Hms; apply elem_of_app; by left|exact Hbefore|];
      rewrite E1;
      destruct (record_loop_effect _ _ _ _ _ _ _ _ E1) as (_ & S1 & K1 & N1)
  end.
  destruct S1 as ((Hc1 & Hm1 & _) & _).
  simpl for_each. unfold bind at 1.
  rewrite (record_metric_malformed circuit groups metric text c1 _ (K1 K));
    [|by rewrite Hc1|rewrite Hm1, Hms; apply elem_of_app; right; left|exact Hg|exact Hf].
  eexists _, _. split; [reflexivity|].
  intros m. rewrite (N1 eq_refl). by rewrite decide_True.
Qed.

End Malformed.

(** The output [3 fast 7]: the runtime is recorded, the BB cost is not a
    number. *)
Lemma malformed_number_raises_witness :
  let c := (prepare_batch 1 (demo_caller, demo_command_world demo_malformed)).2.1 in
  let w := (prepare_batch 1 (demo_caller, demo_command_world demo_malformed)).2.2 in
  exists c' w',
    run_circuit 1%positive 1103527590 "alu" (c, w) = (Raised (ValueError "fast"), (c', w')) /\
    forall m, sample_count c' "alu" m
              = (sample_count c "alu" m + occurrences m ["runtime"])%nat.
Proof.
  intros c w.
  apply (malformed_number_raises (P:=demo_malformed) 1%positive
           (build_command "arch" "bench/{circuit}.blif" []) 1103527590 "alu" c w
           "3 fast 7" (<["tmp" := Dir]> ∅)
           (fun name => if decide (name = "runtime") then Some "3"
                        else if decide (name = "bb_cost") then Some "fast"
                        else if decide (name = "max_delay") then Some "7"
                        else None)
           ["runtime"] ["max delay"] "BB cost" "fast").
  - vm_compute. reflexivity.
  - vm_compute. reflexivity.
  - reflexivity.
  - subst c. rewrite prepare_batch_exact. apply keyed_empty_table.
  - subst c. rewrite prepare_batch_exact. vm_compute. apply list_elem_of_here.
  - subst c. rewrite prepare_batch_exact. reflexivity.
  - constructor; [|constructor]. exists "3", 3%R. split; reflexivity.
  - reflexivity.
  - reflexivity.
Defined.
